(** * Cube Maze Adventure: maze generation, spawn location, terrain mesh,
      monster AI and game state machine of [gogogo.py]

    A shallow embedding of the game logic.

    - Python integers are [Z]; Python floats (timers, heights, world
      coordinates) are idealised as exact rationals [Q], so rounding is not
      modelled.
    - Python lists are [list], read and written through Python's indexing
      rules; exceptions are the [Raise] outcome of a small result monad.
    - The global [random] module is an explicit stream of draws threaded
      through every function that consumes randomness.
    - The recursion of [_carve_path] is bounded by a fuel argument; the
      interpreter's own recursion limit is not modelled.
    - Orientation, unit vectors and distances belong to the rendering
      engine and are the operations of a class [Engine].  Cameras, the mouse,
      lights, widgets' texts and the callbacks the engine runs when an entity
      is enabled or disabled are outside the model; a group of widgets is
      one flag of [UIManager].

    The file first gives the model, then the vocabulary of the properties,
    then the proofs. *)

From Stdlib Require Import ZArith List Lia Bool QArith Qabs Lqa Sorted.
From stdpp Require Import base list.

Local Open Scope Z_scope.

(** [lia] also decides goals with division and remainder by constants. *)
Ltac Zify.zify_post_hook ::= Z.to_euclidean_division_equations.

(** ** Outcomes of Python code *)

Inductive exn : Type :=
| IndexError
| ValueError
| AttributeError.

Inductive result (A : Type) : Type :=
| Ok (a : A)
| Raise (e : exn)
| OutOfFuel.

Arguments Ok {A} a.
Arguments Raise {A} e.
Arguments OutOfFuel {A}.

Definition rbind {A B} (m : result A) (k : A -> result B) : result B :=
  match m with
  | Ok a => k a
  | Raise e => Raise e
  | OutOfFuel => OutOfFuel
  end.

Notation "x <- m ;; k" := (rbind m (fun x => k))
  (at level 100, m at next level, right associativity).
Notation "' p <- m ;; k" := (rbind m (fun p => k))
  (at level 100, p pattern, m at next level, right associativity).

(** ** Python list indexing

    [l[i]] accepts [-len <= i < len]; a negative index counts from the end,
    anything else raises [IndexError]. *)

Definition py_index {A} (l : list A) (i : Z) : result nat :=
  let n := Z.of_nat (length l) in
  let j := if i <? 0 then i + n else i in
  if (0 <=? j) && (j <? n) then Ok (Z.to_nat j) else Raise IndexError.

Definition py_getitem {A} (l : list A) (i : Z) : result A :=
  j <- py_index l i ;;
  match l !! j with
  | Some a => Ok a
  | None => Raise IndexError
  end.

Definition py_setitem {A} (l : list A) (i : Z) (v : A) : result (list A) :=
  j <- py_index l i ;;
  Ok (<[j := v]> l).

(** [range(a, b)] and [range(a, b, -1)]. *)
Definition py_range (a b : Z) : list Z :=
  map (fun i => a + Z.of_nat i) (seq 0 (Z.to_nat (b - a))).

Definition py_range_down (a b : Z) : list Z :=
  map (fun i => a - Z.of_nat i) (seq 0 (Z.to_nat (a - b))).

(** ** The random module

    The generator state is the list of raw draws still to come; an exhausted
    list keeps answering 0.  Every behaviour of the real generator on a finite
    run is the behaviour of this model on some list. *)

Definition Rng : Type := list nat.

Definition randbelow (n : Z) (r : Rng) : Z * Rng :=
  match r with
  | [] => (0, [])
  | d :: r' => (Z.of_nat d mod n, r')
  end.

(** [random.randrange(n)]: an integer in [0, n). *)
Definition randrange (n : Z) (r : Rng) : result (Z * Rng) :=
  if n <=? 0 then Raise ValueError else Ok (randbelow n r).

(** [random.randint(a, b)]: an integer in [a, b]. *)
Definition randint (a b : Z) (r : Rng) : result (Z * Rng) :=
  if b <? a then Raise ValueError
  else let '(k, r') := randbelow (b - a + 1) r in Ok (a + k, r').

Definition swap {A} (l : list A) (i j : nat) : list A :=
  match l !! i, l !! j with
  | Some a, Some b => <[i := b]> (<[j := a]> l)
  | _, _ => l
  end.

(** [random.shuffle(x)]: for i from len-1 down to 1, swap x[i] with x[j]
    for a random j <= i. *)
Fixpoint shuffle_from {A} (i : nat) (l : list A) (r : Rng) : list A * Rng :=
  match i with
  | O => (l, r)
  | S i' =>
      let '(j, r') := randbelow (Z.of_nat i + 1) r in
      shuffle_from i' (swap l i (Z.to_nat j)) r'
  end.

Definition shuffle {A} (l : list A) (r : Rng) : list A * Rng :=
  shuffle_from (length l - 1)%nat l r.

(** ** The maze grid (0 = path, 1 = wall), indexed [maze_grid[y][x]] *)

Abbreviation Grid := (list (list Z)).

Definition grid_get (g : Grid) (y x : Z) : result Z :=
  row <- py_getitem g y ;;
  py_getitem row x.

Definition grid_set (g : Grid) (y x : Z) (v : Z) : result Grid :=
  row <- py_getitem g y ;;
  row' <- py_setitem row x v ;;
  py_setitem g y row'.

(** [[[1 for _ in range(D)] for _ in range(D)]] *)
Definition all_walls (D : Z) : Grid :=
  map (fun _ => map (fun _ => 1) (py_range 0 D)) (py_range 0 D).

Definition directions : list (Z * Z) := [(0, 1); (1, 0); (0, -1); (-1, 0)].

(** The [for dx, dy in directions] loop of [_carve_path]; [rec] is the
    recursive call. *)
Fixpoint carve_loop (rec : Grid -> Rng -> Z -> Z -> result (Grid * Rng))
    (D : Z) (cx cy : Z) (ds : list (Z * Z)) (g : Grid) (r : Rng)
    : result (Grid * Rng) :=
  match ds with
  | [] => Ok (g, r)
  | (dx, dy) :: ds' =>
      let nx := cx + dx * 2 in
      let ny := cy + dy * 2 in
      if (0 <? nx) && (nx <? D - 1) && (0 <? ny) && (ny <? D - 1) then
        v <- grid_get g ny nx ;;
        if v =? 1 then
          g1 <- grid_set g (cy + dy) (cx + dx) 0 ;;
          '(g2, r2) <- rec g1 r nx ny ;;
          carve_loop rec D cx cy ds' g2 r2
        else carve_loop rec D cx cy ds' g r
      else carve_loop rec D cx cy ds' g r
  end.

(** [TerrainMazeGenerator._carve_path]; [fuel] bounds the recursion depth. *)
Fixpoint _carve_path (fuel : nat) (D : Z) (g : Grid) (r : Rng) (cx cy : Z)
    : result (Grid * Rng) :=
  match fuel with
  | O => OutOfFuel
  | S fuel' =>
      g1 <- grid_set g cy cx 0 ;;
      let '(dirs, r1) := shuffle directions r in
      carve_loop (_carve_path fuel' D) D cx cy dirs g1 r1
  end.

(** The random start of the carving: both coordinates odd. *)
Definition pick_start (D : Z) (r : Rng) : result ((Z * Z) * Rng) :=
  '(a, r1) <- randrange (D / 2) r ;;
  '(b, r2) <- randrange (D / 2) r1 ;;
  Ok ((a * 2 + 1, b * 2 + 1), r2).

(** ** Spawn location *)

Definition _is_valid_grid_pos (D : Z) (g : Grid) (x y : Z) : result bool :=
  if (0 <=? x) && (x <? D) then
    if (0 <=? y) && (y <? D) then
      v <- grid_get g y x ;; Ok (v =? 0)
    else Ok false
  else Ok false.

(** Inner and outer [for] loops with an early [return]. *)
Fixpoint scan_row (D : Z) (g : Grid) (z : Z) (xs : list Z)
    : result (option (Z * Z)) :=
  match xs with
  | [] => Ok None
  | x :: xs' =>
      b <- _is_valid_grid_pos D g x z ;;
      if b : bool then Ok (Some (x, z)) else scan_row D g z xs'
  end.

Fixpoint scan_rows (D : Z) (g : Grid) (zs xs : list Z)
    : result (option (Z * Z)) :=
  match zs with
  | [] => Ok None
  | z :: zs' =>
      o <- scan_row D g z xs ;;
      match o with
      | Some c => Ok (Some c)
      | None => scan_rows D g zs' xs
      end
  end.

Definition find_spawn_point (D : Z) (g : Grid) : result (Z * Z) :=
  o <- scan_rows D g (py_range 1 (D - 1)) (py_range 1 (D - 1)) ;;
  Ok (match o with Some c => c | None => (1, 1) end).

Definition find_goal_point (D : Z) (g : Grid) : result (Z * Z) :=
  o <- scan_rows D g (py_range_down (D - 2) 0) (py_range_down (D - 2) 0) ;;
  Ok (match o with Some c => c | None => (D - 2, D - 2) end).

Definition Qlt_bool (a b : Q) : bool := negb (Qle_bool b a).

(** [d > self.dimension / 4], with Python's true division. *)
Definition exceeds_quarter (D d : Z) : bool :=
  Qlt_bool (inject_Z D / 4) (inject_Z d).

(** The [while attempts < 100] loop; [n] is the number of attempts left. *)
Fixpoint monster_attempts (n : nat) (D : Z) (g : Grid) (r : Rng)
    : result ((Z * Z) * Rng) :=
  match n with
  | O => Ok ((D / 2, D / 2), r)
  | S n' =>
      '(x, r1) <- randint 1 (D - 2) r ;;
      '(y, r2) <- randint 1 (D - 2) r1 ;;
      b <- _is_valid_grid_pos D g x y ;;
      if b : bool then
        player_pos_grid <- find_spawn_point D g ;;
        goal_pos_grid <- find_goal_point D g ;;
        let dist_to_player :=
          Z.abs (x - fst player_pos_grid) + Z.abs (y - snd player_pos_grid) in
        let dist_to_goal :=
          Z.abs (x - fst goal_pos_grid) + Z.abs (y - snd goal_pos_grid) in
        if exceeds_quarter D dist_to_player && exceeds_quarter D dist_to_goal
        then Ok ((x, y), r2)
        else monster_attempts n' D g r2
      else monster_attempts n' D g r2
  end.

Definition find_monster_spawn_point (D : Z) (g : Grid) (r : Rng)
    : result ((Z * Z) * Rng) :=
  monster_attempts 100 D g r.

(** ** Configuration *)

Inductive Color : Type :=
| azure | orange | red | yellow | magenta | light_gray | dark_gray | green
| lime | gray | white | black.

Inductive PatrolType : Type :=
| linear
| sine.

Record GameConfig : Type := {
  PLAYER_HEIGHT_OFFSET : Q;
  PLAYER_MAX_HEALTH : Z;
  PLAYER_HIT_INVULNERABILITY_TIME : Q;
  MONSTER_SPEED : Q;
  MONSTER_VISION_RANGE : Q;
  MONSTER_PATROL_TYPE : PatrolType;
  MONSTER_PATROL_AMPLITUDE : Q;
  MONSTER_PATROL_FREQUENCY : Q;
  MONSTER_ATTACK_COOLDOWN : Q;
  MONSTER_ATTACK_WINDUP_TIME : Q;
  MONSTER_ATTACK_PROJECTILE_SPEED : Q;
  MONSTER_ATTACK_PROJECTILE_LIFETIME : Q;
  MONSTER_ATTACK_DAMAGE : Z;
  MAZE_DIMENSION : Z;
  MAZE_WALL_HEIGHT : Q;
  MAZE_PATH_HEIGHT : Q;
  CELL_SIZE : Q;
  COLOR_PLAYER : Color;
  COLOR_GOAL : Color;
  COLOR_MONSTER : Color;
  COLOR_MONSTER_ATTACK_CUE : Color;
  COLOR_PROJECTILE : Color;
  COLOR_GROUND_PATH : Color;
  COLOR_GROUND_WALL : Color
}.

Definition set_MAZE_DIMENSION (c : GameConfig) (d : Z) : GameConfig :=
  {| PLAYER_HEIGHT_OFFSET := PLAYER_HEIGHT_OFFSET c;
     PLAYER_MAX_HEALTH := PLAYER_MAX_HEALTH c;
     PLAYER_HIT_INVULNERABILITY_TIME := PLAYER_HIT_INVULNERABILITY_TIME c;
     MONSTER_SPEED := MONSTER_SPEED c;
     MONSTER_VISION_RANGE := MONSTER_VISION_RANGE c;
     MONSTER_PATROL_TYPE := MONSTER_PATROL_TYPE c;
     MONSTER_PATROL_AMPLITUDE := MONSTER_PATROL_AMPLITUDE c;
     MONSTER_PATROL_FREQUENCY := MONSTER_PATROL_FREQUENCY c;
     MONSTER_ATTACK_COOLDOWN := MONSTER_ATTACK_COOLDOWN c;
     MONSTER_ATTACK_WINDUP_TIME := MONSTER_ATTACK_WINDUP_TIME c;
     MONSTER_ATTACK_PROJECTILE_SPEED := MONSTER_ATTACK_PROJECTILE_SPEED c;
     MONSTER_ATTACK_PROJECTILE_LIFETIME := MONSTER_ATTACK_PROJECTILE_LIFETIME c;
     MONSTER_ATTACK_DAMAGE := MONSTER_ATTACK_DAMAGE c;
     MAZE_DIMENSION := d;
     MAZE_WALL_HEIGHT := MAZE_WALL_HEIGHT c;
     MAZE_PATH_HEIGHT := MAZE_PATH_HEIGHT c;
     CELL_SIZE := CELL_SIZE c;
     COLOR_PLAYER := COLOR_PLAYER c;
     COLOR_GOAL := COLOR_GOAL c;
     COLOR_MONSTER := COLOR_MONSTER c;
     COLOR_MONSTER_ATTACK_CUE := COLOR_MONSTER_ATTACK_CUE c;
     COLOR_PROJECTILE := COLOR_PROJECTILE c;
     COLOR_GROUND_PATH := COLOR_GROUND_PATH c;
     COLOR_GROUND_WALL := COLOR_GROUND_WALL c |}.

(** The assignments of [GameConfig.__init__] ... *)
Definition config_literals : GameConfig :=
  {| PLAYER_HEIGHT_OFFSET := 1 # 2;
     PLAYER_MAX_HEALTH := 3;
     PLAYER_HIT_INVULNERABILITY_TIME := 1;
     MONSTER_SPEED := 5 # 2;
     MONSTER_VISION_RANGE := 10;
     MONSTER_PATROL_TYPE := sine;
     MONSTER_PATROL_AMPLITUDE := 8;
     MONSTER_PATROL_FREQUENCY := 1;
     MONSTER_ATTACK_COOLDOWN := 3;
     MONSTER_ATTACK_WINDUP_TIME := 1;
     MONSTER_ATTACK_PROJECTILE_SPEED := 15;
     MONSTER_ATTACK_PROJECTILE_LIFETIME := 2;
     MONSTER_ATTACK_DAMAGE := 1;
     MAZE_DIMENSION := 20;
     MAZE_WALL_HEIGHT := 1;
     MAZE_PATH_HEIGHT := 0;
     CELL_SIZE := 1;
     COLOR_PLAYER := azure;
     COLOR_GOAL := orange;
     COLOR_MONSTER := red;
     COLOR_MONSTER_ATTACK_CUE := yellow;
     COLOR_PROJECTILE := magenta;
     COLOR_GROUND_PATH := light_gray;
     COLOR_GROUND_WALL := dark_gray |}.

(** ... and its last statement, which makes an even maze dimension odd. *)
Definition ensure_odd_dimension (c : GameConfig) : GameConfig :=
  if MAZE_DIMENSION c mod 2 =? 0
  then set_MAZE_DIMENSION c (MAZE_DIMENSION c + 1)
  else c.

Definition GameConfig_init : GameConfig := ensure_odd_dimension config_literals.

(** ** The terrain mesh *)

Record Vec3 : Type := mkVec3 { vx : Q; vy : Q; vz : Q }.

Inductive Face : Type :=
| Top | North | South | East | West.

(** A quad as it is appended to the mesh: its four vertices in order and
    their colour; [Face] names the block of the builder that emits it. *)
Record Quad : Type := {
  quad_face : Face;
  quad_vertices : list Vec3;
  quad_color : Color
}.

Record Mesh : Type := {
  vertices : list Vec3;
  triangles : list Z;
  colors : list Color;
  uvs : list (Z * Z)
}.

Definition empty_mesh : Mesh :=
  {| vertices := []; triangles := []; colors := []; uvs := [] |}.

(** [vertices.extend], [colors.extend], [uvs.extend], [triangles.extend]
    for one quad. *)
Definition mesh_add_quad (m : Mesh) (q : Quad) : Mesh :=
  let current_vert_start_idx := Z.of_nat (length (vertices m)) in
  {| vertices := vertices m ++ quad_vertices q;
     triangles := triangles m ++
       [current_vert_start_idx + 0; current_vert_start_idx + 1;
        current_vert_start_idx + 2; current_vert_start_idx + 0;
        current_vert_start_idx + 2; current_vert_start_idx + 3];
     colors := colors m ++ [quad_color q; quad_color q; quad_color q; quad_color q];
     uvs := uvs m ++ [(0, 0); (1, 0); (1, 1); (0, 1)] |}.

Record MeshEntity : Type := {
  mesh_model : Mesh;
  mesh_enabled : bool
}.

Record TerrainMazeGenerator : Type := {
  dimension : Z;
  cell_size : Q;
  wall_height : Q;
  path_height : Q;
  maze_grid : Grid;
  mesh_entity : option MeshEntity
}.

Definition set_maze_grid (self : TerrainMazeGenerator) (g : Grid)
    : TerrainMazeGenerator :=
  {| dimension := dimension self; cell_size := cell_size self;
     wall_height := wall_height self; path_height := path_height self;
     maze_grid := g; mesh_entity := mesh_entity self |}.

Definition set_mesh_entity (self : TerrainMazeGenerator)
    (m : option MeshEntity) : TerrainMazeGenerator :=
  {| dimension := dimension self; cell_size := cell_size self;
     wall_height := wall_height self; path_height := path_height self;
     maze_grid := maze_grid self; mesh_entity := m |}.

Definition TerrainMazeGenerator_init (dimension : Z)
    (cell_size wall_height path_height : Q) : TerrainMazeGenerator :=
  {| dimension := dimension; cell_size := cell_size;
     wall_height := wall_height; path_height := path_height;
     maze_grid := []; mesh_entity := None |}.

(** The four neighbour tests of the mesh builder: on the edge of the grid,
    or the neighbour in that direction is a path. *)
Definition north_exposed (D : Z) (g : Grid) (z_idx x_idx : Z) : result bool :=
  if z_idx =? D - 1 then Ok true
  else if z_idx + 1 <? D then v <- grid_get g (z_idx + 1) x_idx ;; Ok (v =? 0)
  else Ok false.

Definition south_exposed (D : Z) (g : Grid) (z_idx x_idx : Z) : result bool :=
  if z_idx =? 0 then Ok true
  else if z_idx - 1 >=? 0 then v <- grid_get g (z_idx - 1) x_idx ;; Ok (v =? 0)
  else Ok false.

Definition east_exposed (D : Z) (g : Grid) (z_idx x_idx : Z) : result bool :=
  if x_idx =? D - 1 then Ok true
  else if x_idx + 1 <? D then v <- grid_get g z_idx (x_idx + 1) ;; Ok (v =? 0)
  else Ok false.

Definition west_exposed (D : Z) (g : Grid) (z_idx x_idx : Z) : result bool :=
  if x_idx =? 0 then Ok true
  else if x_idx - 1 >=? 0 then v <- grid_get g z_idx (x_idx - 1) ;; Ok (v =? 0)
  else Ok false.

Definition side_quad (exposed is_wall : bool) (q : Quad) : list Quad :=
  if exposed then if is_wall then [q] else [] else [].

(** The quads emitted for one cell by the body of the double loop of
    [_create_mesh_from_grid], in emission order. *)
Definition cell_quads (cfg : GameConfig) (self : TerrainMazeGenerator)
    (z_idx x_idx : Z) : result (list Quad) :=
  let D := dimension self in
  let g := maze_grid self in
  v <- grid_get g z_idx x_idx ;;
  let is_wall := v =? 1 in
  let height := if is_wall then wall_height self else path_height self in
  let cell_color :=
    if is_wall then COLOR_GROUND_WALL cfg else COLOR_GROUND_PATH cfg in
  let base_x := ((inject_Z x_idx - inject_Z D / 2) * cell_size self)%Q in
  let base_z := ((inject_Z z_idx - inject_Z D / 2) * cell_size self)%Q in
  let v_bl := mkVec3 base_x height base_z in
  let v_br := mkVec3 (base_x + cell_size self) height base_z in
  let v_tr := mkVec3 (base_x + cell_size self) height (base_z + cell_size self) in
  let v_tl := mkVec3 base_x height (base_z + cell_size self) in
  let top :=
    {| quad_face := Top; quad_vertices := [v_bl; v_br; v_tr; v_tl];
       quad_color := cell_color |} in
  n <- north_exposed D g z_idx x_idx ;;
  let v_n_bl := mkVec3 base_x (path_height self) (base_z + cell_size self) in
  let v_n_br :=
    mkVec3 (base_x + cell_size self) (path_height self) (base_z + cell_size self) in
  let north :=
    {| quad_face := North; quad_vertices := [v_n_bl; v_n_br; v_tr; v_tl];
       quad_color := cell_color |} in
  s <- south_exposed D g z_idx x_idx ;;
  let v_s_bl := mkVec3 base_x (path_height self) base_z in
  let v_s_br := mkVec3 (base_x + cell_size self) (path_height self) base_z in
  let south :=
    {| quad_face := South; quad_vertices := [v_s_br; v_s_bl; v_bl; v_br];
       quad_color := cell_color |} in
  e <- east_exposed D g z_idx x_idx ;;
  let v_e_bl := mkVec3 (base_x + cell_size self) (path_height self) base_z in
  let v_e_br :=
    mkVec3 (base_x + cell_size self) (path_height self) (base_z + cell_size self) in
  let east :=
    {| quad_face := East; quad_vertices := [v_e_bl; v_e_br; v_tr; v_br];
       quad_color := cell_color |} in
  w <- west_exposed D g z_idx x_idx ;;
  let v_w_bl := mkVec3 base_x (path_height self) base_z in
  let v_w_br := mkVec3 base_x (path_height self) (base_z + cell_size self) in
  let west :=
    {| quad_face := West; quad_vertices := [v_w_br; v_w_bl; v_bl; v_tl];
       quad_color := cell_color |} in
  Ok (top :: side_quad n is_wall north ++ side_quad s is_wall south
          ++ side_quad e is_wall east ++ side_quad w is_wall west).

(** [for x_idx in range(self.dimension)] and
    [for z_idx in range(self.dimension)]. *)
Fixpoint mesh_row (cfg : GameConfig) (self : TerrainMazeGenerator)
    (z_idx : Z) (xs : list Z) (m : Mesh) : result Mesh :=
  match xs with
  | [] => Ok m
  | x_idx :: xs' =>
      qs <- cell_quads cfg self z_idx x_idx ;;
      mesh_row cfg self z_idx xs' (fold_left mesh_add_quad qs m)
  end.

Fixpoint mesh_rows (cfg : GameConfig) (self : TerrainMazeGenerator)
    (zs : list Z) (m : Mesh) : result Mesh :=
  match zs with
  | [] => Ok m
  | z_idx :: zs' =>
      m' <- mesh_row cfg self z_idx (py_range 0 (dimension self)) m ;;
      mesh_rows cfg self zs' m'
  end.

Definition _create_mesh_from_grid (cfg : GameConfig)
    (self : TerrainMazeGenerator) : result TerrainMazeGenerator :=
  m <- mesh_rows cfg self (py_range 0 (dimension self)) empty_mesh ;;
  Ok (set_mesh_entity self (Some {| mesh_model := m; mesh_enabled := true |})).

Definition clear_maze (self : TerrainMazeGenerator) : TerrainMazeGenerator :=
  set_maze_grid (set_mesh_entity self None) [].

Definition generate_random_maze (cfg : GameConfig) (fuel : nat)
    (self : TerrainMazeGenerator) (r : Rng)
    : result (TerrainMazeGenerator * Rng) :=
  let self := clear_maze self in
  let self := set_maze_grid self (all_walls (dimension self)) in
  '((start_x, start_y), r1) <- pick_start (dimension self) r ;;
  '(g, r2) <- _carve_path fuel (dimension self) (maze_grid self) r1
                start_x start_y ;;
  let self := set_maze_grid self g in
  self <- _create_mesh_from_grid cfg self ;;
  Ok (self, r2).

Definition get_world_position (cfg : GameConfig) (self : TerrainMazeGenerator)
    (grid_x grid_z : Z) : Vec3 :=
  let world_x :=
    ((inject_Z grid_x - inject_Z (dimension self) / 2 + (1 # 2)) * cell_size self)%Q in
  let world_z :=
    ((inject_Z grid_z - inject_Z (dimension self) / 2 + (1 # 2)) * cell_size self)%Q in
  mkVec3 world_x (MAZE_PATH_HEIGHT cfg + PLAYER_HEIGHT_OFFSET cfg)%Q world_z.

(** ** The engine

    Orientation, unit vectors, Euclidean distance and the sine are primitives
    of the rendering engine and of the math module; the game logic only
    composes them. *)

Class Engine : Type := {
  Rotation : Type;
  rotation_zero : Rotation;
  (** [look_at pos target]: the orientation of an entity at [pos] after
      [self.look_at(target)]. *)
  look_at : Vec3 -> Vec3 -> Rotation;
  forward : Rotation -> Vec3;
  normalized : Vec3 -> Vec3;
  distance : Vec3 -> Vec3 -> Q;
  sin : Q -> Q
}.

Definition vadd (a b : Vec3) : Vec3 :=
  mkVec3 (vx a + vx b)%Q (vy a + vy b)%Q (vz a + vz b)%Q.

Definition vsub (a b : Vec3) : Vec3 :=
  mkVec3 (vx a - vx b)%Q (vy a - vy b)%Q (vz a - vz b)%Q.

Definition vscale (a : Vec3) (k : Q) : Vec3 :=
  mkVec3 (vx a * k)%Q (vy a * k)%Q (vz a * k)%Q.

Definition set_y (a : Vec3) (y : Q) : Vec3 := mkVec3 (vx a) y (vz a).

Definition vec_eqb (a b : Vec3) : bool :=
  Qeq_bool (vx a) (vx b) && Qeq_bool (vy a) (vy b) && Qeq_bool (vz a) (vz b).

(** [int(x)]: truncation toward zero. *)
Definition py_int (q : Q) : Z := Z.quot (Qnum q) (Zpos (Qden q)).

Inductive GameState : Type :=
| MENU | PLAYING | PAUSED | WIN | LOSE.

Definition GameState_eqb (a b : GameState) : bool :=
  match a, b with
  | MENU, MENU | PLAYING, PLAYING | PAUSED, PAUSED | WIN, WIN | LOSE, LOSE => true
  | _, _ => false
  end.

(** Which groups of widgets are enabled, and the health shown on the HUD. *)
Record UIManager : Type := {
  menu_enabled : bool;
  win_text_enabled : bool;
  lose_text_enabled : bool;
  game_over_buttons_enabled : bool;
  pause_menu_enabled : bool;
  hud_enabled : bool;
  health_shown : Z
}.

Definition hide_all_ui (ui : UIManager) : UIManager :=
  {| menu_enabled := false; win_text_enabled := false;
     lose_text_enabled := false; game_over_buttons_enabled := false;
     pause_menu_enabled := false; hud_enabled := false;
     health_shown := health_shown ui |}.

Definition show_menu (ui : UIManager) : UIManager :=
  {| menu_enabled := true; win_text_enabled := false;
     lose_text_enabled := false; game_over_buttons_enabled := false;
     pause_menu_enabled := false; hud_enabled := false;
     health_shown := health_shown ui |}.

Definition show_game_over_screen (ui : UIManager) (is_win : bool) : UIManager :=
  {| menu_enabled := false; win_text_enabled := is_win;
     lose_text_enabled := negb is_win; game_over_buttons_enabled := true;
     pause_menu_enabled := false; hud_enabled := false;
     health_shown := health_shown ui |}.

Definition show_pause_menu (ui : UIManager) : UIManager :=
  {| menu_enabled := false; win_text_enabled := false;
     lose_text_enabled := false; game_over_buttons_enabled := false;
     pause_menu_enabled := true; hud_enabled := false;
     health_shown := health_shown ui |}.

Definition show_game_hud (ui : UIManager) : UIManager :=
  {| menu_enabled := menu_enabled ui; win_text_enabled := win_text_enabled ui;
     lose_text_enabled := lose_text_enabled ui;
     game_over_buttons_enabled := game_over_buttons_enabled ui;
     pause_menu_enabled := pause_menu_enabled ui; hud_enabled := true;
     health_shown := health_shown ui |}.

Definition update_health_display (ui : UIManager) (current_health : Z)
    : UIManager :=
  {| menu_enabled := menu_enabled ui; win_text_enabled := win_text_enabled ui;
     lose_text_enabled := lose_text_enabled ui;
     game_over_buttons_enabled := game_over_buttons_enabled ui;
     pause_menu_enabled := pause_menu_enabled ui; hud_enabled := hud_enabled ui;
     health_shown := current_health |}.

Definition UIManager_init : UIManager :=
  {| menu_enabled := true; win_text_enabled := false;
     lose_text_enabled := false; game_over_buttons_enabled := false;
     pause_menu_enabled := false; hud_enabled := false; health_shown := 3 |}.

Section Entities.
Context `{Engine}.

(** *** Player *)

Record Player : Type := {
  player_position : Vec3;
  player_rotation : Rotation;
  player_start_position : Vec3;
  player_enabled : bool;
  player_visible : bool;
  max_health : Z;
  current_health : Z;
  is_invulnerable : bool;
  _invulnerability_timer : Q
}.

Definition Player_init (cfg : GameConfig) (position : Vec3) : Player :=
  {| player_position := position; player_rotation := rotation_zero;
     player_start_position := position; player_enabled := true;
     player_visible := true; max_health := PLAYER_MAX_HEALTH cfg;
     current_health := PLAYER_MAX_HEALTH cfg; is_invulnerable := false;
     _invulnerability_timer := 0 |}.

(** [entity.enabled = b]; what [on_enable] and [on_disable] do to the camera,
    the mouse and the visibility is the engine's. *)
Definition player_set_enabled (p : Player) (b : bool) : Player :=
  {| player_position := player_position p;
     player_rotation := player_rotation p;
     player_start_position := player_start_position p;
     player_enabled := b; player_visible := player_visible p;
     max_health := max_health p; current_health := current_health p;
     is_invulnerable := is_invulnerable p;
     _invulnerability_timer := _invulnerability_timer p |}.

Definition player_set_start_position (p : Player) (v : Vec3) : Player :=
  {| player_position := player_position p;
     player_rotation := player_rotation p;
     player_start_position := v;
     player_enabled := player_enabled p; player_visible := player_visible p;
     max_health := max_health p; current_health := current_health p;
     is_invulnerable := is_invulnerable p;
     _invulnerability_timer := _invulnerability_timer p |}.

(** The invulnerability countdown of [Player.update]; the movement done by
    the first-person controller is the engine's. *)
Definition Player_update (dt : Q) (self : Player) : Player :=
  if is_invulnerable self then
    let timer := (_invulnerability_timer self - dt)%Q in
    let blink :=
      if py_int (timer * 10) mod 2 =? 0 then negb (player_visible self)
      else true in
    let expired := Qle_bool timer 0 in
    {| player_position := player_position self;
       player_rotation := player_rotation self;
       player_start_position := player_start_position self;
       player_enabled := player_enabled self;
       player_visible := if expired then true else blink;
       max_health := max_health self;
       current_health := current_health self;
       is_invulnerable := if expired then false else true;
       _invulnerability_timer := timer |}
  else self.

(** The assignments of [Player.reset_state]; its call of
    [update_health_display] is made by the caller. *)
Definition Player_reset_state (self : Player) : Player :=
  {| player_position := player_start_position self;
     player_rotation := rotation_zero;
     player_start_position := player_start_position self;
     player_enabled := true; player_visible := true;
     max_health := max_health self; current_health := max_health self;
     is_invulnerable := false; _invulnerability_timer := 0 |}.

(** *** Goal *)

Record Goal : Type := {
  goal_position : Vec3;
  goal_enabled : bool;
  goal_visible : bool
}.

Definition Goal_init (cfg : GameConfig) (position : Vec3) : Goal :=
  let scale_y := (MAZE_WALL_HEIGHT cfg * (3 # 2))%Q in
  {| goal_position :=
       set_y position (vy position + (MAZE_PATH_HEIGHT cfg + scale_y / 2))%Q;
     goal_enabled := true; goal_visible := true |}.

(** *** Projectile *)

Record MonsterProjectile : Type := {
  projectile_position : Vec3;
  direction : Vec3;
  projectile_speed : Q;
  lifetime : Q;
  _timer : Q
}.

Definition MonsterProjectile_init (cfg : GameConfig)
    (start_pos target_dir : Vec3) : MonsterProjectile :=
  let scale_y := (1 # 2)%Q in
  {| projectile_position :=
       set_y start_pos (MAZE_PATH_HEIGHT cfg + scale_y / 2)%Q;
     direction := normalized target_dir;
     projectile_speed := MONSTER_ATTACK_PROJECTILE_SPEED cfg;
     lifetime := MONSTER_ATTACK_PROJECTILE_LIFETIME cfg;
     _timer := MONSTER_ATTACK_PROJECTILE_LIFETIME cfg |}.

(** *** Monster *)

Record Monster : Type := {
  monster_position : Vec3;
  monster_rotation : Rotation;
  monster_start_position : Vec3;
  monster_speed : Q;
  current_patrol_time : Q;
  patrol_start_x : Q;
  _attack_cooldown_timer : Q;
  _attack_windup_timer : Q;
  _is_winding_up_attack : bool;
  target_for_attack : option Vec3;
  (** [None] while the attribute has never been assigned. *)
  target_position : option (option Vec3);
  monster_color : Color;
  monster_enabled : bool;
  monster_visible : bool;
  scale_x : Q;
  scale_y : Q
}.

Definition Monster_init (cfg : GameConfig) (position : Vec3) : Monster :=
  let sy := (MAZE_WALL_HEIGHT cfg * (3 # 2))%Q in
  {| monster_position := set_y position (MAZE_PATH_HEIGHT cfg + sy / 2)%Q;
     monster_rotation := rotation_zero;
     monster_start_position := position;
     monster_speed := MONSTER_SPEED cfg;
     current_patrol_time := 0;
     patrol_start_x := vx position;
     _attack_cooldown_timer := 0;
     _attack_windup_timer := 0;
     _is_winding_up_attack := false;
     target_for_attack := None;
     target_position := None;
     monster_color := COLOR_MONSTER cfg;
     monster_enabled := true;
     monster_visible := true;
     scale_x := (CELL_SIZE cfg * (6 # 5))%Q;
     scale_y := sy |}.

(** One record update for every group of attributes a method assigns. *)
Definition monster_with (self : Monster) (position : Vec3)
    (rotation : Rotation) (patrol_time cooldown windup : Q)
    (winding : bool) (attack_target : option Vec3)
    (patrol_target : option (option Vec3)) (c : Color) : Monster :=
  {| monster_position := position;
     monster_rotation := rotation;
     monster_start_position := monster_start_position self;
     monster_speed := monster_speed self;
     current_patrol_time := patrol_time;
     patrol_start_x := patrol_start_x self;
     _attack_cooldown_timer := cooldown;
     _attack_windup_timer := windup;
     _is_winding_up_attack := winding;
     target_for_attack := attack_target;
     target_position := patrol_target;
     monster_color := c;
     monster_enabled := monster_enabled self;
     monster_visible := monster_visible self;
     scale_x := scale_x self;
     scale_y := scale_y self |}.

Definition monster_set_enabled (self : Monster) (b : bool) : Monster :=
  {| monster_position := monster_position self;
     monster_rotation := monster_rotation self;
     monster_start_position := monster_start_position self;
     monster_speed := monster_speed self;
     current_patrol_time := current_patrol_time self;
     patrol_start_x := patrol_start_x self;
     _attack_cooldown_timer := _attack_cooldown_timer self;
     _attack_windup_timer := _attack_windup_timer self;
     _is_winding_up_attack := _is_winding_up_attack self;
     target_for_attack := target_for_attack self;
     target_position := target_position self;
     monster_color := monster_color self;
     monster_enabled := b;
     monster_visible := monster_visible self;
     scale_x := scale_x self;
     scale_y := scale_y self |}.

Definition monster_set_start_position (self : Monster) (v : Vec3) : Monster :=
  {| monster_position := monster_position self;
     monster_rotation := monster_rotation self;
     monster_start_position := v;
     monster_speed := monster_speed self;
     current_patrol_time := current_patrol_time self;
     patrol_start_x := patrol_start_x self;
     _attack_cooldown_timer := _attack_cooldown_timer self;
     _attack_windup_timer := _attack_windup_timer self;
     _is_winding_up_attack := _is_winding_up_attack self;
     target_for_attack := target_for_attack self;
     target_position := target_position self;
     monster_color := monster_color self;
     monster_enabled := monster_enabled self;
     monster_visible := monster_visible self;
     scale_x := scale_x self;
     scale_y := scale_y self |}.

Definition Monster_reset_state (cfg : GameConfig) (self : Monster) : Monster :=
  {| monster_position :=
       set_y (monster_start_position self)
             (MAZE_PATH_HEIGHT cfg + scale_y self / 2)%Q;
     monster_rotation := monster_rotation self;
     monster_start_position := monster_start_position self;
     monster_speed := monster_speed self;
     current_patrol_time := 0;
     patrol_start_x := patrol_start_x self;
     _attack_cooldown_timer := 0;
     _attack_windup_timer := 0;
     _is_winding_up_attack := false;
     target_for_attack := target_for_attack self;
     target_position := Some None;
     monster_color := COLOR_MONSTER cfg;
     monster_enabled := true;
     monster_visible := true;
     scale_x := scale_x self;
     scale_y := scale_y self |}.

(** *** The game object *)

Record Game : Type := {
  current_state : GameState;
  player : option Player;
  goal : option Goal;
  monster : option Monster;
  maze_generator : TerrainMazeGenerator;
  ui_manager : UIManager;
  (** the [MonsterProjectile] entities of the scene *)
  projectiles : list MonsterProjectile;
  app_running : bool
}.

(** [game.player and game.player.enabled] *)
Definition available_player (game : Game) : option Player :=
  match player game with
  | Some p => if player_enabled p then Some p else None
  | None => None
  end.
End Entities.

Section Behaviour.
Context `{Engine}.
Variable game_config : GameConfig.

(** *** Monster AI *)

Definition _start_attack_windup (game : Game) (self : Monster) : Monster :=
  let target :=
    match available_player game with
    | Some p => player_position p
    | None => vscale (forward (monster_rotation self)) 10
    end in
  monster_with self (monster_position self) (monster_rotation self)
    (current_patrol_time self) (_attack_cooldown_timer self)
    (MONSTER_ATTACK_WINDUP_TIME game_config) true (Some target)
    (target_position self) (monster_color self).

(** Returns the monster and the projectiles it has just created.  A stored
    vector is truthy, so [if self.target_for_attack] tests for [None]. *)
Definition _execute_attack (self : Monster)
    : Monster * list MonsterProjectile :=
  let shots :=
    match target_for_attack self with
    | Some target =>
        let direction_to_target :=
          normalized (vsub target (monster_position self)) in
        let projectile_spawn_pos :=
          vadd (monster_position self)
               (vscale (forward (monster_rotation self))
                       (scale_x self / 2 + (1 # 10))%Q) in
        [MonsterProjectile_init game_config projectile_spawn_pos
           direction_to_target]
    | None => []
    end in
  (monster_with self (monster_position self) (monster_rotation self)
     (current_patrol_time self) (_attack_cooldown_timer self)
     (_attack_windup_timer self) (_is_winding_up_attack self) None
     (target_position self) (monster_color self),
   shots).

Definition _chase_player (game : Game) (dt : Q) (self : Monster)
    : result Monster :=
  match player game with
  | None => Raise AttributeError
  | Some p =>
      let direction_to_target :=
        set_y (normalized (vsub (player_position p) (monster_position self))) 0 in
      let position :=
        vadd (monster_position self)
             (vscale (vscale direction_to_target (monster_speed self)) dt) in
      Ok (monster_with self position
            (look_at position (vadd position direction_to_target))
            (current_patrol_time self) (_attack_cooldown_timer self)
            (_attack_windup_timer self) (_is_winding_up_attack self)
            (target_for_attack self) (target_position self)
            (monster_color self))
  end.

Definition _patrol (dt : Q) (self : Monster) : result Monster :=
  match MONSTER_PATROL_TYPE game_config with
  | linear =>
      let y := vy (monster_position self) in
      let target_a :=
        mkVec3 (patrol_start_x self) y (vz (monster_start_position self)) in
      let target_b :=
        mkVec3 (patrol_start_x self + MONSTER_PATROL_AMPLITUDE game_config)%Q
               y (vz (monster_start_position self)) in
      match target_position self with
      | None => Raise AttributeError
      | Some current =>
          let retarget :=
            match current with
            | None => true
            | Some t =>
                Qlt_bool (distance (monster_position self) t) (1 # 10)
            end in
          let target :=
            if retarget then
              match current with
              | Some t => if vec_eqb t target_a then target_b else target_a
              | None => target_a
              end
            else match current with Some t => t | None => target_a end in
          let direction_to_target :=
            normalized (vsub target (monster_position self)) in
          let position :=
            vadd (monster_position self)
                 (vscale (vscale direction_to_target (monster_speed self)) dt) in
          Ok (monster_with self position
                (look_at position (vadd position direction_to_target))
                (current_patrol_time self) (_attack_cooldown_timer self)
                (_attack_windup_timer self) (_is_winding_up_attack self)
                (target_for_attack self) (Some (Some target))
                (monster_color self))
      end
  | sine =>
      let patrol_time :=
        (current_patrol_time self
         + dt * MONSTER_PATROL_FREQUENCY game_config)%Q in
      let new_x :=
        (patrol_start_x self
         + sin patrol_time * MONSTER_PATROL_AMPLITUDE game_config)%Q in
      let old_x := vx (monster_position self) in
      let position :=
        mkVec3 new_x (vy (monster_position self))
               (vz (monster_start_position self)) in
      let ahead :=
        if Qlt_bool old_x new_x then mkVec3 1 0 0 else mkVec3 (-1) 0 0 in
      Ok (monster_with self position (look_at position (vadd position ahead))
            patrol_time (_attack_cooldown_timer self)
            (_attack_windup_timer self) (_is_winding_up_attack self)
            (target_for_attack self) (target_position self)
            (monster_color self))
  end.

(** [Monster.update]: [game] is read, [dt] is [time.dt]; the result is the
    monster after the tick and the projectiles spawned during it. *)
Definition Monster_update (game : Game) (dt : Q) (self : Monster)
    : result (Monster * list MonsterProjectile) :=
  if negb (GameState_eqb (current_state game) PLAYING) then Ok (self, [])
  else if _is_winding_up_attack self then
    let windup := (_attack_windup_timer self - dt)%Q in
    let self :=
      monster_with self (monster_position self) (monster_rotation self)
        (current_patrol_time self) (_attack_cooldown_timer self) windup
        (_is_winding_up_attack self) (target_for_attack self)
        (target_position self) (monster_color self) in
    if Qle_bool windup 0 then
      let '(self, shots) := _execute_attack self in
      Ok (monster_with self (monster_position self) (monster_rotation self)
            (current_patrol_time self)
            (MONSTER_ATTACK_COOLDOWN game_config)
            (_attack_windup_timer self) false (target_for_attack self)
            (target_position self) (COLOR_MONSTER game_config),
          shots)
    else
      match available_player game with
      | Some p =>
          Ok (monster_with self (monster_position self)
                (look_at (monster_position self) (player_position p))
                (current_patrol_time self) (_attack_cooldown_timer self)
                (_attack_windup_timer self) (_is_winding_up_attack self)
                (target_for_attack self) (target_position self)
                (monster_color self),
              [])
      | None => Ok (self, [])
      end
  else
    let cooldown := (_attack_cooldown_timer self - dt)%Q in
    let self :=
      monster_with self (monster_position self) (monster_rotation self)
        (current_patrol_time self) cooldown (_attack_windup_timer self)
        (_is_winding_up_attack self) (target_for_attack self)
        (target_position self) (monster_color self) in
    let player_in_range :=
      match available_player game with
      | Some p =>
          Qlt_bool (distance (monster_position self) (player_position p))
                   (MONSTER_VISION_RANGE game_config)
      | None => false
      end in
    if player_in_range && Qle_bool cooldown 0 then
      let self := _start_attack_windup game self in
      Ok (monster_with self (monster_position self) (monster_rotation self)
            (current_patrol_time self) (_attack_cooldown_timer self)
            (_attack_windup_timer self) (_is_winding_up_attack self)
            (target_for_attack self) (target_position self)
            (COLOR_MONSTER_ATTACK_CUE game_config),
          [])
    else if player_in_range then
      self <- _chase_player game dt self ;; Ok (self, [])
    else
      self <- _patrol dt self ;; Ok (self, []).

(** *** Game state machine *)

Definition game_with (game : Game) (st : GameState) (p : option Player)
    (gl : option Goal) (m : option Monster) (mg : TerrainMazeGenerator)
    (ui : UIManager) (ps : list MonsterProjectile) : Game :=
  {| current_state := st; player := p; goal := gl; monster := m;
     maze_generator := mg; ui_manager := ui; projectiles := ps;
     app_running := app_running game |}.

Definition goal_set_enabled (gl : Goal) (b : bool) : Goal :=
  {| goal_position := goal_position gl; goal_enabled := b;
     goal_visible := goal_visible gl |}.

Definition mesh_set_enabled (mg : TerrainMazeGenerator) (b : bool)
    : TerrainMazeGenerator :=
  set_mesh_entity mg
    (option_map (fun e => {| mesh_model := mesh_model e; mesh_enabled := b |})
                (mesh_entity mg)).

(** The entities of [game_entities] are the player, goal and monster that
    exist; each loop over that list is an update of the three fields. *)
Definition _activate_gameplay_entities (game : Game) : Game :=
  game_with game (current_state game)
    (option_map (fun p => player_set_enabled p true) (player game))
    (option_map (fun gl => goal_set_enabled gl true) (goal game))
    (option_map (fun m => monster_set_enabled m true) (monster game))
    (mesh_set_enabled (maze_generator game) true)
    (ui_manager game) (projectiles game).

Definition _deactivate_gameplay_entities (exclude_player : bool)
    (game : Game) : Game :=
  game_with game (current_state game)
    (if exclude_player then player game
     else option_map (fun p => player_set_enabled p false) (player game))
    (option_map (fun gl => goal_set_enabled gl false) (goal game))
    (option_map (fun m => monster_set_enabled m false) (monster game))
    (maze_generator game) (ui_manager game) [].

Definition _unload_game_entities (game : Game) : Game :=
  game_with game (current_state game) None None None
    (clear_maze (maze_generator game)) (ui_manager game) [].

Definition set_ui (game : Game) (ui : UIManager) : Game :=
  game_with game (current_state game) (player game) (goal game)
    (monster game) (maze_generator game) ui (projectiles game).

Definition set_game_state (new_state : GameState) (game : Game) : Game :=
  if GameState_eqb (current_state game) new_state then game
  else
    let game :=
      game_with game new_state (player game) (goal game) (monster game)
        (maze_generator game) (hide_all_ui (ui_manager game))
        (projectiles game) in
    match new_state with
    | MENU =>
        let game := set_ui game (show_menu (ui_manager game)) in
        let game := _deactivate_gameplay_entities false game in
        _unload_game_entities game
    | PLAYING =>
        let game :=
          set_ui game (show_game_hud (hide_all_ui (ui_manager game))) in
        _activate_gameplay_entities game
    | PAUSED =>
        let game := set_ui game (show_pause_menu (ui_manager game)) in
        _deactivate_gameplay_entities true game
    | WIN | LOSE =>
        let game :=
          set_ui game
            (show_game_over_screen (ui_manager game)
               (GameState_eqb new_state WIN)) in
        _deactivate_gameplay_entities false game
    end.

(** [Player.take_damage], on [game.player]. *)
Definition take_damage (amount : Z) (game : Game) : Game :=
  match player game with
  | None => game
  | Some self =>
      if negb (is_invulnerable self) then
        let health := current_health self - amount in
        let hurt (inv : bool) (timer : Q) :=
          {| player_position := player_position self;
             player_rotation := player_rotation self;
             player_start_position := player_start_position self;
             player_enabled := player_enabled self;
             player_visible := player_visible self;
             max_health := max_health self;
             current_health := health;
             is_invulnerable := inv;
             _invulnerability_timer := timer |} in
        let game' (p : Player) :=
          game_with game (current_state game) (Some p) (goal game)
            (monster game) (maze_generator game)
            (update_health_display (ui_manager game) health)
            (projectiles game) in
        if health <=? 0 then
          set_game_state LOSE
            (game' (hurt (is_invulnerable self) (_invulnerability_timer self)))
        else
          game' (hurt true (PLAYER_HIT_INVULNERABILITY_TIME game_config))
      else game
  end.

Definition start_game (fuel : nat) (game : Game) (r : Rng)
    : result (Game * Rng) :=
  '(mg, r1) <- generate_random_maze game_config fuel (maze_generator game) r ;;
  player_grid_pos <- find_spawn_point (dimension mg) (maze_grid mg) ;;
  goal_grid_pos <- find_goal_point (dimension mg) (maze_grid mg) ;;
  '(monster_grid_pos, r2) <-
    find_monster_spawn_point (dimension mg) (maze_grid mg) r1 ;;
  let player_world_pos :=
    get_world_position game_config mg (fst player_grid_pos) (snd player_grid_pos) in
  let goal_world_pos :=
    get_world_position game_config mg (fst goal_grid_pos) (snd goal_grid_pos) in
  let monster_world_pos :=
    get_world_position game_config mg (fst monster_grid_pos)
      (snd monster_grid_pos) in
  let new_player :=
    match player game with
    | None => Player_init game_config player_world_pos
    | Some p =>
        Player_reset_state (player_set_start_position p player_world_pos)
    end in
  let ui :=
    match player game with
    | None => ui_manager game
    | Some _ =>
        update_health_display (ui_manager game) (current_health new_player)
    end in
  let new_goal :=
    match goal game with
    | None => Goal_init game_config goal_world_pos
    | Some _ =>
        {| goal_position := goal_world_pos; goal_enabled := true;
           goal_visible := true |}
    end in
  let new_monster :=
    match monster game with
    | None => Monster_init game_config monster_world_pos
    | Some m =>
        Monster_reset_state game_config
          (monster_set_start_position m monster_world_pos)
    end in
  Ok (set_game_state PLAYING
        (game_with game (current_state game) (Some new_player)
           (Some new_goal) (Some new_monster) mg ui (projectiles game)),
      r2).

Definition restart_game (fuel : nat) (game : Game) (r : Rng)
    : result (Game * Rng) :=
  start_game fuel game r.

Definition go_to_main_menu (game : Game) : Game := set_game_state MENU game.

Definition application_quit (game : Game) : Game :=
  {| current_state := current_state game; player := player game;
     goal := goal game; monster := monster game;
     maze_generator := maze_generator game; ui_manager := ui_manager game;
     projectiles := projectiles game; app_running := false |}.

(** [_handle_global_input('escape')] *)
Definition handle_escape (game : Game) : Game :=
  match current_state game with
  | PLAYING => set_game_state PAUSED game
  | PAUSED => set_game_state PLAYING game
  | WIN | LOSE => set_game_state MENU game
  | MENU => application_quit game
  end.

(** What the engine can deliver to the game: the button callbacks installed
    by [_setup_ui_callbacks], the escape key, the goal trigger and a
    projectile that intersects the player. *)
Inductive Event : Type :=
| ClickStart
| ClickExit
| ClickRestart
| ClickBackToMenu
| ClickResume
| ClickPauseToMenu
| KeyEscape
| GoalTriggered
| ProjectileHit.

Definition handle_event (fuel : nat) (ev : Event) (game : Game) (r : Rng)
    : result (Game * Rng) :=
  match ev with
  | ClickStart => start_game fuel game r
  | ClickExit => Ok (application_quit game, r)
  | ClickRestart => restart_game fuel game r
  | ClickBackToMenu => Ok (go_to_main_menu game, r)
  | ClickResume => Ok (set_game_state PLAYING game, r)
  | ClickPauseToMenu => Ok (go_to_main_menu game, r)
  | KeyEscape => Ok (handle_escape game, r)
  | GoalTriggered => Ok (set_game_state WIN game, r)
  | ProjectileHit =>
      match available_player game with
      | Some _ => Ok (take_damage (MONSTER_ATTACK_DAMAGE game_config) game, r)
      | None => Ok (game, r)
      end
  end.

Definition Game_init : Game :=
  {| current_state := MENU; player := None; goal := None; monster := None;
     maze_generator :=
       TerrainMazeGenerator_init (MAZE_DIMENSION game_config)
         (CELL_SIZE game_config) (MAZE_WALL_HEIGHT game_config)
         (MAZE_PATH_HEIGHT game_config);
     ui_manager := UIManager_init; projectiles := []; app_running := true |}.
End Behaviour.

Section Runs.
Context `{Engine}.
Variable game_config : GameConfig.

(** One frame of the player: the engine calls [update] on enabled
    entities. *)
Definition player_frame (dt : Q) (game : Game) : Game :=
  match player game with
  | Some p =>
      if player_enabled p then
        game_with game (current_state game) (Some (Player_update dt p))
          (goal game) (monster game) (maze_generator game) (ui_manager game)
          (projectiles game)
      else game
  | None => game
  end.

(** What happens to the player over time: damage events and frames. *)
Inductive PlayerEvent : Type :=
| Damage (amount : Z)
| Frame (dt : Q).

Fixpoint run_player_events (evs : list PlayerEvent) (game : Game) : Game :=
  match evs with
  | [] => game
  | Damage amount :: evs' =>
      run_player_events evs' (take_damage game_config amount game)
  | Frame dt :: evs' => run_player_events evs' (player_frame dt game)
  end.

Fixpoint elapsed (evs : list PlayerEvent) : Q :=
  match evs with
  | [] => 0
  | Damage _ :: evs' => elapsed evs'
  | Frame dt :: evs' => (dt + elapsed evs')%Q
  end.

Definition forward_in_time (e : PlayerEvent) : Prop :=
  match e with
  | Damage _ => True
  | Frame dt => (0 <= dt)%Q
  end.

Definition same_xz (a b : Vec3) : Prop := vx a = vx b /\ vz a = vz b.

(** [game'], [r'] are what [start_game] leaves: a maze generated from the
    random state [r], and the player, goal and monster placed at the three
    spawn points derived from that maze. *)
Definition regenerated (fuel : nat) (game : Game) (r : Rng)
    (game' : Game) (r' : Rng) : Prop :=
  exists mg r1 p q c,
    generate_random_maze game_config fuel (maze_generator game) r
    = Ok (mg, r1) /\
    find_spawn_point (dimension mg) (maze_grid mg) = Ok p /\
    find_goal_point (dimension mg) (maze_grid mg) = Ok q /\
    find_monster_spawn_point (dimension mg) (maze_grid mg) r1 = Ok (c, r') /\
    maze_grid (maze_generator game') = maze_grid mg /\
    (exists pl, player game' = Some pl /\
       player_start_position pl
       = get_world_position game_config mg (fst p) (snd p) /\
       player_position pl = player_start_position pl) /\
    (exists gl, goal game' = Some gl /\
       same_xz (goal_position gl)
         (get_world_position game_config mg (fst q) (snd q))) /\
    (exists mo, monster game' = Some mo /\
       monster_start_position mo
       = get_world_position game_config mg (fst c) (snd c)).

(** Nothing of the maze or of the placement changed. *)
Definition maze_kept (game : Game) (r : Rng) (game' : Game) (r' : Rng)
    : Prop :=
  r' = r /\
  maze_grid (maze_generator game') = maze_grid (maze_generator game) /\
  option_map player_start_position (player game')
  = option_map player_start_position (player game) /\
  option_map goal_position (goal game')
  = option_map goal_position (goal game) /\
  option_map monster_start_position (monster game')
  = option_map monster_start_position (monster game).

(** While it winds up, a monster holds the target it will shoot at. *)
Definition winding_has_target (m : Monster) : Prop :=
  _is_winding_up_attack m = true -> exists t, target_for_attack m = Some t.
End Runs.

(** ** A concrete engine

    An interpretation of the engine primitives on which the definitions can
    be run: an orientation is the vector from the entity to the point it
    looks at, vectors are left unscaled by [normalized], and distances are
    Manhattan distances. *)
Definition sample_engine : Engine :=
  {| Rotation := Vec3;
     rotation_zero := mkVec3 0 0 1;
     look_at := fun pos target => vsub target pos;
     forward := fun r => r;
     normalized := fun v => v;
     distance := fun a b =>
       (Qabs (vx a - vx b) + Qabs (vy a - vy b) + Qabs (vz a - vz b))%Q;
     sin := fun _ => 0%Q |}.

(** A game in progress on the sample engine, around a given player and
    monster. *)
Definition sample_game (p : option (Player (H := sample_engine)))
    (m : option (Monster (H := sample_engine))) : Game (H := sample_engine) :=
  {| current_state := PLAYING; player := p; goal := None; monster := m;
     maze_generator := TerrainMazeGenerator_init 21 1 1 0;
     ui_manager := UIManager_init; projectiles := []; app_running := true |}.

Definition sample_player : Player (H := sample_engine) :=
  Player_init (H := sample_engine) GameConfig_init (mkVec3 0 (1 # 2) 0).

(** The sample player just after a hit. *)
Definition hurt_player : Player (H := sample_engine) :=
  {| player_position := mkVec3 0 (1 # 2) 0;
     player_rotation := @rotation_zero sample_engine;
     player_start_position := mkVec3 0 (1 # 2) 0;
     player_enabled := true; player_visible := true;
     max_health := 3; current_health := 2;
     is_invulnerable := true; _invulnerability_timer := 1 |}.

(** A monster in the middle of its wind-up: the target was stored when the
    player stood at (3, 1/2, 0). *)
Definition winding_monster : Monster (H := sample_engine) :=
  {| monster_position := mkVec3 0 (3 # 4) 0;
     monster_rotation := @rotation_zero sample_engine;
     monster_start_position := mkVec3 0 (1 # 2) 0;
     monster_speed := 5 # 2;
     current_patrol_time := 0;
     patrol_start_x := 0;
     _attack_cooldown_timer := - (1 # 2);
     _attack_windup_timer := 1;
     _is_winding_up_attack := true;
     target_for_attack := Some (mkVec3 3 (1 # 2) 0);
     target_position := Some None;
     monster_color := yellow;
     monster_enabled := true;
     monster_visible := true;
     scale_x := 6 # 5;
     scale_y := 3 # 2 |}.

(** The player has since moved to (0, 1/2, 4). *)
Definition moved_player : Player (H := sample_engine) :=
  {| player_position := mkVec3 0 (1 # 2) 4;
     player_rotation := @rotation_zero sample_engine;
     player_start_position := mkVec3 0 (1 # 2) 0;
     player_enabled := true; player_visible := true;
     max_health := 3; current_health := 3;
     is_invulnerable := false; _invulnerability_timer := 0 |}.

(** A monster away from the origin that is not winding up and whose
    cooldown has run out. *)
Definition idle_monster : Monster (H := sample_engine) :=
  {| monster_position := mkVec3 5 (3 # 4) 0;
     monster_rotation := @rotation_zero sample_engine;
     monster_start_position := mkVec3 5 (1 # 2) 0;
     monster_speed := 5 # 2;
     current_patrol_time := 0;
     patrol_start_x := 5;
     _attack_cooldown_timer := 0;
     _attack_windup_timer := 0;
     _is_winding_up_attack := false;
     target_for_attack := None;
     target_position := Some None;
     monster_color := red;
     monster_enabled := true;
     monster_visible := true;
     scale_x := 6 # 5;
     scale_y := 3 # 2 |}.

(** "A point along the forward direction from the position". *)
Definition ahead_of (position fwd target : Vec3) : Prop :=
  exists k : Q,
    (vx target == vx position + vx fwd * k)%Q /\
    (vy target == vy position + vy fwd * k)%Q /\
    (vz target == vz position + vz fwd * k)%Q.

(** A small configuration, and a game on it that was started and then
    paused with the escape key. *)
Definition small_config : GameConfig := set_MAZE_DIMENSION GameConfig_init 5.

Definition paused_game : Game (H := sample_engine) :=
  match start_game (H := sample_engine) small_config 25
          (Game_init (H := sample_engine) small_config)
          [3%nat; 1%nat; 4%nat; 1%nat; 5%nat] with
  | Ok (game, _) => handle_escape (H := sample_engine) game
  | _ => Game_init (H := sample_engine) small_config
  end.

(** A generated maze of dimension 5, with the random state it leaves. *)
Definition generated_sample : TerrainMazeGenerator * Rng :=
  match generate_random_maze GameConfig_init 25
          (TerrainMazeGenerator_init 5 1 1 0) [1%nat; 0%nat; 2%nat] with
  | Ok res => res
  | _ => (TerrainMazeGenerator_init 5 1 1 0, [])
  end.

(** ** Vocabulary of the maze properties *)

(** A cell is Path when [_is_valid_grid_pos] answers [True] for it; it is
    Wall when the grid holds 1 there. *)
Definition is_path (D : Z) (g : Grid) (c : Z * Z) : bool :=
  match _is_valid_grid_pos D g (fst c) (snd c) with
  | Ok true => true
  | _ => false
  end.

Definition is_wall_cell (g : Grid) (c : Z * Z) : bool :=
  match grid_get g (snd c) (fst c) with
  | Ok v => v =? 1
  | _ => false
  end.

Definition interior (D : Z) (c : Z * Z) : Prop :=
  1 <= fst c <= D - 2 /\ 1 <= snd c <= D - 2.

Definition cells (D : Z) : list (Z * Z) :=
  flat_map (fun y => map (fun x => (x, y)) (py_range 0 D)) (py_range 0 D).

Fixpoint count {A} (p : A -> bool) (l : list A) : nat :=
  match l with
  | [] => O
  | a :: l' => ((if p a then 1 else 0) + count p l')%nat
  end.

Definition path_count (D : Z) (g : Grid) : nat :=
  count (is_path D g) (cells D).

Definition right_of (c : Z * Z) : Z * Z := (fst c + 1, snd c).
Definition below (c : Z * Z) : Z * Z := (fst c, snd c + 1).

(** Number of unordered pairs of orthogonally adjacent Path cells: every
    pair is counted once, at its left or upper member. *)
Definition adjacent_path_pairs (D : Z) (g : Grid) : nat :=
  (count (fun c => is_path D g c && is_path D g (right_of c)) (cells D)
   + count (fun c => is_path D g c && is_path D g (below c)) (cells D))%nat.

Definition adjacent (a b : Z * Z) : Prop :=
  Z.abs (fst a - fst b) + Z.abs (snd a - snd b) = 1.

(** [reachable D g a b]: [b] is reached from [a] by steps between
    orthogonally adjacent Path cells. *)
Inductive reachable (D : Z) (g : Grid) : Z * Z -> Z * Z -> Prop :=
| reach_here a : is_path D g a = true -> reachable D g a a
| reach_step a b c :
    reachable D g a b -> adjacent b c -> is_path D g c = true ->
    reachable D g a c.

(** A perfect maze rooted at [s]. *)
Definition perfect_maze (D : Z) (g : Grid) (s : Z * Z) : Prop :=
  is_path D g s = true /\
  (forall c, is_path D g c = true -> reachable D g s c) /\
  (adjacent_path_pairs D g + 1 = path_count D g)%nat.

(** Shape of a [D] by [D] grid and a total reading of its cells. *)
Definition shape (D : Z) (g : Grid) : Prop :=
  length g = Z.to_nat D /\ Forall (fun row => length row = Z.to_nat D) g.

Definition cellv (g : Grid) (x y : Z) : Z :=
  match g !! Z.to_nat y with
  | Some row => match row !! Z.to_nat x with Some v => v | None => 1 end
  | None => 1
  end.

Definition inb (D x : Z) : bool := (0 <=? x) && (x <? D).

Definition cell_eqb (a b : Z * Z) : bool :=
  (fst a =? fst b) && (snd a =? snd b).

Definition b2n (b : bool) : nat := if b then 1%nat else 0%nat.

(** The grid after [maze_grid[y][x] = v]. *)
Definition gset (g : Grid) (x y v : Z) : Grid :=
  match g !! Z.to_nat y with
  | Some row => <[Z.to_nat y := <[Z.to_nat x := v]> row]> g
  | None => g
  end.

(** The invariant of the carving, for the start cell [s]. *)
Record carve_inv (D : Z) (s : Z * Z) (g : Grid) : Prop := {
  ci_shape : shape D g;
  ci_bin : forall x y, 0 <= x < D -> 0 <= y < D ->
      cellv g x y = 0 \/ cellv g x y = 1;
  ci_room : forall x y, 0 <= x < D -> 0 <= y < D -> cellv g x y = 0 ->
      1 <= x <= D - 2 /\ 1 <= y <= D - 2 /\
      (Z.odd x = true \/ Z.odd y = true);
  ci_corr_x : forall x y, 0 <= x < D -> 0 <= y < D -> cellv g x y = 0 ->
      Z.odd x = false -> cellv g (x - 1) y = 0 /\ cellv g (x + 1) y = 0;
  ci_corr_y : forall x y, 0 <= x < D -> 0 <= y < D -> cellv g x y = 0 ->
      Z.odd y = false -> cellv g x (y - 1) = 0 /\ cellv g x (y + 1) = 0;
  ci_count : (adjacent_path_pairs D g + 1 = path_count D g)%nat;
  ci_start : is_path D g s = true;
  ci_reach : forall c, is_path D g c = true -> reachable D g s c
}.

(** What a call of the carving function achieves, for a recursion budget
    measured against the cells that are still Wall. *)
Definition carve_spec (D : Z) (s : Z * Z)
    (rec : Grid -> Rng -> Z -> Z -> result (Grid * Rng)) (budget : nat) : Prop :=
  forall g r x y,
    shape D g -> carve_inv D s (gset g x y 0) ->
    1 <= x <= D - 2 -> 1 <= y <= D - 2 ->
    Z.odd x = true -> Z.odd y = true ->
    (length (cells D) < budget + path_count D (gset g x y 0))%nat ->
    exists g' r',
      rec g r x y = Ok (g', r') /\ carve_inv D s g' /\
      (forall c, is_path D (gset g x y 0) c = true -> is_path D g' c = true) /\
      (path_count D (gset g x y 0) <= path_count D g')%nat.

(** The neighbour of a cell across a side of the mesh, and the edge of the
    grid on that side.  Cells are written [(x, z)]. *)
Definition neighbour (f : Face) (c : Z * Z) : Z * Z :=
  match f with
  | Top => c
  | North => (fst c, snd c + 1)
  | South => (fst c, snd c - 1)
  | East => (fst c + 1, snd c)
  | West => (fst c - 1, snd c)
  end.

Definition on_edge (D : Z) (f : Face) (c : Z * Z) : bool :=
  match f with
  | Top => false
  | North => snd c =? D - 1
  | South => snd c =? 0
  | East => fst c =? D - 1
  | West => fst c =? 0
  end.

Definition exposed (D : Z) (g : Grid) (f : Face) (c : Z * Z) : bool :=
  on_edge D f c || is_path D g (neighbour f c).

Definition emits (qs : list Quad) (f : Face) : Prop :=
  exists q, In q qs /\ quad_face q = f.

Definition side_face (e w : bool) (f : Face) : list Face :=
  if e && w then [f] else [].


(** [p] is what a scan of the interior returns: the first interior Path
    cell in the order given by [before] on rows and on columns, or the
    fallback when the interior has no Path cell. *)
Definition first_path (before : Z -> Z -> Prop) (fallback : Z * Z)
    (D : Z) (g : Grid) (p : Z * Z) : Prop :=
  (interior D p /\ is_path D g p = true /\
   forall c, interior D c -> is_path D g c = true ->
     before (snd p) (snd c) \/
     (snd p = snd c /\ (fst p = fst c \/ before (fst p) (fst c))))
  \/
  ((forall c, interior D c -> is_path D g c = false) /\ p = fallback).

Definition manhattan (a b : Z * Z) : Z :=
  Z.abs (fst a - fst b) + Z.abs (snd a - snd b).



(** ** Vocabulary of the further properties *)

(** The rooms of the maze: interior cells with two odd coordinates. *)
Definition room (D : Z) (c : Z * Z) : Prop :=
  interior D c /\ Z.odd (fst c) = true /\ Z.odd (snd c) = true.

(** Every room two steps away from [c] inside the border is a Path cell. *)
Definition room_closed (D : Z) (g : Grid) (c : Z * Z) : Prop :=
  forall dx dy,
    In (dx, dy) directions ->
    0 < fst c + dx * 2 < D - 1 -> 0 < snd c + dy * 2 < D - 1 ->
    is_path D g (fst c + dx * 2, snd c + dy * 2) = true.

(** What a call of the carving function adds to the grid: every room that
    is Path afterwards and was not before is closed. *)
Definition news_closed (D : Z) (g g' : Grid) : Prop :=
  forall c, room D c -> is_path D g' c = true ->
    is_path D g c = true \/ room_closed D g' c.

Definition span_spec (D : Z) (s : Z * Z)
    (rec : Grid -> Rng -> Z -> Z -> result (Grid * Rng)) (budget : nat)
    : Prop :=
  forall g r x y g' r',
    shape D g -> carve_inv D s (gset g x y 0) ->
    1 <= x <= D - 2 -> 1 <= y <= D - 2 ->
    Z.odd x = true -> Z.odd y = true ->
    (length (cells D) < budget + path_count D (gset g x y 0))%nat ->
    rec g r x y = Ok (g', r') -> news_closed D g g'.



(** ** The monster spawn search, sample by sample *)

(** The cells of the first [n] samples of [find_monster_spawn_point], in the
    order they are drawn (two [randint(1, D - 2)] each), and the random state
    after them. *)
Fixpoint monster_samples (n : nat) (D : Z) (r : Rng)
    : result (list (Z * Z) * Rng) :=
  match n with
  | O => Ok ([], r)
  | S n' =>
      '(x, r1) <- randint 1 (D - 2) r ;;
      '(y, r2) <- randint 1 (D - 2) r1 ;;
      '(cs, r') <- monster_samples n' D r2 ;;
      Ok ((x, y) :: cs, r')
  end.

(** A cell the search accepts: an interior Path cell whose Manhattan
    distances to the results of [find_spawn_point] and [find_goal_point]
    both exceed D / 4. *)
Definition qualifies (D : Z) (g : Grid) (c : Z * Z) : Prop :=
  interior D c /\ is_path D g c = true /\
  exists p q,
    find_spawn_point D g = Ok p /\ find_goal_point D g = Ok q /\
    (inject_Z D / 4 < inject_Z (manhattan c p))%Q /\
    (inject_Z D / 4 < inject_Z (manhattan c q))%Q.

(** A grid of dimension 5 whose nine interior cells are all Path. *)
Definition open_grid : Grid :=
  [[1; 1; 1; 1; 1]; [1; 0; 0; 0; 1]; [1; 0; 0; 0; 1]; [1; 0; 0; 0; 1];
   [1; 1; 1; 1; 1]].

(** ** The game driven by the engine *)

Section Delivery.
Context `{Engine}.
Variable game_config : GameConfig.

(** A click reaches a button's [on_click] only while the button is enabled;
    [UIManager] enables and disables the buttons in groups.  The escape key,
    the goal trigger and a projectile hit do not pass through a button. *)
Definition button_enabled (ui : UIManager) (ev : Event) : bool :=
  match ev with
  | ClickStart | ClickExit => menu_enabled ui
  | ClickRestart | ClickBackToMenu => game_over_buttons_enabled ui
  | ClickResume | ClickPauseToMenu => pause_menu_enabled ui
  | KeyEscape | GoalTriggered | ProjectileHit => true
  end.

Definition deliver (fuel : nat) (ev : Event) (game : Game) (r : Rng)
    : result (Game * Rng) :=
  if button_enabled (ui_manager game) ev
  then handle_event game_config fuel ev game r
  else Ok (game, r).

(** One frame of the monster: the engine calls [update] on enabled
    entities, and the projectiles created during it join the scene. *)
Definition monster_frame (dt : Q) (game : Game) : result Game :=
  match monster game with
  | Some m =>
      if monster_enabled m then
        '(m', shots) <- Monster_update game_config game dt m ;;
        Ok (game_with game (current_state game) (player game) (goal game)
              (Some m') (maze_generator game) (ui_manager game)
              (projectiles game ++ shots))
      else Ok game
  | None => Ok game
  end.

(** What happens to a running game: an event is delivered, or the engine
    runs a frame of the player or of the monster. *)
Inductive GameStep : Type :=
| Input (ev : Event)
| PlayerTick (dt : Q)
| MonsterTick (dt : Q).

Definition game_step (fuel : nat) (s : GameStep) (game : Game) (r : Rng)
    : result (Game * Rng) :=
  match s with
  | Input ev => deliver fuel ev game r
  | PlayerTick dt => Ok (player_frame dt game, r)
  | MonsterTick dt => game' <- monster_frame dt game ;; Ok (game', r)
  end.

Fixpoint run_game (fuel : nat) (steps : list GameStep) (game : Game)
    (r : Rng) : result (Game * Rng) :=
  match steps with
  | [] => Ok (game, r)
  | s :: steps' =>
      '(game', r') <- game_step fuel s game r ;;
      run_game fuel steps' game' r'
  end.

(** The player, the goal, the monster and the maze mesh are enabled and
    the HUD is shown. *)
Definition entities_enabled (game : Game) : Prop :=
  (forall p, player game = Some p -> player_enabled p = true) /\
  (forall gl, goal game = Some gl -> goal_enabled gl = true) /\
  (forall m, monster game = Some m -> monster_enabled m = true) /\
  (forall e, mesh_entity (maze_generator game) = Some e ->
     mesh_enabled e = true) /\
  hud_enabled (ui_manager game) = true.

(** The three entities exist; the goal and the monster have the given
    enabled flag, the player is enabled. *)
Definition entities_exist (active : bool) (game : Game) : Prop :=
  exists p gl m,
    player game = Some p /\ player_enabled p = true /\
    goal game = Some gl /\ goal_enabled gl = active /\
    monster game = Some m /\ monster_enabled m = active.

(** The widgets shown are those of the current state, and while the game is
    played or paused its entities exist, the goal and the monster being
    disabled during the pause. *)
Record game_inv (game : Game) : Prop := {
  gi_menu :
    menu_enabled (ui_manager game) = GameState_eqb (current_state game) MENU;
  gi_pause :
    pause_menu_enabled (ui_manager game)
    = GameState_eqb (current_state game) PAUSED;
  gi_over :
    game_over_buttons_enabled (ui_manager game)
    = GameState_eqb (current_state game) WIN
      || GameState_eqb (current_state game) LOSE;
  gi_playing : current_state game = PLAYING -> entities_exist true game;
  gi_paused : current_state game = PAUSED -> entities_exist false game
}.
End Delivery.

(** * Verification *)

(** ** Lists, ranges and counting *)

Lemma rbind_ok {A B} (m : result A) (k : A -> result B) b :
  rbind m k = Ok b -> exists a, m = Ok a /\ k a = Ok b.
Proof. destruct m; simpl; intros H; try discriminate. eauto. Qed.

Lemma in_py_range a b x : In x (py_range a b) <-> a <= x < b.
Proof.
  unfold py_range. rewrite in_map_iff. split.
  - intros (i & <- & Hi). apply in_seq in Hi. lia.
  - intros H. exists (Z.to_nat (x - a)). split; [lia|]. apply in_seq. lia.
Qed.

Lemma length_py_range a b : length (py_range a b) = Z.to_nat (b - a).
Proof. unfold py_range. now rewrite length_map, length_seq. Qed.

Lemma NoDup_py_range a b : List.NoDup (py_range a b).
Proof.
  unfold py_range. apply Finite.Injective_map_NoDup.
  - intros i j H. lia.
  - apply seq_NoDup.
Qed.

Lemma in_cells D c : In c (cells D) <-> 0 <= fst c < D /\ 0 <= snd c < D.
Proof.
  unfold cells. rewrite in_flat_map. split.
  - intros (y & Hy & Hc). apply in_map_iff in Hc as (x & <- & Hx).
    apply in_py_range in Hy, Hx. simpl. lia.
  - intros [Hx Hy]. exists (snd c). split; [apply in_py_range; lia|].
    apply in_map_iff. exists (fst c). split; [now destruct c|].
    apply in_py_range; lia.
Qed.

Lemma NoDup_flat_map_rows (ys xs : list Z) :
  List.NoDup ys -> List.NoDup xs ->
  List.NoDup (flat_map (fun y => map (fun x => (x, y)) xs) ys).
Proof.
  intros Hys Hxs. induction Hys as [|y ys Hy Hys IH]; simpl.
  - constructor.
  - apply List.NoDup_app.
    + apply Finite.Injective_map_NoDup; [|assumption].
      intros a b H. now inversion H.
    + exact IH.
    + intros c Hc1 Hc2. apply in_map_iff in Hc1 as (x & <- & _).
      apply in_flat_map in Hc2 as (y' & Hy' & Hc2).
      apply in_map_iff in Hc2 as (x' & Heq & _). inversion Heq; subst.
      contradiction.
Qed.

Lemma NoDup_cells D : List.NoDup (cells D).
Proof. apply NoDup_flat_map_rows; apply NoDup_py_range. Qed.

Lemma count_ext {A} (p q : A -> bool) l :
  (forall a, In a l -> p a = q a) -> count p l = count q l.
Proof.
  induction l as [|a l IH]; simpl; intros H; [reflexivity|].
  rewrite (H a) by now left. rewrite IH; [reflexivity|].
  intros b Hb. apply H. now right.
Qed.

Lemma count_le_length {A} (p : A -> bool) l : (count p l <= length l)%nat.
Proof. induction l as [|a l IH]; simpl; [lia|]. destruct (p a); lia. Qed.

Lemma count_false {A} (p : A -> bool) l :
  (forall a, In a l -> p a = false) -> count p l = O.
Proof.
  induction l as [|a l IH]; simpl; intros H; [reflexivity|].
  rewrite (H a) by now left. rewrite IH; [reflexivity|].
  intros b Hb. apply H. now right.
Qed.

(** A predicate that is the disjoint union of two others counts their sum. *)
Lemma count_split {A} (q p r : A -> bool) l :
  (forall a, In a l -> q a = p a || r a) ->
  (forall a, In a l -> p a = true -> r a = false) ->
  count q l = (count p l + count r l)%nat.
Proof.
  induction l as [|a l IH]; simpl; intros Hq Hd; [reflexivity|].
  rewrite IH.
  - rewrite (Hq a) by now left.
    destruct (p a) eqn:Hp; simpl.
    + rewrite (Hd a) by (now left || assumption). lia.
    + destruct (r a); lia.
  - intros b Hb. apply Hq. now right.
  - intros b Hb. apply Hd. now right.
Qed.

Lemma cell_eqb_eq a b : cell_eqb a b = true <-> a = b.
Proof.
  unfold cell_eqb. destruct a, b; simpl.
  rewrite andb_true_iff, !Z.eqb_eq. split; [intros []; congruence|].
  intros H; inversion H; auto.
Qed.

Lemma cell_eqb_refl a : cell_eqb a a = true.
Proof. now apply cell_eqb_eq. Qed.

Lemma cell_eqb_neq a b : a <> b -> cell_eqb a b = false.
Proof.
  intros H. destruct (cell_eqb a b) eqn:E; [|reflexivity].
  apply cell_eqb_eq in E. contradiction.
Qed.

(** In a duplicate-free list exactly one element equals a given member. *)
Lemma count_single l (a : Z * Z) :
  List.NoDup l -> In a l -> count (fun c => cell_eqb c a) l = 1%nat.
Proof.
  intros Hnd. induction Hnd as [|b l Hb Hnd IH]; simpl; intros Hin.
  - contradiction.
  - destruct Hin as [-> | Hin].
    + rewrite cell_eqb_refl. rewrite count_false; [reflexivity|].
      intros c Hc. apply cell_eqb_neq. intros ->. contradiction.
    + rewrite cell_eqb_neq by (intros ->; contradiction).
      now rewrite IH.
Qed.

Lemma count_guarded l (a : Z * Z) (b : bool) :
  List.NoDup l -> In a l ->
  count (fun c => cell_eqb c a && b) l = b2n b.
Proof.
  intros Hnd Hin. destruct b; simpl.
  - rewrite (count_ext _ (fun c => cell_eqb c a)).
    + now apply count_single.
    + intros c _. now rewrite andb_true_r.
  - apply count_false. intros c _. now rewrite andb_false_r.
Qed.

(** ** Reading and writing a well-shaped grid *)

Lemma py_index_in_range {A} (l : list A) i :
  0 <= i < Z.of_nat (length l) -> py_index l i = Ok (Z.to_nat i).
Proof.
  intros H. unfold py_index.
  destruct (i <? 0) eqn:E; [lia|].
  replace ((0 <=? i) && (i <? Z.of_nat (length l))) with true; [reflexivity|].
  symmetry. apply andb_true_iff. split; [apply Z.leb_le | apply Z.ltb_lt]; lia.
Qed.

Lemma shape_row D g y :
  shape D g -> 0 <= y < D ->
  exists row, g !! Z.to_nat y = Some row /\ length row = Z.to_nat D.
Proof.
  intros [Hl Hr] Hy.
  destruct (g !! Z.to_nat y) as [row|] eqn:E.
  - exists row. split; [reflexivity|].
    rewrite Forall_lookup in Hr. eapply Hr; eauto.
  - apply lookup_ge_None in E. lia.
Qed.

Lemma grid_get_ok D g x y :
  shape D g -> 0 <= x < D -> 0 <= y < D ->
  grid_get g y x = Ok (cellv g x y).
Proof.
  intros Hs Hx Hy. destruct (shape_row D g y Hs Hy) as (row & Hrow & Hlen).
  unfold grid_get, py_getitem, cellv.
  rewrite py_index_in_range by (destruct Hs; lia). cbn [rbind].
  rewrite Hrow. cbn [rbind]. rewrite py_index_in_range by lia. cbn [rbind].
  destruct (row !! Z.to_nat x) eqn:E; [reflexivity|].
  apply lookup_ge_None in E. lia.
Qed.

Lemma grid_set_ok D g x y v :
  shape D g -> 0 <= x < D -> 0 <= y < D ->
  grid_set g y x v = Ok (gset g x y v).
Proof.
  intros Hs Hx Hy. destruct (shape_row D g y Hs Hy) as (row & Hrow & Hlen).
  unfold grid_set, py_getitem, py_setitem, gset.
  rewrite py_index_in_range by (destruct Hs; lia). cbn [rbind].
  rewrite Hrow. cbn [rbind]. rewrite py_index_in_range by lia. cbn [rbind].
  reflexivity.
Qed.

Lemma gset_shape D g x y v : shape D g -> shape D (gset g x y v).
Proof.
  intros [Hl Hr]. unfold gset.
  destruct (g !! Z.to_nat y) as [row|] eqn:E; [|now split].
  split.
  - now rewrite length_insert.
  - apply Forall_insert; [assumption|]. rewrite length_insert.
    rewrite Forall_lookup in Hr. eapply Hr; eauto.
Qed.

Lemma cellv_gset D g x y v x' y' :
  shape D g -> 0 <= x < D -> 0 <= y < D -> 0 <= x' < D -> 0 <= y' < D ->
  cellv (gset g x y v) x' y' =
  if cell_eqb (x', y') (x, y) then v else cellv g x' y'.
Proof.
  intros Hs Hx Hy Hx' Hy'.
  destruct (shape_row D g y Hs Hy) as (row & Hrow & Hlen).
  unfold gset, cellv, cell_eqb. rewrite Hrow. simpl.
  destruct (Z.eqb_spec y' y) as [->|Hne].
  - rewrite list_lookup_insert_eq by (destruct Hs; lia). rewrite Hrow.
    destruct (Z.eqb_spec x' x) as [->|Hnx]; simpl.
    + now rewrite list_lookup_insert_eq by lia.
    + now rewrite list_lookup_insert_ne by lia.
  - rewrite andb_false_r. now rewrite list_lookup_insert_ne by lia.
Qed.

Lemma is_path_spec D g c :
  shape D g ->
  is_path D g c = inb D (fst c) && inb D (snd c) && (cellv g (fst c) (snd c) =? 0).
Proof.
  intros Hs. unfold is_path, _is_valid_grid_pos, inb.
  destruct ((0 <=? fst c) && (fst c <? D)) eqn:Ex; [|reflexivity].
  destruct ((0 <=? snd c) && (snd c <? D)) eqn:Ey; [|reflexivity].
  rewrite (grid_get_ok D) by (assumption || lia). simpl.
  now destruct (cellv g (fst c) (snd c) =? 0).
Qed.

Lemma is_path_iff D g x y :
  shape D g ->
  is_path D g (x, y) = true <-> 0 <= x < D /\ 0 <= y < D /\ cellv g x y = 0.
Proof.
  intros Hs. rewrite is_path_spec by assumption. unfold inb. simpl.
  rewrite !andb_true_iff, Z.eqb_eq. lia.
Qed.

Lemma is_path_gset D g x y c :
  shape D g -> 0 <= x < D -> 0 <= y < D ->
  is_path D (gset g x y 0) c = is_path D g c || cell_eqb c (x, y).
Proof.
  intros Hs Hx Hy. rewrite !is_path_spec by auto using gset_shape.
  unfold inb. destruct c as [x' y']; simpl.
  destruct ((0 <=? x') && (x' <? D)) eqn:Ex; simpl.
  - destruct ((0 <=? y') && (y' <? D)) eqn:Ey; simpl.
    + rewrite (cellv_gset D) by (assumption || lia).
      now destruct (cell_eqb (x', y') (x, y)); simpl; rewrite ?orb_true_r, ?orb_false_r.
    + unfold cell_eqb; simpl. destruct (Z.eqb_spec y' y); [lia|].
      now rewrite andb_false_r.
    - unfold cell_eqb; simpl. destruct (Z.eqb_spec x' x); [lia|]. reflexivity.
Qed.

(** ** How carving one cell changes the counts *)

Lemma path_count_gset D g x y :
  shape D g -> 0 <= x < D -> 0 <= y < D -> is_path D g (x, y) = false ->
  path_count D (gset g x y 0) = S (path_count D g).
Proof.
  intros Hs Hx Hy Hw. unfold path_count.
  rewrite (count_split _ (is_path D g) (fun c => cell_eqb c (x, y))).
  - rewrite count_single; [lia | apply NoDup_cells | apply in_cells; simpl; lia].
  - intros c _. now apply is_path_gset.
  - intros c _ Hc. apply cell_eqb_neq. intros ->. congruence.
Qed.

Section PairCount.
Variables (P P' : Z * Z -> bool) (sh pre : Z * Z -> Z * Z) (c0 : Z * Z).
Variable l : list (Z * Z).
Hypothesis Hsh : forall c, cell_eqb (sh c) c0 = cell_eqb c (pre c0).
Hypothesis Hne : pre c0 <> c0.
Hypothesis Hnd : List.NoDup l.
Hypothesis Hin0 : In c0 l.
Hypothesis Hin1 : In (pre c0) l.
Hypothesis HP0 : P c0 = false.
Hypothesis HP' : forall c, P' c = P c || cell_eqb c c0.

Lemma count_pairs_new_cell :
  count (fun c => P' c && P' (sh c)) l =
  (count (fun c => P c && P (sh c)) l + b2n (P (pre c0)) + b2n (P (sh c0)))%nat.
Proof.
  rewrite (count_split (fun c => P' c && P' (sh c))
             (fun c => P c && P (sh c))
             (fun c => cell_eqb c (pre c0) && P (pre c0)
                       || cell_eqb c c0 && P (sh c0))).
  - rewrite (count_split
               (fun c => cell_eqb c (pre c0) && P (pre c0)
                         || cell_eqb c c0 && P (sh c0))
               (fun c => cell_eqb c (pre c0) && P (pre c0))
               (fun c => cell_eqb c c0 && P (sh c0))).
    + rewrite !count_guarded by assumption. lia.
    + reflexivity.
    + intros c _ Hc. apply andb_true_iff in Hc as [Hc _].
      apply cell_eqb_eq in Hc. subst c.
      now rewrite (cell_eqb_neq _ _ Hne).
  - intros c _. rewrite !HP', Hsh.
    destruct (cell_eqb c c0) eqn:E0.
    + apply cell_eqb_eq in E0. subst c. rewrite HP0.
      rewrite (cell_eqb_neq c0 (pre c0)) by congruence. simpl.
      now rewrite orb_false_r.
    + destruct (cell_eqb c (pre c0)) eqn:E1; simpl.
      * apply cell_eqb_eq in E1. subst c.
        assert (Hs0 : P (sh (pre c0)) = P c0).
        { f_equal. apply cell_eqb_eq. rewrite Hsh. apply cell_eqb_refl. }
        rewrite Hs0, HP0. rewrite !orb_false_r, !orb_true_r, andb_false_r, andb_true_r.
        reflexivity.
      * now rewrite !orb_false_r.
  - intros c _ Hc. apply andb_true_iff in Hc as [Hc1 Hc2].
    destruct (cell_eqb c c0) eqn:E0.
    + apply cell_eqb_eq in E0. subst c. congruence.
    + destruct (cell_eqb c (pre c0)) eqn:E1; [|reflexivity].
      apply cell_eqb_eq in E1. subst c.
      assert (Hs0 : P (sh (pre c0)) = P c0).
      { f_equal. apply cell_eqb_eq. rewrite Hsh. apply cell_eqb_refl. }
      congruence.
Qed.
End PairCount.

Lemma adjacent_path_pairs_gset D g x y :
  shape D g -> 1 <= x <= D - 2 -> 1 <= y <= D - 2 ->
  is_path D g (x, y) = false ->
  adjacent_path_pairs D (gset g x y 0) =
  (adjacent_path_pairs D g
   + (b2n (is_path D g (x - 1, y)%Z) + b2n (is_path D g (x + 1, y)%Z)
      + b2n (is_path D g (x, y - 1)%Z) + b2n (is_path D g (x, y + 1)%Z)))%nat.
Proof.
  intros Hs Hx Hy Hw. unfold adjacent_path_pairs.
  rewrite (count_pairs_new_cell (is_path D g) (is_path D (gset g x y 0))
             right_of (fun c => (fst c - 1, snd c)) (x, y)).
  - rewrite (count_pairs_new_cell (is_path D g) (is_path D (gset g x y 0))
               below (fun c => (fst c, snd c - 1)) (x, y)).
    + unfold right_of, below. simpl. lia.
    + intros [a b]. unfold cell_eqb, below. simpl.
      destruct (Z.eqb_spec a x), (Z.eqb_spec (b + 1) y), (Z.eqb_spec b (y - 1));
        simpl; try reflexivity; lia.
    + simpl. intros H. inversion H. lia.
    + apply NoDup_cells.
    + apply in_cells. simpl. lia.
    + apply in_cells. simpl. lia.
    + assumption.
    + intros c. apply is_path_gset; (assumption || lia).
  - intros [a b]. unfold cell_eqb, right_of. simpl.
    destruct (Z.eqb_spec (a + 1) x), (Z.eqb_spec a (x - 1)), (Z.eqb_spec b y);
      simpl; try reflexivity; lia.
  - simpl. intros H. inversion H. lia.
  - apply NoDup_cells.
  - apply in_cells. simpl. lia.
  - apply in_cells. simpl. lia.
  - assumption.
  - intros c. apply is_path_gset; (assumption || lia).
Qed.

(** ** Reachability grows with the set of Path cells *)

Lemma reachable_mono D g g' a b :
  (forall c, is_path D g c = true -> is_path D g' c = true) ->
  reachable D g a b -> reachable D g' a b.
Proof.
  intros Hm H. induction H.
  - apply reach_here. auto.
  - eapply reach_step; eauto.
Qed.

(** ** One carving step keeps the invariant *)

Lemma odd_true_mod x : Z.odd x = true <-> x mod 2 = 1.
Proof. rewrite Zmod_odd. destruct (Z.odd x); split; congruence || lia. Qed.

Lemma odd_false_mod x : Z.odd x = false <-> x mod 2 = 0.
Proof. rewrite Zmod_odd. destruct (Z.odd x); split; congruence || lia. Qed.

Ltac parity :=
  repeat match goal with
    | H : Z.odd _ = true |- _ => apply odd_true_mod in H
    | H : Z.odd _ = false |- _ => apply odd_false_mod in H
    | |- context [Z.odd ?x = true] => rewrite (odd_true_mod x)
    | |- context [Z.odd ?x = false] => rewrite (odd_false_mod x)
    end.

Lemma in_directions dx dy :
  In (dx, dy) directions ->
  (dx = 0 /\ dy = 1) \/ (dx = 1 /\ dy = 0) \/
  (dx = 0 /\ dy = -1) \/ (dx = -1 /\ dy = 0).
Proof.
  simpl. intros [H|[H|[H|[H|[]]]]]; inversion H; lia.
Qed.

Lemma cellv_gset2 D g x1 y1 x2 y2 x y :
  shape D g -> 0 <= x1 < D -> 0 <= y1 < D -> 0 <= x2 < D -> 0 <= y2 < D ->
  0 <= x < D -> 0 <= y < D ->
  cellv (gset (gset g x1 y1 0) x2 y2 0) x y =
  if cell_eqb (x, y) (x2, y2) then 0
  else if cell_eqb (x, y) (x1, y1) then 0 else cellv g x y.
Proof.
  intros. rewrite (cellv_gset D) by auto using gset_shape.
  now rewrite (cellv_gset D) by auto.
Qed.

Lemma is_path_false_iff D g x y :
  shape D g -> 0 <= x < D -> 0 <= y < D ->
  is_path D g (x, y) = false <-> cellv g x y <> 0.
Proof.
  intros Hs Hx Hy. destruct (is_path D g (x, y)) eqn:E.
  - apply is_path_iff in E; [|assumption]. split; [discriminate|lia].
  - split; [|reflexivity]. intros _ H.
    assert (is_path D g (x, y) = true) by (apply is_path_iff; auto).
    congruence.
Qed.

(** Under the invariant a Path cell next to a room forces the room to be
    Path, and no cell with two even coordinates is Path. *)
Lemma path_next_to_room D s g x y a b :
  carve_inv D s g -> is_path D g (x, y) = true ->
  Z.abs (x - a) + Z.abs (y - b) = 1 ->
  Z.odd a = true -> Z.odd b = true -> cellv g a b = 0.
Proof.
  intros Hinv Hp Hadj Ha Hb.
  apply (is_path_iff D g x y (ci_shape _ _ _ Hinv)) in Hp as (Hx & Hy & H0).
  destruct (Z.odd x) eqn:Ex.
  - destruct (Z.odd y) eqn:Ey.
    + parity. lia.
    + destruct (ci_corr_y _ _ _ Hinv x y Hx Hy H0 Ey) as [H1 H2].
      assert (x = a) as -> by (parity; lia).
      assert (b = y - 1 \/ b = y + 1) as [-> | ->] by lia; assumption.
  - destruct (ci_corr_x _ _ _ Hinv x y Hx Hy H0 Ex) as [H1 H2].
    assert (y = b) as -> by (parity; lia).
    assert (a = x - 1 \/ a = x + 1) as [-> | ->] by lia; assumption.
Qed.

Lemma even_even_not_path D s g x y :
  carve_inv D s g -> Z.odd x = false -> Z.odd y = false ->
  is_path D g (x, y) = false.
Proof.
  intros Hinv Hx Hy. destruct (is_path D g (x, y)) eqn:E; [|reflexivity].
  apply (is_path_iff D g x y (ci_shape _ _ _ Hinv)) in E as (Hx' & Hy' & H0).
  destruct (ci_room _ _ _ Hinv x y Hx' Hy' H0) as (_ & _ & [H|H]); congruence.
Qed.

(** The four neighbours of a cell, seen along a direction: ahead, behind and
    the two sides. *)
Lemma neighbour_sum (P : Z * Z -> bool) (x y dx dy : Z) :
  In (dx, dy) directions ->
  (b2n (P (x - 1, y)%Z) + b2n (P (x + 1, y)%Z)
   + b2n (P (x, y - 1)%Z) + b2n (P (x, y + 1)%Z))%nat =
  (b2n (P (x + dx, y + dy)%Z) + b2n (P (x - dx, y - dy)%Z)
   + b2n (P (x + dy, y + dx)%Z) + b2n (P (x - dy, y - dx)%Z))%nat.
Proof.
  intros Hd. apply in_directions in Hd.
  destruct Hd as [[-> ->]|[[-> ->]|[[-> ->]|[-> ->]]]];
    rewrite ?Z.add_0_r, ?Z.sub_0_r;
    replace (x - -1) with (x + 1) by lia;
    replace (y - -1) with (y + 1) by lia;
    replace (x + -1) with (x - 1) by lia;
    replace (y + -1) with (y - 1) by lia; lia.
Qed.

Section CarveStep.
Variables (D : Z) (s : Z * Z) (g : Grid) (cx cy dx dy : Z).
Hypothesis Hinv : carve_inv D s g.
Hypothesis Hdir : In (dx, dy) directions.
Hypothesis Hcx : 1 <= cx <= D - 2.
Hypothesis Hcy : 1 <= cy <= D - 2.
Hypothesis Hox : Z.odd cx = true.
Hypothesis Hoy : Z.odd cy = true.
Hypothesis Hcur : cellv g cx cy = 0.
Hypothesis Hnx : 0 < cx + dx * 2 < D - 1.
Hypothesis Hny : 0 < cy + dy * 2 < D - 1.
Hypothesis Hnext : cellv g (cx + dx * 2) (cy + dy * 2) = 1.

Let g1 := gset g (cx + dx) (cy + dy) 0.
Let g2 := gset g1 (cx + dx * 2) (cy + dy * 2) 0.

Let Hd := in_directions dx dy Hdir.
Let Hs := ci_shape D s g Hinv.

Lemma corridor_not_path : is_path D g (cx + dx, cy + dy) = false.
Proof using All.
  destruct (is_path D g (cx + dx, cy + dy)) eqn:E; [|reflexivity].
  assert (cellv g (cx + dx * 2) (cy + dy * 2) = 0); [|lia].
  eapply path_next_to_room; eauto; clear E; parity; lia.
Qed.

Lemma next_not_path_g1 : is_path D g1 (cx + dx * 2, cy + dy * 2) = false.
Proof using All.
  unfold g1. rewrite is_path_gset by (assumption || lia).
  apply orb_false_iff. split.
  - apply is_path_false_iff; (assumption || lia).
  - apply cell_eqb_neq. intros H. inversion H. lia.
Qed.

Lemma g2_cell x y :
  0 <= x < D -> 0 <= y < D ->
  cellv g2 x y =
  if cell_eqb (x, y) (cx + dx * 2, cy + dy * 2) then 0
  else if cell_eqb (x, y) (cx + dx, cy + dy) then 0 else cellv g x y.
Proof using All.
  intros Hx Hy. unfold g2, g1. apply (cellv_gset2 D); (assumption || lia).
Qed.

Lemma g2_zero x y :
  0 <= x < D -> 0 <= y < D ->
  cellv g2 x y = 0 <->
  (x = cx + dx * 2 /\ y = cy + dy * 2) \/ (x = cx + dx /\ y = cy + dy) \/
  cellv g x y = 0.
Proof using All.
  intros Hx Hy. rewrite g2_cell by assumption. unfold cell_eqb. simpl.
  destruct (Z.eqb_spec x (cx + dx * 2)), (Z.eqb_spec y (cy + dy * 2));
    simpl; try tauto;
    destruct (Z.eqb_spec x (cx + dx)), (Z.eqb_spec y (cy + dy));
    simpl; try tauto; lia.
Qed.

Lemma g2_path c :
  is_path D g2 c =
  is_path D g c || cell_eqb c (cx + dx, cy + dy)
  || cell_eqb c (cx + dx * 2, cy + dy * 2).
Proof using All.
  unfold g2, g1.
  rewrite is_path_gset by (auto using gset_shape || lia).
  now rewrite is_path_gset by (assumption || lia).
Qed.

Lemma g2_count :
  (adjacent_path_pairs D g2 + 1 = path_count D g2)%nat.
Proof using All.
  pose proof corridor_not_path as Hc1.
  pose proof next_not_path_g1 as Hn1.
  pose proof (ci_count _ _ _ Hinv) as Hcnt.
  assert (Hs1 : shape D g1) by (unfold g1; auto using gset_shape).
  unfold g2.
  rewrite (path_count_gset D g1) by (assumption || lia).
  rewrite (adjacent_path_pairs_gset D g1) by (assumption || lia).
  unfold g1 at 1 6.
  rewrite (path_count_gset D g) by (assumption || lia).
  rewrite (adjacent_path_pairs_gset D g) by (assumption || lia).
  rewrite (neighbour_sum (is_path D g) _ _ dx dy Hdir).
  rewrite (neighbour_sum (is_path D g1) _ _ dx dy Hdir).
  (* around the corridor cell, in g *)
  replace (is_path D g (cx + dx + dx, cy + dy + dy)) with false.
  2:{ symmetry. apply is_path_false_iff; try (assumption || lia).
      replace (cx + dx + dx) with (cx + dx * 2) by lia.
      replace (cy + dy + dy) with (cy + dy * 2) by lia. lia. }
  replace (is_path D g (cx + dx - dx, cy + dy - dy)) with true.
  2:{ symmetry. apply is_path_iff; [assumption|].
      replace (cx + dx - dx) with cx by lia.
      replace (cy + dy - dy) with cy by lia. repeat split; (assumption || lia). }
  replace (is_path D g (cx + dx + dy, cy + dy + dx)) with false.
  2:{ symmetry. eapply even_even_not_path; eauto; parity; lia. }
  replace (is_path D g (cx + dx - dy, cy + dy - dx)) with false.
  2:{ symmetry. eapply even_even_not_path; eauto; parity; lia. }
  (* around the new room, in g1 *)
  assert (Hroom : forall q, 
    Z.abs (fst q - (cx + dx * 2)) + Z.abs (snd q - (cy + dy * 2)) = 1 ->
    is_path D g q = false).
  { intros [qx qy] Hq. simpl in Hq.
    destruct (is_path D g (qx, qy)) eqn:E; [|reflexivity].
    assert (cellv g (cx + dx * 2) (cy + dy * 2) = 0); [|lia].
    eapply path_next_to_room; eauto; clear E; parity; lia. }
  unfold g1. rewrite !is_path_gset by (assumption || lia).
  rewrite !Hroom by (simpl; lia).
  replace (cell_eqb (cx + dx * 2 - dx, cy + dy * 2 - dy) (cx + dx, cy + dy))
    with true by (symmetry; apply cell_eqb_eq; f_equal; lia).
  rewrite !cell_eqb_neq by (intros H; inversion H; lia).
  simpl. lia.
Qed.

Lemma g2_mono c : is_path D g c = true -> is_path D g2 c = true.
Proof using All.
  intros H. rewrite g2_path, H. reflexivity.
Qed.

Lemma g2_room x y :
  0 <= x < D -> 0 <= y < D -> cellv g2 x y = 0 ->
  1 <= x <= D - 2 /\ 1 <= y <= D - 2 /\ (Z.odd x = true \/ Z.odd y = true).
Proof using All.
  intros Hx Hy H0. apply g2_zero in H0; [|assumption..].
  destruct H0 as [[-> ->]|[[-> ->]|H0]].
  - split; [lia|]. split; [lia|]. left. parity. lia.
  - split; [lia|]. split; [lia|]. parity. lia.
  - now apply (ci_room _ _ _ Hinv).
Qed.

Lemma g2_corr_x x y :
  0 <= x < D -> 0 <= y < D -> cellv g2 x y = 0 -> Z.odd x = false ->
  cellv g2 (x - 1) y = 0 /\ cellv g2 (x + 1) y = 0.
Proof using All.
  intros Hx Hy H0 Hev.
  pose proof (g2_room x y Hx Hy H0) as (Hx' & Hy' & _).
  apply g2_zero in H0; [|assumption..].
  rewrite !g2_zero by lia.
  destruct H0 as [[-> ->]|[[-> ->]|H0]].
  - parity. lia.
  - assert (dy = 0) as -> by (parity; lia).
    assert (dx = 1 \/ dx = -1) as [-> | ->] by lia.
    + split; [right; right | left; lia].
      replace (cx + 1 - 1) with cx by lia. now rewrite Z.add_0_r.
    + split; [left; lia | right; right].
      replace (cx + -1 + 1) with cx by lia. now rewrite Z.add_0_r.
  - destruct (ci_corr_x _ _ _ Hinv x y Hx Hy H0 Hev). tauto.
Qed.

Lemma g2_corr_y x y :
  0 <= x < D -> 0 <= y < D -> cellv g2 x y = 0 -> Z.odd y = false ->
  cellv g2 x (y - 1) = 0 /\ cellv g2 x (y + 1) = 0.
Proof using All.
  intros Hx Hy H0 Hev.
  pose proof (g2_room x y Hx Hy H0) as (Hx' & Hy' & _).
  apply g2_zero in H0; [|assumption..].
  rewrite !g2_zero by lia.
  destruct H0 as [[-> ->]|[[-> ->]|H0]].
  - parity. lia.
  - assert (dx = 0) as -> by (parity; lia).
    assert (dy = 1 \/ dy = -1) as [-> | ->] by lia.
    + split; [right; right | left; lia].
      replace (cy + 1 - 1) with cy by lia. now rewrite Z.add_0_r.
    + split; [left; lia | right; right].
      replace (cy + -1 + 1) with cy by lia. now rewrite Z.add_0_r.
  - destruct (ci_corr_y _ _ _ Hinv x y Hx Hy H0 Hev). tauto.
Qed.

Lemma g2_reach c : is_path D g2 c = true -> reachable D g2 s c.
Proof using All.
  intros Hc.
  assert (Hcur' : reachable D g2 s (cx, cy)).
  { apply (reachable_mono D g); [exact g2_mono|].
    apply (ci_reach _ _ _ Hinv). apply is_path_iff; [assumption|].
    repeat split; (assumption || lia). }
  assert (Hcorr : reachable D g2 s (cx + dx, cy + dy)).
  { eapply reach_step; [exact Hcur' | |].
    - unfold adjacent. simpl. lia.
    - rewrite g2_path, cell_eqb_refl, orb_true_r. reflexivity. }
  rewrite g2_path in Hc. apply orb_true_iff in Hc as [Hc|Hc].
  - apply orb_true_iff in Hc as [Hc|Hc].
    + apply (reachable_mono D g); [exact g2_mono|].
      now apply (ci_reach _ _ _ Hinv).
    + apply cell_eqb_eq in Hc. now subst c.
  - apply cell_eqb_eq in Hc. subst c.
    eapply reach_step; [exact Hcorr | |].
    + unfold adjacent. simpl. lia.
    + rewrite g2_path, cell_eqb_refl, orb_true_r. reflexivity.
Qed.

Lemma carve_step_inv : carve_inv D s g2.
Proof using All.
  constructor.
  - unfold g2, g1. auto using gset_shape.
  - intros x y Hx Hy. rewrite g2_cell by assumption.
    destruct (cell_eqb _ _); [auto|]. destruct (cell_eqb _ _); [auto|].
    now apply (ci_bin _ _ _ Hinv).
  - exact g2_room.
  - exact g2_corr_x.
  - exact g2_corr_y.
  - exact g2_count.
  - apply g2_mono, (ci_start _ _ _ Hinv).
  - exact g2_reach.
Qed.

Lemma g2_path_count : path_count D g2 = S (S (path_count D g)).
Proof using All.
  pose proof corridor_not_path as Hc1.
  pose proof next_not_path_g1 as Hn1.
  assert (Hs1 : shape D g1) by (unfold g1; auto using gset_shape).
  unfold g2.
  rewrite (path_count_gset D g1) by (assumption || lia).
  unfold g1.
  now rewrite (path_count_gset D g) by (assumption || lia).
Qed.
End CarveStep.

(** ** The shuffled directions are still directions *)

Lemma swap_Forall {A} (P : A -> Prop) l i j :
  Forall P l -> Forall P (swap l i j).
Proof.
  intros H. unfold swap.
  destruct (l !! i) as [a|] eqn:Ei; [|assumption].
  destruct (l !! j) as [b|] eqn:Ej; [|assumption].
  rewrite Forall_lookup in H.
  apply Forall_insert; [apply Forall_insert|]; try (eapply H; eassumption).
  apply Forall_lookup. exact H.
Qed.

Lemma shuffle_from_Forall {A} (P : A -> Prop) i l r :
  Forall P l -> Forall P (fst (shuffle_from i l r)).
Proof.
  revert l r. induction i as [|i IH]; intros l r H; [assumption|].
  cbn [shuffle_from]. destruct (randbelow _ r) as [j r'].
  apply IH. now apply swap_Forall.
Qed.

Lemma shuffle_Forall {A} (P : A -> Prop) l r :
  Forall P l -> Forall P (fst (shuffle l r)).
Proof. apply shuffle_from_Forall. Qed.

(** ** The carving terminates and keeps the invariant *)

Lemma carve_loop_ok D s rec budget cx cy :
  carve_spec D s rec budget ->
  1 <= cx <= D - 2 -> 1 <= cy <= D - 2 ->
  Z.odd cx = true -> Z.odd cy = true ->
  forall ds g r,
    Forall (fun d => In d directions) ds ->
    carve_inv D s g -> is_path D g (cx, cy) = true ->
    (length (cells D) < S budget + path_count D g)%nat ->
    exists g' r',
      carve_loop rec D cx cy ds g r = Ok (g', r') /\ carve_inv D s g' /\
      (forall c, is_path D g c = true -> is_path D g' c = true) /\
      (path_count D g <= path_count D g')%nat.
Proof.
  intros Hrec Hcx Hcy Hox Hoy ds.
  induction ds as [|[dx dy] ds IH]; intros g r Hds Hinv Hcur Hfuel.
  - exists g, r. simpl. auto.
  - inversion Hds as [|? ? Hd Hds']; subst. cbn [carve_loop].
    pose proof (ci_shape _ _ _ Hinv) as Hs.
    destruct ((0 <? cx + dx * 2) && (cx + dx * 2 <? D - 1)
              && (0 <? cy + dy * 2) && (cy + dy * 2 <? D - 1)) eqn:Hb.
    + rewrite !andb_true_iff, !Z.ltb_lt in Hb.
      rewrite (grid_get_ok D) by (assumption || lia). cbn [rbind].
      destruct (Z.eqb_spec (cellv g (cx + dx * 2) (cy + dy * 2)) 1) as [Hw|Hw].
      * pose proof (in_directions _ _ Hd) as Hdd.
        apply (is_path_iff D g cx cy Hs) in Hcur as Hcur'.
        rewrite (grid_set_ok D) by (assumption || lia). cbn [rbind].
        destruct (Hrec (gset g (cx + dx) (cy + dy) 0) r
                    (cx + dx * 2) (cy + dy * 2)) as (g2 & r2 & -> & Hi2 & Hm2 & Hc2).
        -- auto using gset_shape.
        -- apply carve_step_inv; (assumption || lia).
        -- lia.
        -- lia.
        -- parity. lia.
        -- parity. lia.
        -- rewrite (g2_path_count D s g cx cy dx dy) by (assumption || lia). lia.
        -- cbn [rbind].
           rewrite (g2_path_count D s g cx cy dx dy) in Hc2 by (assumption || lia).
           destruct (IH g2 r2 Hds' Hi2) as (g' & r' & -> & Hi' & Hm' & Hc').
           ++ apply Hm2. apply (g2_mono D s g cx cy dx dy); (assumption || lia).
           ++ lia.
           ++ exists g', r'.
              split; [reflexivity|]. split; [assumption|]. split; [|lia].
              intros c Hc. apply Hm', Hm2.
              apply (g2_mono D s g cx cy dx dy); (assumption || lia).
      * apply IH; assumption.
    + apply IH; assumption.
Qed.

Lemma carve_path_ok D s fuel : carve_spec D s (_carve_path fuel D) fuel.
Proof.
  induction fuel as [|fuel IH]; intros g r x y Hs Hinv Hx Hy Hox Hoy Hfuel.
  - pose proof (count_le_length (is_path D (gset g x y 0)) (cells D)).
    unfold path_count in Hfuel. lia.
  - cbn [_carve_path].
    rewrite (grid_set_ok D) by (assumption || lia). cbn [rbind].
    destruct (shuffle directions r) as [dirs r1] eqn:Hsh.
    assert (Hdirs : Forall (fun d => In d directions) dirs).
    { change dirs with (fst (dirs, r1)). rewrite <- Hsh.
      apply shuffle_Forall. apply List.Forall_forall. auto. }
    destruct (carve_loop_ok D s (_carve_path fuel D) fuel x y IH Hx Hy Hox Hoy
                dirs (gset g x y 0) r1 Hdirs Hinv)
      as (g' & r' & Heq & Hi' & Hm' & Hc').
    + rewrite is_path_gset by (assumption || lia).
      rewrite cell_eqb_refl. apply orb_true_r.
    + lia.
    + exists g', r'. auto.
Qed.

(** ** The grid before carving *)

Lemma all_walls_shape D : shape D (all_walls D).
Proof.
  unfold shape, all_walls. rewrite length_map, length_py_range.
  split; [f_equal; lia|].
  apply List.Forall_forall. intros row Hrow.
  apply in_map_iff in Hrow as (y & <- & _).
  rewrite length_map, length_py_range. f_equal. lia.
Qed.

Lemma all_walls_cell D x y :
  0 <= x < D -> 0 <= y < D -> cellv (all_walls D) x y = 1.
Proof.
  intros Hx Hy. pose proof (all_walls_shape D) as Hs.
  destruct (shape_row D _ y Hs Hy) as (row & Hrow & Hlen).
  unfold cellv. rewrite Hrow.
  assert (Hin : In row (all_walls D)).
  { apply list_elem_of_In. eapply list_elem_of_lookup_2. exact Hrow. }
  unfold all_walls in Hin. apply in_map_iff in Hin as (y' & <- & _).
  destruct (map (fun _ => 1) (py_range 0 D) !! Z.to_nat x) as [v|] eqn:E.
  - assert (Hv : In v (map (fun _ : Z => 1) (py_range 0 D))).
    { apply list_elem_of_In. eapply list_elem_of_lookup_2. exact E. }
    apply in_map_iff in Hv as (? & <- & _). reflexivity.
  - reflexivity.
Qed.

Lemma all_walls_not_path D c : is_path D (all_walls D) c = false.
Proof.
  rewrite is_path_spec by apply all_walls_shape. unfold inb.
  destruct ((0 <=? fst c) && (fst c <? D)) eqn:Ex; [|reflexivity].
  destruct ((0 <=? snd c) && (snd c <? D)) eqn:Ey; [|reflexivity].
  rewrite all_walls_cell by lia. reflexivity.
Qed.

Lemma init_inv D sx sy :
  1 <= sx <= D - 2 -> 1 <= sy <= D - 2 ->
  Z.odd sx = true -> Z.odd sy = true ->
  carve_inv D (sx, sy) (gset (all_walls D) sx sy 0).
Proof.
  intros Hx Hy Hox Hoy. pose proof (all_walls_shape D) as Hs.
  assert (Hz : forall x y, 0 <= x < D -> 0 <= y < D ->
            cellv (gset (all_walls D) sx sy 0) x y = 0 -> x = sx /\ y = sy).
  { intros x y Hx' Hy' H0. rewrite (cellv_gset D) in H0 by (assumption || lia).
    destruct (cell_eqb (x, y) (sx, sy)) eqn:E.
    - apply cell_eqb_eq in E. inversion E. auto.
    - rewrite all_walls_cell in H0 by assumption. discriminate. }
  constructor.
  - now apply gset_shape.
  - intros x y Hx' Hy'. rewrite (cellv_gset D) by (assumption || lia).
    destruct (cell_eqb _ _); [auto|]. right. now apply all_walls_cell.
  - intros x y Hx' Hy' H0. destruct (Hz x y Hx' Hy' H0) as [-> ->]. auto.
  - intros x y Hx' Hy' H0 He. destruct (Hz x y Hx' Hy' H0) as [-> ->]. congruence.
  - intros x y Hx' Hy' H0 He. destruct (Hz x y Hx' Hy' H0) as [-> ->]. congruence.
  - rewrite (path_count_gset D) by (try apply all_walls_not_path; assumption || lia).
    rewrite (adjacent_path_pairs_gset D)
      by (try apply all_walls_not_path; assumption || lia).
    rewrite !all_walls_not_path. unfold adjacent_path_pairs, path_count.
    rewrite !count_false; [reflexivity|..];
      intros c _; now rewrite ?all_walls_not_path.
  - rewrite is_path_gset by (assumption || lia).
    rewrite cell_eqb_refl. apply orb_true_r.
  - intros c Hc. rewrite is_path_gset in Hc by (assumption || lia).
    rewrite all_walls_not_path in Hc. simpl in Hc.
    apply cell_eqb_eq in Hc. subst c. apply reach_here.
    rewrite is_path_gset by (assumption || lia).
    rewrite cell_eqb_refl. apply orb_true_r.
Qed.

(** ** The random start is an interior cell with odd coordinates *)

Lemma randbelow_range n r : 0 < n -> 0 <= fst (randbelow n r) < n.
Proof.
  intros Hn. destruct r as [|d r]; simpl; [lia|].
  apply Z.mod_pos_bound. lia.
Qed.

Lemma pick_start_ok D r :
  3 <= D -> Z.odd D = true ->
  exists sx sy r1,
    pick_start D r = Ok ((sx, sy), r1) /\
    1 <= sx <= D - 2 /\ 1 <= sy <= D - 2 /\
    Z.odd sx = true /\ Z.odd sy = true.
Proof.
  intros HD Hodd. unfold pick_start, randrange.
  destruct (Z.leb_spec (D / 2) 0) as [Hle|Hlt]; [lia|]. cbn [rbind].
  pose proof (randbelow_range (D / 2) r Hlt) as Ha.
  destruct (randbelow (D / 2) r) as [a r1]. cbn [rbind].
  pose proof (randbelow_range (D / 2) r1 Hlt) as Hb.
  destruct (randbelow (D / 2) r1) as [b r2]. cbn [rbind].
  simpl in Ha, Hb. exists (a * 2 + 1), (b * 2 + 1), r2.
  split; [reflexivity|]. parity. lia.
Qed.

Lemma length_cells D : 0 <= D -> length (cells D) = Z.to_nat (D * D).
Proof.
  intros HD. unfold cells.
  assert (Hgen : forall ys : list Z,
    length (flat_map (fun y => map (fun x => (x, y)) (py_range 0 D)) ys)
    = (length ys * Z.to_nat D)%nat).
  { induction ys as [|y ys IH]; simpl; [reflexivity|].
    rewrite length_app, length_map, length_py_range, IH. f_equal. f_equal. lia. }
  rewrite Hgen, length_py_range. nia.
Qed.

(** ** The mesh builder *)

Lemma is_path_in_range D g x y :
  shape D g -> 0 <= x < D -> 0 <= y < D ->
  is_path D g (x, y) = (cellv g x y =? 0).
Proof.
  intros Hs Hx Hy. rewrite is_path_spec by assumption. unfold inb. simpl.
  destruct (Z.leb_spec 0 x), (Z.ltb_spec x D),
    (Z.leb_spec 0 y), (Z.ltb_spec y D); try reflexivity; lia.
Qed.

Lemma is_wall_cell_in_range D g x y :
  shape D g -> 0 <= x < D -> 0 <= y < D ->
  is_wall_cell g (x, y) = (cellv g x y =? 1).
Proof.
  intros Hs Hx Hy. unfold is_wall_cell. simpl.
  now rewrite (grid_get_ok D) by assumption.
Qed.

Lemma north_exposed_ok D g z x :
  shape D g -> 0 <= z < D -> 0 <= x < D ->
  north_exposed D g z x = Ok (exposed D g North (x, z)).
Proof.
  intros Hs Hz Hx. unfold north_exposed, exposed. simpl.
  destruct (Z.eqb_spec z (D - 1)); [reflexivity|]. simpl.
  destruct (Z.ltb_spec (z + 1) D); [|lia].
  rewrite (grid_get_ok D) by (assumption || lia). cbn [rbind].
  now rewrite (is_path_in_range D) by (assumption || lia).
Qed.

Lemma south_exposed_ok D g z x :
  shape D g -> 0 <= z < D -> 0 <= x < D ->
  south_exposed D g z x = Ok (exposed D g South (x, z)).
Proof.
  intros Hs Hz Hx. unfold south_exposed, exposed. simpl.
  destruct (Z.eqb_spec z 0); [reflexivity|]. simpl.
  destruct (Z.geb_spec (z - 1) 0); [|lia].
  rewrite (grid_get_ok D) by (assumption || lia). cbn [rbind].
  now rewrite (is_path_in_range D) by (assumption || lia).
Qed.

Lemma east_exposed_ok D g z x :
  shape D g -> 0 <= z < D -> 0 <= x < D ->
  east_exposed D g z x = Ok (exposed D g East (x, z)).
Proof.
  intros Hs Hz Hx. unfold east_exposed, exposed. simpl.
  destruct (Z.eqb_spec x (D - 1)); [reflexivity|]. simpl.
  destruct (Z.ltb_spec (x + 1) D); [|lia].
  rewrite (grid_get_ok D) by (assumption || lia). cbn [rbind].
  now rewrite (is_path_in_range D) by (assumption || lia).
Qed.

Lemma west_exposed_ok D g z x :
  shape D g -> 0 <= z < D -> 0 <= x < D ->
  west_exposed D g z x = Ok (exposed D g West (x, z)).
Proof.
  intros Hs Hz Hx. unfold west_exposed, exposed. simpl.
  destruct (Z.eqb_spec x 0); [reflexivity|]. simpl.
  destruct (Z.geb_spec (x - 1) 0); [|lia].
  rewrite (grid_get_ok D) by (assumption || lia). cbn [rbind].
  now rewrite (is_path_in_range D) by (assumption || lia).
Qed.

Lemma side_quad_faces e w q :
  map quad_face (side_quad e w q) = side_face e w (quad_face q).
Proof. now destruct e, w. Qed.

Lemma cell_quads_faces cfg self z x :
  shape (dimension self) (maze_grid self) ->
  0 <= z < dimension self -> 0 <= x < dimension self ->
  exists qs,
    cell_quads cfg self z x = Ok qs /\
    map quad_face qs =
    let w := is_wall_cell (maze_grid self) (x, z) in
    let e f := exposed (dimension self) (maze_grid self) f (x, z) in
    Top :: side_face (e North) w North ++ side_face (e South) w South
        ++ side_face (e East) w East ++ side_face (e West) w West.
Proof.
  intros Hs Hz Hx. unfold cell_quads.
  rewrite (grid_get_ok (dimension self)) by assumption. cbn [rbind].
  rewrite north_exposed_ok, south_exposed_ok, east_exposed_ok, west_exposed_ok
    by assumption.
  cbn [rbind]. eexists. split; [reflexivity|].
  cbn [map]. rewrite !map_app, !side_quad_faces. cbn [quad_face].
  now rewrite (is_wall_cell_in_range (dimension self)) by assumption.
Qed.

Lemma mesh_row_ok cfg self z xs m :
  shape (dimension self) (maze_grid self) -> 0 <= z < dimension self ->
  (forall x, In x xs -> 0 <= x < dimension self) ->
  exists m', mesh_row cfg self z xs m = Ok m'.
Proof.
  intros Hs Hz. revert m. induction xs as [|x xs IH]; intros m Hxs; simpl.
  - eauto.
  - destruct (cell_quads_faces cfg self z x Hs Hz) as (qs & -> & _).
    { apply Hxs. now left. }
    cbn [rbind]. apply IH. intros x' Hx'. apply Hxs. now right.
Qed.

Lemma mesh_rows_ok cfg self zs m :
  shape (dimension self) (maze_grid self) ->
  (forall z, In z zs -> 0 <= z < dimension self) ->
  exists m', mesh_rows cfg self zs m = Ok m'.
Proof.
  intros Hs. revert m. induction zs as [|z zs IH]; intros m Hzs; simpl.
  - eauto.
  - destruct (mesh_row_ok cfg self z (py_range 0 (dimension self)) m Hs)
      as (m' & ->).
    { apply Hzs. now left. }
    { intros x Hx. now apply in_py_range in Hx. }
    cbn [rbind]. apply IH. intros z' Hz'. apply Hzs. now right.
Qed.

Lemma create_mesh_ok cfg self :
  shape (dimension self) (maze_grid self) ->
  exists me,
    _create_mesh_from_grid cfg self = Ok (set_mesh_entity self (Some me)).
Proof.
  intros Hs. unfold _create_mesh_from_grid.
  destruct (mesh_rows_ok cfg self (py_range 0 (dimension self)) empty_mesh Hs)
    as (m & ->).
  { intros z Hz. now apply in_py_range in Hz. }
  cbn [rbind]. eauto.
Qed.





(** ** Maze generation as a whole *)

Lemma generate_random_maze_ok cfg fuel self r :
  3 <= dimension self -> Z.odd (dimension self) = true ->
  (Z.to_nat (dimension self * dimension self) <= fuel)%nat ->
  exists s r1 self' r',
    pick_start (dimension self) r = Ok (s, r1) /\
    generate_random_maze cfg fuel self r = Ok (self', r') /\
    dimension self' = dimension self /\
    cell_size self' = cell_size self /\
    wall_height self' = wall_height self /\
    path_height self' = path_height self /\
    interior (dimension self) s /\
    carve_inv (dimension self) s (maze_grid self').
Proof.
  intros HD Hodd Hfuel. set (D := dimension self) in *.
  destruct (pick_start_ok D r HD Hodd)
    as (sx & sy & r1 & Hpick & Hsx & Hsy & Hox & Hoy).
  destruct (carve_path_ok D (sx, sy) fuel (all_walls D) r1 sx sy)
    as (g & r2 & Hcarve & Hinv & _ & _); try assumption.
  { apply all_walls_shape. }
  { now apply init_inv. }
  { rewrite (path_count_gset D)
      by (try apply all_walls_shape; try apply all_walls_not_path; lia).
    rewrite length_cells by lia. lia. }
  destruct (create_mesh_ok cfg
              (set_maze_grid
                 (set_maze_grid (clear_maze self) (all_walls D)) g))
    as (me & Hmesh).
  { simpl. exact (ci_shape _ _ _ Hinv). }
  exists (sx, sy), r1. eexists. exists r2.
  split; [exact Hpick|].
  unfold generate_random_maze. cbn [dimension set_maze_grid clear_maze
    set_mesh_entity maze_grid]. fold D.
  rewrite Hpick. cbn [rbind]. rewrite Hcarve. cbn [rbind].
  cbn [dimension set_maze_grid clear_maze set_mesh_entity maze_grid] in Hmesh.
  rewrite Hmesh. cbn [rbind].
  split; [reflexivity|]. simpl.
  do 4 (split; [reflexivity|]).
  split; [unfold interior; simpl; lia | exact Hinv].
Qed.

(** More fuel never changes a result, so what holds of the grid generated
    with enough fuel holds of every generated grid. *)
Lemma carve_loop_more_fuel rec1 rec2 D cx cy :
  (forall g r x y res, rec1 g r x y = Ok res -> rec2 g r x y = Ok res) ->
  forall ds g r res,
    carve_loop rec1 D cx cy ds g r = Ok res ->
    carve_loop rec2 D cx cy ds g r = Ok res.
Proof.
  intros Hrec ds.
  induction ds as [|[dx dy] ds IH]; intros g r res; cbn [carve_loop].
  - auto.
  - destruct (_ && _); [|apply IH].
    destruct (grid_get g (cy + dy * 2) (cx + dx * 2)) as [v| |];
      cbn [rbind]; try discriminate.
    destruct (v =? 1); [|apply IH].
    destruct (grid_set g (cy + dy) (cx + dx) 0) as [g1| |];
      cbn [rbind]; try discriminate.
    destruct (rec1 g1 r (cx + dx * 2) (cy + dy * 2)) as [[g2 r2]| |] eqn:E;
      cbn [rbind]; try discriminate.
    rewrite (Hrec _ _ _ _ _ E). cbn [rbind]. apply IH.
Qed.

Lemma carve_path_more_fuel D fuel : forall fuel' g r x y res,
  (fuel <= fuel')%nat ->
  _carve_path fuel D g r x y = Ok res -> _carve_path fuel' D g r x y = Ok res.
Proof.
  induction fuel as [|fuel IH]; intros fuel' g r x y res Hle; [discriminate|].
  destruct fuel' as [|fuel']; [lia|]. cbn [_carve_path].
  destruct (grid_set g y x 0) as [g1| |]; cbn [rbind]; try discriminate.
  destruct (shuffle directions r) as [dirs r1].
  apply carve_loop_more_fuel. intros g0 r0 x0 y0 res0. apply IH. lia.
Qed.

Lemma generate_random_maze_more_fuel cfg fuel fuel' self r res :
  (fuel <= fuel')%nat ->
  generate_random_maze cfg fuel self r = Ok res ->
  generate_random_maze cfg fuel' self r = Ok res.
Proof.
  intros Hle. unfold generate_random_maze.
  destruct (pick_start _ r) as [[[sx sy] r1]| |]; cbn [rbind]; try discriminate.
  destruct (_carve_path fuel _ _ r1 sx sy) as [[g r2]| |] eqn:E;
    cbn [rbind]; try discriminate.
  rewrite (carve_path_more_fuel _ _ _ _ _ _ _ _ Hle E). cbn [rbind]. auto.
Qed.

Lemma generated_grid_inv cfg fuel self r self' r' :
  3 <= dimension self -> Z.odd (dimension self) = true ->
  generate_random_maze cfg fuel self r = Ok (self', r') ->
  exists s r1,
    pick_start (dimension self) r = Ok (s, r1) /\
    dimension self' = dimension self /\
    interior (dimension self) s /\
    carve_inv (dimension self) s (maze_grid self').
Proof.
  intros HD Hodd Hgen.
  set (big := Nat.max fuel (Z.to_nat (dimension self * dimension self))).
  destruct (generate_random_maze_ok cfg big self r HD Hodd)
    as (s & r1 & self2 & r2 & Hpick & Hgen2 & Hdim & _ & _ & _ & Hint & Hinv).
  { unfold big. lia. }
  apply (generate_random_maze_more_fuel cfg fuel big) in Hgen;
    [|unfold big; lia].
  rewrite Hgen in Hgen2. injection Hgen2 as <- <-.
  exists s, r1. auto.
Qed.

(** ** Scanning for spawn and goal *)

Lemma is_valid_grid_pos_ok D g x y :
  shape D g -> _is_valid_grid_pos D g x y = Ok (is_path D g (x, y)).
Proof.
  intros Hs. unfold is_path, _is_valid_grid_pos. simpl.
  destruct ((0 <=? x) && (x <? D)) eqn:Ex; [|reflexivity].
  destruct ((0 <=? y) && (y <? D)) eqn:Ey; [|reflexivity].
  rewrite (grid_get_ok D) by (assumption || lia). cbn [rbind].
  now destruct (cellv g x y =? 0).
Qed.

Section Scan.
Variables (D : Z) (g : Grid) (R : Z -> Z -> Prop).
Hypothesis Hs : shape D g.

Lemma scan_row_spec z xs :
  StronglySorted R xs ->
  exists o, scan_row D g z xs = Ok o /\
    match o with
    | Some c =>
        snd c = z /\ In (fst c) xs /\ is_path D g c = true /\
        forall x', In x' xs -> is_path D g (x', z) = true ->
                   fst c = x' \/ R (fst c) x'
    | None => forall x', In x' xs -> is_path D g (x', z) = false
    end.
Proof using Hs.
  induction 1 as [|x xs Hsort IH Hall]; simpl.
  - exists None. split; [reflexivity|]. intros x' [].
  - rewrite is_valid_grid_pos_ok by assumption. cbn [rbind].
    destruct (is_path D g (x, z)) eqn:Ex.
    + exists (Some (x, z)). split; [reflexivity|]. simpl.
      repeat split; auto.
      intros x' [->|Hx'] _; [now left|right].
      rewrite List.Forall_forall in Hall. auto.
    + destruct IH as (o & -> & Ho). exists o. split; [reflexivity|].
      destruct o as [c|].
      * destruct Ho as (Hz & Hin & Hp & Hmin). repeat split; auto.
        intros x' [<-|Hx'] Hpx; [congruence|auto].
      * intros x' [<-|Hx']; auto.
Qed.

Lemma scan_rows_spec zs xs :
  StronglySorted R zs -> StronglySorted R xs ->
  exists o, scan_rows D g zs xs = Ok o /\
    match o with
    | Some c =>
        In (snd c) zs /\ In (fst c) xs /\ is_path D g c = true /\
        forall x' z', In x' xs -> In z' zs -> is_path D g (x', z') = true ->
          R (snd c) z' \/ (snd c = z' /\ (fst c = x' \/ R (fst c) x'))
    | None =>
        forall x' z', In x' xs -> In z' zs -> is_path D g (x', z') = false
    end.
Proof using Hs.
  intros Hzs Hxs. induction Hzs as [|z zs Hsort IH Hall]; simpl.
  - exists None. split; [reflexivity|]. intros x' z' _ [].
  - destruct (scan_row_spec z xs Hxs) as (o & -> & Ho). cbn [rbind].
    destruct o as [c|].
    + exists (Some c). split; [reflexivity|].
      destruct Ho as (Hz & Hin & Hp & Hmin). repeat split; auto.
      intros x' z' Hx' [<-|Hz'] Hpx.
      * right. split; [assumption|]. auto.
      * left. rewrite Hz. rewrite List.Forall_forall in Hall. auto.
    + destruct IH as (o & -> & Ho'). exists o. split; [reflexivity|].
      destruct o as [c|].
      * destruct Ho' as (Hz & Hin & Hp & Hmin). repeat split; auto.
        intros x' z' Hx' [<-|Hz'] Hpx; [|auto].
        rewrite Ho in Hpx by assumption. discriminate.
      * intros x' z' Hx' [<-|Hz']; auto.
Qed.
End Scan.

Lemma py_range_sorted a b : StronglySorted Z.lt (py_range a b).
Proof.
  unfold py_range. generalize (Z.to_nat (b - a)) as n. generalize 0%nat as s.
  intros s n. revert s. induction n as [|n IH]; intros s; simpl.
  - constructor.
  - constructor; [apply IH|].
    apply List.Forall_forall. intros y Hy.
    apply in_map_iff in Hy as (i & <- & Hi). apply in_seq in Hi. lia.
Qed.

Lemma py_range_down_sorted a b : StronglySorted Z.gt (py_range_down a b).
Proof.
  unfold py_range_down. generalize (Z.to_nat (a - b)) as n.
  generalize 0%nat as s.
  intros s n. revert s. induction n as [|n IH]; intros s; simpl.
  - constructor.
  - constructor; [apply IH|].
    apply List.Forall_forall. intros y Hy.
    apply in_map_iff in Hy as (i & <- & Hi). apply in_seq in Hi. lia.
Qed.

Lemma in_py_range_down a b x : In x (py_range_down a b) <-> b < x <= a.
Proof.
  unfold py_range_down. rewrite in_map_iff. split.
  - intros (i & <- & Hi). apply in_seq in Hi. lia.
  - intros H. exists (Z.to_nat (a - x)). split; [lia|]. apply in_seq. lia.
Qed.

Lemma find_spawn_point_spec D g :
  shape D g ->
  exists p, find_spawn_point D g = Ok p /\ first_path Z.lt (1, 1) D g p.
Proof.
  intros Hs. unfold find_spawn_point.
  destruct (scan_rows_spec D g Z.lt Hs (py_range 1 (D - 1)) (py_range 1 (D - 1))
              (py_range_sorted _ _) (py_range_sorted _ _)) as (o & -> & Ho).
  cbn [rbind]. destruct o as [c|]; eexists; (split; [reflexivity|]).
  - left. destruct Ho as (Hz & Hx & Hp & Hmin).
    apply in_py_range in Hz, Hx.
    split; [unfold interior; lia|]. split; [assumption|].
    intros [x' z'] [Hi1 Hi2] Hp'. simpl in *.
    apply Hmin; try assumption; apply in_py_range; lia.
  - right. split; [|reflexivity].
    intros [x' z'] [Hi1 Hi2]. simpl in *.
    apply Ho; apply in_py_range; lia.
Qed.

Lemma find_goal_point_spec D g :
  shape D g ->
  exists p, find_goal_point D g = Ok p /\ first_path Z.gt (D - 2, D - 2) D g p.
Proof.
  intros Hs. unfold find_goal_point.
  destruct (scan_rows_spec D g Z.gt Hs (py_range_down (D - 2) 0)
              (py_range_down (D - 2) 0)
              (py_range_down_sorted _ _) (py_range_down_sorted _ _))
    as (o & -> & Ho).
  cbn [rbind]. destruct o as [c|]; eexists; (split; [reflexivity|]).
  - left. destruct Ho as (Hz & Hx & Hp & Hmin).
    apply in_py_range_down in Hz, Hx.
    split; [unfold interior; lia|]. split; [assumption|].
    intros [x' z'] [Hi1 Hi2] Hp'. simpl in *.
    apply Hmin; try assumption; apply in_py_range_down; lia.
  - right. split; [|reflexivity].
    intros [x' z'] [Hi1 Hi2]. simpl in *.
    apply Ho; apply in_py_range_down; lia.
Qed.

(** With an interior Path cell the scans do not fall back. *)
Lemma first_path_found before fallback D g p c :
  first_path before fallback D g p ->
  interior D c -> is_path D g c = true ->
  interior D p /\ is_path D g p = true.
Proof.
  intros [(Hi & Hp & _)|(Hnone & _)] Hc Hpc; [auto|].
  rewrite Hnone in Hpc by assumption. discriminate.
Qed.

(** ** The monster spawn search *)

Lemma exceeds_quarter_iff D d :
  exceeds_quarter D d = true <-> (inject_Z D / 4 < inject_Z d)%Q.
Proof.
  unfold exceeds_quarter, Qlt_bool. rewrite negb_true_iff.
  rewrite <- not_true_iff_false, Qle_bool_iff. split.
  - apply Qnot_le_lt.
  - apply Qlt_not_le.
Qed.

Lemma randint_ok a b r :
  a <= b ->
  exists k r', randint a b r = Ok (k, r') /\ a <= k <= b /\
    (length r <= length r' + 1)%nat.
Proof.
  intros Hab. unfold randint.
  destruct (Z.ltb_spec b a) as [H|H]; [lia|].
  pose proof (randbelow_range (b - a + 1) r ltac:(lia)) as Hk.
  assert (Hlen : (length r <= length (snd (randbelow (b - a + 1) r)) + 1)%nat).
  { destruct r; simpl; lia. }
  destruct (randbelow (b - a + 1) r) as [k r']. simpl in *.
  exists (a + k), r'. split; [reflexivity|]. split; lia.
Qed.

Lemma monster_attempts_spec n D g r :
  3 <= D -> shape D g ->
  exists c r',
    monster_attempts n D g r = Ok (c, r') /\
    (length r <= length r' + 2 * n)%nat /\
    ((interior D c /\ is_path D g c = true /\
      exists p q, find_spawn_point D g = Ok p /\ find_goal_point D g = Ok q /\
        (inject_Z D / 4 < inject_Z (manhattan c p))%Q /\
        (inject_Z D / 4 < inject_Z (manhattan c q))%Q)
     \/ c = (D / 2, D / 2)).
Proof.
  intros HD Hs. revert r. induction n as [|n IH]; intros r.
  - exists (D / 2, D / 2), r. simpl. split; [reflexivity|]. split; [lia|now right].
  - cbn [monster_attempts].
    destruct (randint_ok 1 (D - 2) r ltac:(lia)) as (x & r1 & -> & Hx & Hl1).
    cbn [rbind].
    destruct (randint_ok 1 (D - 2) r1 ltac:(lia)) as (y & r2 & -> & Hy & Hl2).
    cbn [rbind].
    rewrite is_valid_grid_pos_ok by assumption. cbn [rbind].
    destruct (IH r2) as (c & r' & Hrec & Hlen & Hc).
    assert (Hretry : exists c r', monster_attempts n D g r2 = Ok (c, r') /\
      (length r <= length r' + 2 * S n)%nat /\
      ((interior D c /\ is_path D g c = true /\
        exists p q, find_spawn_point D g = Ok p /\ find_goal_point D g = Ok q /\
          (inject_Z D / 4 < inject_Z (manhattan c p))%Q /\
          (inject_Z D / 4 < inject_Z (manhattan c q))%Q)
       \/ c = (D / 2, D / 2))).
    { exists c, r'. split; [assumption|]. split; [lia|assumption]. }
    destruct (is_path D g (x, y)) eqn:Hp; [|exact Hretry].
    destruct (find_spawn_point_spec D g Hs) as (p & Hsp & _).
    destruct (find_goal_point_spec D g Hs) as (q & Hgo & _).
    rewrite Hsp, Hgo in Hretry |- *. cbn [rbind].
    destruct (exceeds_quarter D _ && exceeds_quarter D _) eqn:Hfar;
      [|exact Hretry].
    apply andb_true_iff in Hfar as [Hf1 Hf2].
    apply exceeds_quarter_iff in Hf1, Hf2.
    exists (x, y), r2. split; [reflexivity|]. split; [lia|]. left.
    split; [unfold interior; simpl; lia|]. split; [assumption|].
    exists p, q. auto.
Qed.

(** One attempt of the search: the sample is returned if it qualifies, and
    the search goes on with one attempt less if it does not. *)
Lemma monster_attempt_step n D g r :
  3 <= D -> shape D g ->
  exists x r1 y r2,
    randint 1 (D - 2) r = Ok (x, r1) /\
    randint 1 (D - 2) r1 = Ok (y, r2) /\
    (length r <= length r2 + 2)%nat /\
    ((qualifies D g (x, y) /\
      monster_attempts (S n) D g r = Ok ((x, y), r2)) \/
     (~ qualifies D g (x, y) /\
      monster_attempts (S n) D g r = monster_attempts n D g r2)).
Proof.
  intros HD Hs.
  destruct (randint_ok 1 (D - 2) r ltac:(lia)) as (x & r1 & Hx & Hxr & Hl1).
  destruct (randint_ok 1 (D - 2) r1 ltac:(lia)) as (y & r2 & Hy & Hyr & Hl2).
  exists x, r1, y, r2. split; [assumption|]. split; [assumption|].
  split; [lia|].
  cbn [monster_attempts]. rewrite Hx. cbn [rbind]. rewrite Hy. cbn [rbind].
  rewrite is_valid_grid_pos_ok by assumption. cbn [rbind].
  destruct (is_path D g (x, y)) eqn:Hp.
  2:{ right. split; [|reflexivity]. intros (_ & Hq & _). congruence. }
  destruct (find_spawn_point_spec D g Hs) as (p & Hsp & _).
  destruct (find_goal_point_spec D g Hs) as (q & Hgo & _).
  rewrite Hsp, Hgo. cbn [rbind].
  destruct (exceeds_quarter D _ && exceeds_quarter D _) eqn:Hfar.
  - left. split; [|reflexivity].
    apply andb_true_iff in Hfar as [Hf1 Hf2].
    apply exceeds_quarter_iff in Hf1, Hf2.
    split; [unfold interior; simpl; lia|]. split; [assumption|].
    exists p, q. auto.
  - right. split; [|reflexivity].
    intros (_ & _ & p' & q' & Hsp' & Hgo' & Hf1 & Hf2).
    rewrite Hsp in Hsp'. rewrite Hgo in Hgo'.
    injection Hsp' as <-. injection Hgo' as <-.
    apply exceeds_quarter_iff in Hf1, Hf2.
    unfold manhattan in Hf1, Hf2. simpl in Hf1, Hf2.
    rewrite Hf1, Hf2 in Hfar. discriminate.
Qed.

Lemma monster_samples_step n D r x r1 y r2 :
  randint 1 (D - 2) r = Ok (x, r1) ->
  randint 1 (D - 2) r1 = Ok (y, r2) ->
  monster_samples (S n) D r
  = ('(cs, r') <- monster_samples n D r2 ;; Ok ((x, y) :: cs, r')).
Proof.
  intros Hx Hy. cbn [monster_samples]. rewrite Hx. cbn [rbind].
  rewrite Hy. reflexivity.
Qed.

(** The first sample that qualifies is the result. *)
Lemma first_qualifying_sample_returned D g :
  3 <= D -> shape D g ->
  forall cs n r c r',
    (length cs < n)%nat ->
    monster_samples (S (length cs)) D r = Ok (cs ++ [c], r') ->
    List.Forall (fun c' => ~ qualifies D g c') cs ->
    qualifies D g c ->
    monster_attempts n D g r = Ok (c, r').
Proof.
  intros HD Hs. induction cs as [|c0 cs IH]; intros n r c r' Hn Hsam Hrej Hq;
    (destruct n as [|n]; [simpl in Hn; lia|]);
    destruct (monster_attempt_step n D g r HD Hs)
      as (x & r1 & y & r2 & Hx & Hy & _ & Hstep);
    rewrite (monster_samples_step _ D r x r1 y r2 Hx Hy) in Hsam.
  - cbn in Hsam. injection Hsam as <- <-.
    destruct Hstep as [[_ Hret]|[Hno _]]; [assumption|contradiction].
  - apply rbind_ok in Hsam as ([cs' r''] & Hrest & Hsam).
    cbn in Hsam. injection Hsam as <- -> <-.
    inversion Hrej as [|? ? Hrej0 Hrej']; subst.
    destruct Hstep as [[Hyes _]|[_ Hgo]]; [contradiction|].
    rewrite Hgo. apply IH; [simpl in Hn; lia|assumption..].
Qed.

(** When no sample qualifies the result is the centre, whatever the grid
    holds there. *)
Lemma exhausted_search_returns_centre D g :
  3 <= D -> shape D g ->
  forall n r cs r',
    monster_samples n D r = Ok (cs, r') ->
    List.Forall (fun c' => ~ qualifies D g c') cs ->
    monster_attempts n D g r = Ok ((D / 2, D / 2), r').
Proof.
  intros HD Hs. induction n as [|n IH]; intros r cs r' Hsam Hrej.
  - cbn in Hsam. injection Hsam as <- <-. reflexivity.
  - destruct (monster_attempt_step n D g r HD Hs)
      as (x & r1 & y & r2 & Hx & Hy & _ & Hstep).
    rewrite (monster_samples_step _ D r x r1 y r2 Hx Hy) in Hsam.
    apply rbind_ok in Hsam as ([cs' r''] & Hrest & Hsam).
    cbn in Hsam. injection Hsam as <- <-.
    inversion Hrej as [|? ? Hrej0 Hrej']; subst.
    destruct Hstep as [[Hyes _]|[_ Hgo]]; [contradiction|].
    rewrite Hgo. eapply IH; eassumption.
Qed.

(** The search returns, and its result is one of the two above. *)
Lemma monster_attempts_first_or_centre D g :
  3 <= D -> shape D g ->
  forall n r,
  exists c r',
    monster_attempts n D g r = Ok (c, r') /\
    (length r <= length r' + 2 * n)%nat /\
    ((exists cs,
        (length cs < n)%nat /\
        monster_samples (S (length cs)) D r = Ok (cs ++ [c], r') /\
        List.Forall (fun c' => ~ qualifies D g c') cs /\
        qualifies D g c)
     \/
     (exists cs,
        monster_samples n D r = Ok (cs, r') /\ length cs = n /\
        List.Forall (fun c' => ~ qualifies D g c') cs /\
        c = (D / 2, D / 2))).
Proof.
  intros HD Hs. induction n as [|n IH]; intros r.
  - exists (D / 2, D / 2), r. split; [reflexivity|]. split; [lia|].
    right. exists []. auto.
  - destruct (monster_attempt_step n D g r HD Hs)
      as (x & r1 & y & r2 & Hx & Hy & Hlen & Hstep).
    destruct Hstep as [[Hyes Hret]|[Hno Hgo]].
    + exists (x, y), r2. split; [assumption|]. split; [lia|].
      left. exists []. split; [simpl; lia|].
      split; [|split; [constructor|assumption]].
      cbn [length]. rewrite (monster_samples_step _ D r x r1 y r2 Hx Hy).
      reflexivity.
    + destruct (IH r2) as (c & r' & Hrec & Hl & Hc).
      exists c, r'. rewrite Hgo. split; [assumption|]. split; [lia|].
      destruct Hc as [(cs & Hk & Hsam & Hrej & Hq)|(cs & Hsam & Hk & Hrej & ->)].
      * left. exists ((x, y) :: cs). split; [simpl; lia|].
        split; [|split; [constructor; assumption|assumption]].
        cbn [length].
        rewrite (monster_samples_step _ D r x r1 y r2 Hx Hy), Hsam.
        reflexivity.
      * right. exists ((x, y) :: cs).
        rewrite (monster_samples_step _ D r x r1 y r2 Hx Hy), Hsam.
        split; [reflexivity|]. split; [simpl; lia|].
        split; [constructor; assumption|reflexivity].
Qed.

(** * The claims about the maze *)

Lemma generate_random_maze_returns cfg fuel self r :
  3 <= dimension self -> Z.odd (dimension self) = true ->
  (Z.to_nat (dimension self * dimension self) <= fuel)%nat ->
  exists self' r', generate_random_maze cfg fuel self r = Ok (self', r').
Proof.
  intros HD Hodd Hfuel.
  destruct (generate_random_maze_ok cfg fuel self r HD Hodd Hfuel)
    as (s & r1 & self' & r' & _ & Hgen & _).
  eauto.
Qed.

(** C1.  For every odd dimension D >= 3 maze generation returns a grid (for
    every recursion budget of at least D * D), and every grid it returns is
    a perfect maze: the carving start cell is a Path cell (so the set of
    Path cells is not empty), every Path cell is reachable from the start
    cell through orthogonally adjacent Path cells, and the number of
    adjacent Path-Path pairs is the number of Path cells minus one (no
    cycles). *)
Theorem generated_maze_is_perfect cfg fuel self r :
  3 <= dimension self -> Z.odd (dimension self) = true ->
  ((Z.to_nat (dimension self * dimension self) <= fuel)%nat ->
   exists self' r', generate_random_maze cfg fuel self r = Ok (self', r')) /\
  (forall self' r',
     generate_random_maze cfg fuel self r = Ok (self', r') ->
     exists start r1,
       pick_start (dimension self) r = Ok (start, r1) /\
       perfect_maze (dimension self) (maze_grid self') start).
Proof.
  intros HD Hodd. split.
  - now apply generate_random_maze_returns.
  - intros self' r' Hgen.
    destruct (generated_grid_inv cfg fuel self r self' r' HD Hodd Hgen)
      as (s & r1 & Hpick & _ & _ & Hinv).
    exists s, r1. split; [assumption|].
    split; [apply Hinv|]. split; [apply Hinv|apply Hinv].
Qed.

Lemma generated_maze_is_perfect_witness :
  (exists self' r',
     generate_random_maze GameConfig_init 25
       (TerrainMazeGenerator_init 5 1 1 0) [1%nat; 0%nat; 2%nat]
     = Ok (self', r')) /\
  (exists start r1,
     pick_start 5 [1%nat; 0%nat; 2%nat] = Ok (start, r1) /\
     perfect_maze 5 (maze_grid (fst generated_sample)) start).
Proof.
  destruct (generated_maze_is_perfect GameConfig_init 25
              (TerrainMazeGenerator_init 5 1 1 0) [1%nat; 0%nat; 2%nat])
    as [Hreturns Hperfect].
  - simpl. lia.
  - reflexivity.
  - split.
    + apply Hreturns. simpl. lia.
    + apply (Hperfect (fst generated_sample) (snd generated_sample)).
      vm_compute. reflexivity.
Defined.

(** C9.  For every odd dimension D >= 3, in every generated grid every Path
    cell has both coordinates in [1, D-2] and at least one odd coordinate;
    equivalently every cell of the outer ring and every cell with two even
    coordinates is still Wall. *)
Theorem generated_paths_are_interior_and_odd cfg fuel self r :
  3 <= dimension self -> Z.odd (dimension self) = true ->
  ((Z.to_nat (dimension self * dimension self) <= fuel)%nat ->
   exists self' r', generate_random_maze cfg fuel self r = Ok (self', r')) /\
  (forall self' r',
     generate_random_maze cfg fuel self r = Ok (self', r') ->
     let D := dimension self in
     let g := maze_grid self' in
     (forall x y, is_path D g (x, y) = true ->
        1 <= x <= D - 2 /\ 1 <= y <= D - 2 /\
        (Z.odd x = true \/ Z.odd y = true)) /\
     (forall x y, 0 <= x < D -> 0 <= y < D ->
        x = 0 \/ x = D - 1 \/ y = 0 \/ y = D - 1 \/
        (Z.even x = true /\ Z.even y = true) ->
        is_wall_cell g (x, y) = true)).
Proof.
  intros HD Hodd. split; [now apply generate_random_maze_returns|].
  intros self' r' Hgen.
  destruct (generated_grid_inv cfg fuel self r self' r' HD Hodd Hgen)
    as (s & r1 & _ & _ & _ & Hinv).
  cbv zeta. pose proof (ci_shape _ _ _ Hinv) as Hs. split.
  - intros x y Hp. apply (is_path_iff _ _ _ _ Hs) in Hp as (Hx & Hy & H0).
    now apply (ci_room _ _ _ Hinv).
  - intros x y Hx Hy Hc.
    rewrite (is_wall_cell_in_range (dimension self)) by assumption.
    apply Z.eqb_eq.
    destruct (ci_bin _ _ _ Hinv x y Hx Hy) as [H0|H1]; [|assumption].
    destruct (ci_room _ _ _ Hinv x y Hx Hy H0) as (Hx' & Hy' & Hpar).
    rewrite <- !Z.negb_odd, !negb_true_iff in Hc.
    destruct Hc as [?|[?|[?|[?|[? ?]]]]]; try lia.
    destruct Hpar; congruence.
Qed.

Lemma generated_paths_are_interior_and_odd_witness :
  (exists self' r',
     generate_random_maze GameConfig_init 25
       (TerrainMazeGenerator_init 5 1 1 0) [1%nat; 0%nat; 2%nat]
     = Ok (self', r')) /\
  (let D := 5 in
   let g := maze_grid (fst generated_sample) in
   (forall x y, is_path D g (x, y) = true ->
      1 <= x <= D - 2 /\ 1 <= y <= D - 2 /\
      (Z.odd x = true \/ Z.odd y = true)) /\
   (forall x y, 0 <= x < D -> 0 <= y < D ->
      x = 0 \/ x = D - 1 \/ y = 0 \/ y = D - 1 \/
      (Z.even x = true /\ Z.even y = true) ->
      is_wall_cell g (x, y) = true)).
Proof.
  destruct (generated_paths_are_interior_and_odd GameConfig_init 25
              (TerrainMazeGenerator_init 5 1 1 0) [1%nat; 0%nat; 2%nat])
    as [Hreturns Hplaced].
  - simpl. lia.
  - reflexivity.
  - split.
    + apply Hreturns. simpl. lia.
    + apply (Hplaced (fst generated_sample) (snd generated_sample)).
      vm_compute. reflexivity.
Defined.

(** C10.  For every odd dimension D >= 3 whose half D // 2 is even, the cell
    (D // 2, D // 2) that [find_monster_spawn_point] returns when its
    attempts are exhausted has two even coordinates and is a Wall cell, not
    a Path cell, of every generated grid.  The default configuration is such
    a dimension: 20 is made 21, and 21 // 2 = 10. *)
Theorem monster_fallback_cell_is_wall cfg fuel self r :
  3 <= dimension self -> Z.odd (dimension self) = true ->
  Z.even (dimension self / 2) = true ->
  ((Z.to_nat (dimension self * dimension self) <= fuel)%nat ->
   exists self' r', generate_random_maze cfg fuel self r = Ok (self', r')) /\
  (forall self' r',
     generate_random_maze cfg fuel self r = Ok (self', r') ->
     let D := dimension self in
     let g := maze_grid self' in
     (forall rm, monster_attempts 0 D g rm = Ok ((D / 2, D / 2), rm)) /\
     is_wall_cell g (D / 2, D / 2) = true /\
     is_path D g (D / 2, D / 2) = false) /\
  MAZE_DIMENSION GameConfig_init = 21 /\
  Z.odd (MAZE_DIMENSION GameConfig_init) = true /\
  MAZE_DIMENSION GameConfig_init / 2 = 10.
Proof.
  intros HD Hodd Heven.
  split; [now apply generate_random_maze_returns|].
  split; [|repeat split; reflexivity].
  intros self' r' Hgen.
  destruct (generated_grid_inv cfg fuel self r self' r' HD Hodd Hgen)
    as (s & r1 & _ & _ & _ & Hinv).
  cbv zeta. pose proof (ci_shape _ _ _ Hinv) as Hs.
  rewrite <- Z.negb_odd, negb_true_iff in Heven.
  assert (Hnp : is_path (dimension self) (maze_grid self')
                  (dimension self / 2, dimension self / 2) = false).
  { eapply even_even_not_path; eauto. }
  split; [reflexivity|]. split; [|assumption].
  assert (Hr : 0 <= dimension self / 2 < dimension self) by lia.
  rewrite (is_wall_cell_in_range (dimension self)) by assumption.
  apply Z.eqb_eq.
  apply (is_path_false_iff _ _ _ _ Hs Hr Hr) in Hnp.
  destruct (ci_bin _ _ _ Hinv _ _ Hr Hr); [contradiction|assumption].
Qed.

Lemma monster_fallback_cell_is_wall_witness :
  (exists self' r',
     generate_random_maze GameConfig_init 25
       (TerrainMazeGenerator_init 5 1 1 0) [1%nat; 0%nat; 2%nat]
     = Ok (self', r')) /\
  (let D := 5 in
   let g := maze_grid (fst generated_sample) in
   (forall rm, monster_attempts 0 D g rm = Ok ((D / 2, D / 2), rm)) /\
   is_wall_cell g (D / 2, D / 2) = true /\
   is_path D g (D / 2, D / 2) = false) /\
  MAZE_DIMENSION GameConfig_init = 21 /\
  Z.odd (MAZE_DIMENSION GameConfig_init) = true /\
  MAZE_DIMENSION GameConfig_init / 2 = 10.
Proof.
  destruct (monster_fallback_cell_is_wall GameConfig_init 25
              (TerrainMazeGenerator_init 5 1 1 0) [1%nat; 0%nat; 2%nat])
    as (Hreturns & Hwall & Hdefault).
  - simpl. lia.
  - reflexivity.
  - reflexivity.
  - split; [|split].
    + apply Hreturns. simpl. lia.
    + apply (Hwall (fst generated_sample) (snd generated_sample)).
      vm_compute. reflexivity.
    + exact Hdefault.
Defined.

(** C3.  On every well-shaped grid [find_spawn_point] returns the first
    interior Path cell scanning rows top to bottom and columns left to right
    (and (1, 1) only if the interior has no Path cell), and
    [find_goal_point] returns the first interior Path cell in the reversed
    scan order (fallback (D-2, D-2)).  On every grid produced by maze
    generation both returned coordinates are Path cells. *)
Theorem spawn_and_goal_are_first_path_cells D :
  (forall g, shape D g ->
     exists p q,
       find_spawn_point D g = Ok p /\ find_goal_point D g = Ok q /\
       first_path Z.lt (1, 1) D g p /\
       first_path Z.gt (D - 2, D - 2) D g q) /\
  (forall cfg fuel self r self' r',
     dimension self = D -> 3 <= D -> Z.odd D = true ->
     generate_random_maze cfg fuel self r = Ok (self', r') ->
     exists p q,
       find_spawn_point D (maze_grid self') = Ok p /\
       find_goal_point D (maze_grid self') = Ok q /\
       first_path Z.lt (1, 1) D (maze_grid self') p /\
       first_path Z.gt (D - 2, D - 2) D (maze_grid self') q /\
       is_path D (maze_grid self') p = true /\
       is_path D (maze_grid self') q = true).
Proof.
  split.
  - intros g Hs.
    destruct (find_spawn_point_spec D g Hs) as (p & Hp & Hfp).
    destruct (find_goal_point_spec D g Hs) as (q & Hq & Hfq).
    exists p, q. auto.
  - intros cfg fuel self r self' r' <- HD Hodd Hgen.
    destruct (generated_grid_inv cfg fuel self r self' r' HD Hodd Hgen)
      as (s & r1 & _ & _ & Hint & Hinv).
    pose proof (ci_shape _ _ _ Hinv) as Hs.
    destruct (find_spawn_point_spec _ _ Hs) as (p & Hp & Hfp).
    destruct (find_goal_point_spec _ _ Hs) as (q & Hq & Hfq).
    exists p, q. do 4 (split; [assumption|]).
    pose proof (ci_start _ _ _ Hinv) as Hstart.
    split.
    + eapply first_path_found; eauto.
    + eapply first_path_found; eauto.
Qed.

Lemma spawn_and_goal_are_first_path_cells_witness :
  (exists p q,
     find_spawn_point 3 [[1; 1; 1]; [1; 0; 1]; [1; 1; 1]] = Ok p /\
     find_goal_point 3 [[1; 1; 1]; [1; 0; 1]; [1; 1; 1]] = Ok q /\
     first_path Z.lt (1, 1) 3 [[1; 1; 1]; [1; 0; 1]; [1; 1; 1]] p /\
     first_path Z.gt (3 - 2, 3 - 2) 3 [[1; 1; 1]; [1; 0; 1]; [1; 1; 1]] q) /\
  (exists p q,
     find_spawn_point 5 (maze_grid (fst generated_sample)) = Ok p /\
     find_goal_point 5 (maze_grid (fst generated_sample)) = Ok q /\
     first_path Z.lt (1, 1) 5 (maze_grid (fst generated_sample)) p /\
     first_path Z.gt (5 - 2, 5 - 2) 5 (maze_grid (fst generated_sample)) q /\
     is_path 5 (maze_grid (fst generated_sample)) p = true /\
     is_path 5 (maze_grid (fst generated_sample)) q = true).
Proof.
  split.
  - apply (proj1 (spawn_and_goal_are_first_path_cells 3)).
    split; [reflexivity|]. repeat constructor.
  - apply (proj2 (spawn_and_goal_are_first_path_cells 5) GameConfig_init 25%nat
             (TerrainMazeGenerator_init 5 1 1 0) [1%nat; 0%nat; 2%nat]
             (fst generated_sample) (snd generated_sample)).
    + reflexivity.
    + lia.
    + reflexivity.
    + vm_compute. reflexivity.
Defined.

(** C4.  [find_monster_spawn_point] draws at most 100 samples (two random
    numbers each) and returns.  Its result is the first sample that
    qualifies, that is, an interior Path cell whose Manhattan distances to
    the results of [find_spawn_point] and [find_goal_point] both exceed
    D / 4, all samples before it having been rejected; or, when none of the
    100 samples qualifies, the centre (D // 2, D // 2).  Conversely the
    first qualifying sample among the 100 is always the result, and on
    exhaustion the centre is returned whatever the grid holds there: there
    is a grid on which it is returned although it is neither a Path cell
    nor far from the player. *)
Theorem monster_spawn_is_far_path_cell_or_centre D g r :
  3 <= D -> shape D g ->
  (exists c r',
     find_monster_spawn_point D g r = Ok (c, r') /\
     (length r <= length r' + 2 * 100)%nat /\
     ((exists cs,
         (length cs < 100)%nat /\
         monster_samples (S (length cs)) D r = Ok (cs ++ [c], r') /\
         List.Forall (fun c' => ~ qualifies D g c') cs /\
         interior D c /\ is_path D g c = true /\
         exists p q,
           find_spawn_point D g = Ok p /\ find_goal_point D g = Ok q /\
           (inject_Z D / 4 < inject_Z (manhattan c p))%Q /\
           (inject_Z D / 4 < inject_Z (manhattan c q))%Q)
      \/
      (exists cs,
         monster_samples 100 D r = Ok (cs, r') /\ length cs = 100%nat /\
         List.Forall (fun c' => ~ qualifies D g c') cs /\
         c = (D / 2, D / 2)))) /\
  (forall cs c r',
     (length cs < 100)%nat ->
     monster_samples (S (length cs)) D r = Ok (cs ++ [c], r') ->
     List.Forall (fun c' => ~ qualifies D g c') cs ->
     qualifies D g c ->
     find_monster_spawn_point D g r = Ok (c, r')) /\
  (forall cs r',
     monster_samples 100 D r = Ok (cs, r') ->
     List.Forall (fun c' => ~ qualifies D g c') cs ->
     find_monster_spawn_point D g r = Ok ((D / 2, D / 2), r')) /\
  (forall g0 r0, monster_attempts 0 D g0 r0 = Ok ((D / 2, D / 2), r0)) /\
  (exists g0 r0 r0' p,
     shape 5 g0 /\
     find_monster_spawn_point 5 g0 r0 = Ok ((5 / 2, 5 / 2), r0') /\
     is_path 5 g0 (5 / 2, 5 / 2) = false /\
     find_spawn_point 5 g0 = Ok p /\
     exceeds_quarter 5 (manhattan (5 / 2, 5 / 2) p) = false).
Proof.
  intros HD Hs. split; [|split; [|split; [|split]]].
  - apply (monster_attempts_first_or_centre D g HD Hs 100 r).
  - intros cs c r'. apply first_qualifying_sample_returned; assumption.
  - intros cs r'. apply exhausted_search_returns_centre; assumption.
  - reflexivity.
  - exists [[1; 1; 1; 1; 1]; [1; 1; 0; 1; 1]; [1; 1; 1; 1; 1];
            [1; 1; 1; 1; 1]; [1; 1; 1; 1; 1]], [], [], (2, 1).
    split; [split; [reflexivity|repeat constructor]|].
    split; [vm_compute; reflexivity|].
    split; [reflexivity|]. split; reflexivity.
Qed.

Lemma monster_spawn_is_far_path_cell_or_centre_witness :
  (exists c r',
     find_monster_spawn_point 5 open_grid [2%nat; 0%nat; 1%nat] = Ok (c, r') /\
     (length [2%nat; 0%nat; 1%nat] <= length r' + 2 * 100)%nat /\
     ((exists cs,
         (length cs < 100)%nat /\
         monster_samples (S (length cs)) 5 [2%nat; 0%nat; 1%nat]
         = Ok (cs ++ [c], r') /\
         List.Forall (fun c' => ~ qualifies 5 open_grid c') cs /\
         interior 5 c /\ is_path 5 open_grid c = true /\
         exists p q,
           find_spawn_point 5 open_grid = Ok p /\
           find_goal_point 5 open_grid = Ok q /\
           (inject_Z 5 / 4 < inject_Z (manhattan c p))%Q /\
           (inject_Z 5 / 4 < inject_Z (manhattan c q))%Q)
      \/
      (exists cs,
         monster_samples 100 5 [2%nat; 0%nat; 1%nat] = Ok (cs, r') /\
         length cs = 100%nat /\
         List.Forall (fun c' => ~ qualifies 5 open_grid c') cs /\
         c = (5 / 2, 5 / 2)))) /\
  (forall cs c r',
     (length cs < 100)%nat ->
     monster_samples (S (length cs)) 5 [2%nat; 0%nat; 1%nat]
     = Ok (cs ++ [c], r') ->
     List.Forall (fun c' => ~ qualifies 5 open_grid c') cs ->
     qualifies 5 open_grid c ->
     find_monster_spawn_point 5 open_grid [2%nat; 0%nat; 1%nat] = Ok (c, r')) /\
  (forall cs r',
     monster_samples 100 5 [2%nat; 0%nat; 1%nat] = Ok (cs, r') ->
     List.Forall (fun c' => ~ qualifies 5 open_grid c') cs ->
     find_monster_spawn_point 5 open_grid [2%nat; 0%nat; 1%nat]
     = Ok ((5 / 2, 5 / 2), r')) /\
  (forall g0 r0, monster_attempts 0 5 g0 r0 = Ok ((5 / 2, 5 / 2), r0)) /\
  (exists g0 r0 r0' p,
     shape 5 g0 /\
     find_monster_spawn_point 5 g0 r0 = Ok ((5 / 2, 5 / 2), r0') /\
     is_path 5 g0 (5 / 2, 5 / 2) = false /\
     find_spawn_point 5 g0 = Ok p /\
     exceeds_quarter 5 (manhattan (5 / 2, 5 / 2) p) = false).
Proof.
  apply (monster_spawn_is_far_path_cell_or_centre 5 open_grid
           [2%nat; 0%nat; 1%nat]).
  - lia.
  - split; [reflexivity|]. repeat constructor.
Defined.

Lemma in_side_face e w f f' :
  In f (side_face e w f') <-> e = true /\ w = true /\ f' = f.
Proof.
  unfold side_face. destruct e, w; simpl; intuition congruence.
Qed.

(** C5.  For every cell of a well-shaped grid and every side (north, south,
    east, west) the mesh builder emits a vertical side quad for that cell
    and side if and only if the cell is Wall and the neighbour on that side
    is Path or the cell lies on that edge of the grid.  Every cell gets
    exactly one top quad, first; a Wall cell off the boundary whose four
    neighbours are Wall gets the top quad only. *)
Theorem side_quad_iff_exposed_wall cfg self z x :
  shape (dimension self) (maze_grid self) ->
  0 <= z < dimension self -> 0 <= x < dimension self ->
  exists qs,
    cell_quads cfg self z x = Ok qs /\
    (forall f, f <> Top ->
       emits qs f <->
       is_wall_cell (maze_grid self) (x, z) = true /\
       (is_path (dimension self) (maze_grid self) (neighbour f (x, z)) = true
        \/ on_edge (dimension self) f (x, z) = true)) /\
    (exists rest, map quad_face qs = Top :: rest /\ ~ In Top rest) /\
    (is_wall_cell (maze_grid self) (x, z) = true ->
     (forall f, f <> Top ->
        is_wall_cell (maze_grid self) (neighbour f (x, z)) = true) ->
     0 < z < dimension self - 1 -> 0 < x < dimension self - 1 ->
     map quad_face qs = [Top]).
Proof.
  intros Hs Hz Hx.
  destruct (cell_quads_faces cfg self z x Hs Hz Hx) as (qs & Hqs & Hfaces).
  cbv zeta in Hfaces. exists qs. split; [assumption|].
  assert (Hemit : forall f, emits qs f <-> In f (map quad_face qs)).
  { intros f. unfold emits. rewrite in_map_iff. firstorder. }
  split; [|split].
  - intros f Hf. rewrite Hemit, Hfaces.
    cbn [In]. rewrite !in_app_iff, !in_side_face.
    unfold exposed. rewrite !orb_true_iff.
    destruct f; try contradiction; cbn [neighbour on_edge];
      intuition congruence.
  - eexists. split; [exact Hfaces|].
    rewrite !in_app_iff, !in_side_face. intuition congruence.
  - intros Hw Hn Hz' Hx'. rewrite Hfaces. unfold side_face, exposed.
    assert (Hnp : forall f, f <> Top ->
              is_path (dimension self) (maze_grid self) (neighbour f (x, z))
              = false).
    { intros f Hf. specialize (Hn f Hf).
      destruct f; try contradiction; simpl in *;
        rewrite (is_wall_cell_in_range (dimension self)) in Hn
          by (assumption || lia);
        rewrite (is_path_in_range (dimension self)) by (assumption || lia);
        apply Z.eqb_eq in Hn; rewrite Hn; reflexivity. }
    rewrite !Hnp by discriminate. simpl.
    destruct (Z.eqb_spec z (dimension self - 1)); [lia|].
    destruct (Z.eqb_spec z 0); [lia|].
    destruct (Z.eqb_spec x (dimension self - 1)); [lia|].
    destruct (Z.eqb_spec x 0); [lia|]. reflexivity.
Qed.

Lemma side_quad_iff_exposed_wall_witness :
  exists qs,
    cell_quads GameConfig_init
      (set_maze_grid (TerrainMazeGenerator_init 3 1 1 0)
         [[1; 1; 1]; [1; 0; 1]; [1; 1; 1]]) 0 1 = Ok qs /\
    (forall f, f <> Top ->
       emits qs f <->
       is_wall_cell [[1; 1; 1]; [1; 0; 1]; [1; 1; 1]] (1, 0) = true /\
       (is_path 3 [[1; 1; 1]; [1; 0; 1]; [1; 1; 1]] (neighbour f (1, 0)) = true
        \/ on_edge 3 f (1, 0) = true)) /\
    (exists rest, map quad_face qs = Top :: rest /\ ~ In Top rest) /\
    (is_wall_cell [[1; 1; 1]; [1; 0; 1]; [1; 1; 1]] (1, 0) = true ->
     (forall f, f <> Top ->
        is_wall_cell [[1; 1; 1]; [1; 0; 1]; [1; 1; 1]] (neighbour f (1, 0))
        = true) ->
     0 < 0 < 3 - 1 -> 0 < 1 < 3 - 1 ->
     map quad_face qs = [Top]).
Proof.
  apply (side_quad_iff_exposed_wall GameConfig_init
           (set_maze_grid (TerrainMazeGenerator_init 3 1 1 0)
              [[1; 1; 1]; [1; 0; 1]; [1; 1; 1]]) 0 1).
  - split; [reflexivity|]. repeat constructor.
  - simpl. lia.
  - simpl. lia.
Defined.

(** * The claims about the entities *)

Section PlayerClaims.
Context `{Engine}.
Variable cfg : GameConfig.

Lemma take_damage_invulnerable game p amount :
  player game = Some p -> is_invulnerable p = true ->
  take_damage cfg amount game = game.
Proof.
  intros Hp Hinv. unfold take_damage. now rewrite Hp, Hinv.
Qed.

Lemma take_damage_non_fatal game p amount :
  player game = Some p -> is_invulnerable p = false ->
  0 < current_health p - amount ->
  exists p',
    player (take_damage cfg amount game) = Some p' /\
    current_health p' = current_health p - amount /\
    is_invulnerable p' = true /\
    _invulnerability_timer p' = PLAYER_HIT_INVULNERABILITY_TIME cfg.
Proof.
  intros Hp Hinv Hh. unfold take_damage. rewrite Hp, Hinv. cbn [negb].
  destruct (Z.leb_spec (current_health p - amount) 0); [lia|].
  eexists. cbn [player game_with]. split; [reflexivity|].
  cbn. auto.
Qed.

Lemma elapsed_nonneg evs :
  Forall forward_in_time evs -> (0 <= elapsed evs)%Q.
Proof.
  induction 1 as [|e evs He _ IH]; simpl; [lra|].
  destruct e; simpl in *; lra.
Qed.

Lemma invulnerable_through_window evs : forall game p,
  player game = Some p -> is_invulnerable p = true ->
  Forall forward_in_time evs ->
  (elapsed evs < _invulnerability_timer p)%Q ->
  exists p',
    player (run_player_events cfg evs game) = Some p' /\
    current_health p' = current_health p /\ is_invulnerable p' = true.
Proof.
  induction evs as [|e evs IH]; intros game p Hp Hinv Hfw Hel.
  - exists p. auto.
  - inversion Hfw as [|? ? He Hfw']; subst. destruct e as [amount|dt].
    + cbn [run_player_events].
      rewrite (take_damage_invulnerable game p amount Hp Hinv).
      now apply IH.
    + cbn [run_player_events elapsed] in *. simpl in He.
      pose proof (elapsed_nonneg evs Hfw') as Hnn.
      unfold player_frame. rewrite Hp.
      destruct (player_enabled p); [|now apply IH; try lra].
      assert (Hpos : Qle_bool (_invulnerability_timer p - dt) 0 = false).
      { apply not_true_iff_false. rewrite Qle_bool_iff. lra. }
      destruct (IH (game_with game (current_state game)
                      (Some (Player_update dt p)) (goal game) (monster game)
                      (maze_generator game) (ui_manager game)
                      (projectiles game)) (Player_update dt p))
        as (p' & Hp' & Hh' & Hi'); try assumption.
      * reflexivity.
      * unfold Player_update. rewrite Hinv. cbn. now rewrite Hpos.
      * unfold Player_update. rewrite Hinv. cbn. lra.
      * exists p'. split; [assumption|]. split; [|assumption].
        rewrite Hh'. unfold Player_update. rewrite Hinv. reflexivity.
Qed.

(** C8.  Health is decremented at most once per invulnerability window: a
    [take_damage] call on an invulnerable player changes nothing; a
    non-fatal decrement makes the player invulnerable with the timer set to
    the configured duration; as long as the frames since then add up to less
    than the timer, further hits leave the health unchanged.  With health 3
    and a window of 1.0 s, two hits 0.5 s apart leave health 2. *)
Theorem damage_once_per_invulnerability_window :
  (forall game p amount,
     player game = Some p -> is_invulnerable p = true ->
     take_damage cfg amount game = game) /\
  (forall game p amount,
     player game = Some p -> is_invulnerable p = false ->
     0 < current_health p - amount ->
     exists p',
       player (take_damage cfg amount game) = Some p' /\
       current_health p' = current_health p - amount /\
       is_invulnerable p' = true /\
       _invulnerability_timer p' = PLAYER_HIT_INVULNERABILITY_TIME cfg) /\
  (forall evs game p,
     player game = Some p -> is_invulnerable p = true ->
     Forall forward_in_time evs ->
     (elapsed evs < _invulnerability_timer p)%Q ->
     exists p',
       player (run_player_events cfg evs game) = Some p' /\
       current_health p' = current_health p /\ is_invulnerable p' = true) /\
  (forall game position,
     PLAYER_MAX_HEALTH cfg = 3 ->
     PLAYER_HIT_INVULNERABILITY_TIME cfg = 1%Q ->
     player game = Some (Player_init cfg position) ->
     option_map current_health
       (player (run_player_events cfg
                  [Damage 1; Frame (1 # 2); Damage 1] game))
     = Some 2).
Proof.
  split; [exact take_damage_invulnerable|].
  split; [exact take_damage_non_fatal|].
  split; [intros evs game p; apply invulnerable_through_window|].
  intros game position Hmax Htime Hp.
  destruct (take_damage_non_fatal game _ 1 Hp eq_refl) as (p1 & Hp1 & Hh1 & Hi1 & Ht1).
  { cbn. lia. }
  change (run_player_events cfg [Damage 1; Frame (1 # 2); Damage 1] game)
    with (run_player_events cfg [Frame (1 # 2); Damage 1]
            (take_damage cfg 1 game)).
  destruct (invulnerable_through_window [Frame (1 # 2); Damage 1]
              (take_damage cfg 1 game) p1 Hp1 Hi1) as (p2 & Hp2 & Hh2 & _).
  - repeat constructor. simpl. lra.
  - rewrite Ht1, Htime. simpl. lra.
  - rewrite Hp2. simpl. f_equal. rewrite Hh2, Hh1. cbn. lia.
Qed.
End PlayerClaims.

Lemma damage_once_per_invulnerability_window_witness :
  take_damage (H := sample_engine) GameConfig_init 1
    (sample_game (Some hurt_player) None)
  = sample_game (Some hurt_player) None /\
  (exists p',
     player (take_damage (H := sample_engine) GameConfig_init 1
               (sample_game (Some sample_player) None)) = Some p' /\
     current_health p' = current_health sample_player - 1 /\
     is_invulnerable p' = true /\
     _invulnerability_timer p'
     = PLAYER_HIT_INVULNERABILITY_TIME GameConfig_init) /\
  (exists p',
     player (run_player_events (H := sample_engine) GameConfig_init
               [Frame (1 # 4); Damage 1; Frame (1 # 2); Damage 1]
               (sample_game (Some hurt_player) None)) = Some p' /\
     current_health p' = current_health hurt_player /\
     is_invulnerable p' = true) /\
  option_map current_health
    (player (run_player_events (H := sample_engine) GameConfig_init
               [Damage 1; Frame (1 # 2); Damage 1]
               (sample_game (Some sample_player) None)))
  = Some 2.
Proof.
  pose proof (damage_once_per_invulnerability_window (H := sample_engine)
                GameConfig_init) as (H1 & H2 & H3 & H4).
  split; [|split; [|split]].
  - apply (H1 _ hurt_player); reflexivity.
  - apply (H2 _ sample_player); reflexivity.
  - apply (H3 _ _ hurt_player); [reflexivity|reflexivity| |reflexivity].
    repeat constructor; discriminate.
  - apply (H4 _ (mkVec3 0 (1 # 2) 0)); reflexivity.
Defined.

Section MonsterClaims.
Context `{Engine}.
Variable cfg : GameConfig.

Lemma Qle_bool_false a b : Qle_bool a b = false <-> (b < a)%Q.
Proof.
  rewrite <- not_true_iff_false, Qle_bool_iff. split.
  - apply Qnot_le_lt.
  - apply Qlt_not_le.
Qed.

Lemma Qlt_bool_true a b : Qlt_bool a b = true <-> (a < b)%Q.
Proof. unfold Qlt_bool. rewrite negb_true_iff. apply Qle_bool_false. Qed.

Lemma update_when_playing game :
  current_state game = PLAYING ->
  negb (GameState_eqb (current_state game) PLAYING) = false.
Proof. intros ->. reflexivity. Qed.

(** While the wind-up timer stays positive. *)
Lemma windup_continues game dt m :
  current_state game = PLAYING -> _is_winding_up_attack m = true ->
  (0 < _attack_windup_timer m - dt)%Q ->
  exists m',
    Monster_update cfg game dt m = Ok (m', []) /\
    _attack_windup_timer m' = (_attack_windup_timer m - dt)%Q /\
    monster_position m' = monster_position m /\
    _attack_cooldown_timer m' = _attack_cooldown_timer m /\
    _is_winding_up_attack m' = true /\
    target_for_attack m' = target_for_attack m /\
    monster_rotation m' =
      match available_player game with
      | Some p => look_at (monster_position m) (player_position p)
      | None => monster_rotation m
      end.
Proof.
  intros Hst Hw Hpos. unfold Monster_update.
  rewrite (update_when_playing game Hst), Hw.
  apply Qle_bool_false in Hpos. rewrite Hpos.
  destruct (available_player game) as [p|]; eexists;
    (split; [reflexivity|]); cbn; auto 10.
Qed.

(** The tick on which the wind-up timer runs out. *)
Lemma windup_fires game dt m t :
  current_state game = PLAYING -> _is_winding_up_attack m = true ->
  (_attack_windup_timer m - dt <= 0)%Q ->
  target_for_attack m = Some t ->
  exists m' shot,
    Monster_update cfg game dt m = Ok (m', [shot]) /\
    shot = MonsterProjectile_init cfg
             (vadd (monster_position m)
                   (vscale (forward (monster_rotation m))
                           (scale_x m / 2 + (1 # 10))%Q))
             (normalized (vsub t (monster_position m))) /\
    direction shot = normalized (normalized (vsub t (monster_position m))) /\
    _is_winding_up_attack m' = false /\
    _attack_cooldown_timer m' = MONSTER_ATTACK_COOLDOWN cfg /\
    target_for_attack m' = None /\
    monster_position m' = monster_position m /\
    monster_rotation m' = monster_rotation m.
Proof.
  intros Hst Hw Hle Ht. unfold Monster_update.
  rewrite (update_when_playing game Hst), Hw.
  apply Qle_bool_iff in Hle. rewrite Hle.
  unfold _execute_attack. cbn. rewrite Ht.
  eexists. eexists. split; [reflexivity|]. cbn. auto 10.
Qed.

(** Starting the wind-up. *)
Lemma attack_windup_starts game dt m p :
  current_state game = PLAYING -> _is_winding_up_attack m = false ->
  available_player game = Some p ->
  (distance (monster_position m) (player_position p)
   < MONSTER_VISION_RANGE cfg)%Q ->
  (_attack_cooldown_timer m - dt <= 0)%Q ->
  exists m',
    Monster_update cfg game dt m = Ok (m', []) /\
    _is_winding_up_attack m' = true /\
    _attack_windup_timer m' = MONSTER_ATTACK_WINDUP_TIME cfg /\
    target_for_attack m' = Some (player_position p) /\
    _attack_cooldown_timer m' = (_attack_cooldown_timer m - dt)%Q /\
    monster_position m' = monster_position m.
Proof.
  intros Hst Hw Hp Hd Hc. unfold Monster_update.
  rewrite (update_when_playing game Hst), Hw. cbn [monster_position monster_with].
  rewrite Hp. apply Qlt_bool_true in Hd. rewrite Hd.
  apply Qle_bool_iff in Hc. rewrite Hc. cbn [andb].
  unfold _start_attack_windup. rewrite Hp.
  eexists. split; [reflexivity|]. cbn. auto 10.
Qed.

(** A winding monster always holds a target: the flag is only raised by
    [_start_attack_windup], which stores one. *)
Lemma winding_has_target_kept game dt m m' shots :
  winding_has_target m ->
  Monster_update cfg game dt m = Ok (m', shots) ->
  winding_has_target m'.
Proof.
  unfold winding_has_target, Monster_update. intros Hinv.
  destruct (negb (GameState_eqb (current_state game) PLAYING)).
  { intros [= <- <-]. exact Hinv. }
  destruct (_is_winding_up_attack m) eqn:Hw.
  - destruct (Qle_bool (_attack_windup_timer m - dt) 0).
    + intros [= <- <-]. cbn. discriminate.
    + destruct (available_player game); intros [= <- <-]; cbn;
        intros _; now apply Hinv.
  - cbn [monster_position monster_with].
    destruct (_ && _).
    + intros [= <- <-]. cbn. eauto.
    + destruct (match available_player game with Some _ => _ | None => _ end).
      * unfold _chase_player. destruct (player game); [|discriminate].
        cbn. intros [= <- <-]. cbn. rewrite ?Hw. discriminate.
      * unfold _patrol. cbn.
        destruct (MONSTER_PATROL_TYPE cfg).
        -- destruct (target_position m); [|discriminate].
           cbn. intros [= <- <-]. cbn. rewrite ?Hw. discriminate.
        -- cbn. intros [= <- <-]. cbn. rewrite ?Hw. discriminate.
Qed.

Lemma start_windup_without_player game m :
  available_player game = None ->
  target_for_attack (_start_attack_windup cfg game m)
  = Some (vscale (forward (monster_rotation m)) 10).
Proof. intros Hp. unfold _start_attack_windup. now rewrite Hp. Qed.

(** C6, as the code has it.  For a monster that is winding up, in a game
    that is being played: every tick decrements the wind-up timer by [dt];
    while the decremented timer is positive the monster turns to the
    player's current position if the player is available (it keeps its
    orientation otherwise) and does not move, start a new attack, change its
    stored target or decrement the cooldown; on the tick where the timer
    reaches zero or less exactly one projectile is spawned, aimed at the
    target stored when the wind-up started, the wind-up ends and the
    cooldown is set to the configured attack cooldown.  A winding monster
    always holds a stored target. *)
Theorem windup_faces_player_and_fires_once game dt m :
  current_state game = PLAYING -> _is_winding_up_attack m = true ->
  ((0 < _attack_windup_timer m - dt)%Q ->
   exists m',
     Monster_update cfg game dt m = Ok (m', []) /\
     _attack_windup_timer m' = (_attack_windup_timer m - dt)%Q /\
     monster_position m' = monster_position m /\
     _attack_cooldown_timer m' = _attack_cooldown_timer m /\
     _is_winding_up_attack m' = true /\
     target_for_attack m' = target_for_attack m /\
     monster_rotation m' =
       match available_player game with
       | Some p => look_at (monster_position m) (player_position p)
       | None => monster_rotation m
       end) /\
  ((_attack_windup_timer m - dt <= 0)%Q ->
   forall t, target_for_attack m = Some t ->
   exists m' shot,
     Monster_update cfg game dt m = Ok (m', [shot]) /\
     shot = MonsterProjectile_init cfg
              (vadd (monster_position m)
                    (vscale (forward (monster_rotation m))
                            (scale_x m / 2 + (1 # 10))%Q))
              (normalized (vsub t (monster_position m))) /\
     direction shot = normalized (normalized (vsub t (monster_position m))) /\
     _is_winding_up_attack m' = false /\
     _attack_cooldown_timer m' = MONSTER_ATTACK_COOLDOWN cfg /\
     target_for_attack m' = None /\
     monster_position m' = monster_position m /\
     monster_rotation m' = monster_rotation m) /\
  (forall m' shots,
     winding_has_target m ->
     Monster_update cfg game dt m = Ok (m', shots) ->
     winding_has_target m').
Proof.
  intros Hst Hw. split; [|split].
  - now apply windup_continues.
  - intros Hle t Ht. now apply windup_fires.
  - intros m' shots. apply winding_has_target_kept.
Qed.
End MonsterClaims.

Section MonsterOnSampleEngine.
#[local] Existing Instance sample_engine.

Lemma windup_faces_player_and_fires_once_witness :
  (exists m',
     Monster_update (H := sample_engine) GameConfig_init
       (sample_game (Some moved_player) (Some winding_monster)) (1 # 2)
       winding_monster = Ok (m', []) /\
     _attack_windup_timer m' = (_attack_windup_timer winding_monster - (1 # 2))%Q /\
     monster_position m' = monster_position winding_monster /\
     _attack_cooldown_timer m' = _attack_cooldown_timer winding_monster /\
     _is_winding_up_attack m' = true /\
     target_for_attack m' = target_for_attack winding_monster /\
     monster_rotation m' =
       match available_player
               (sample_game (Some moved_player) (Some winding_monster)) with
       | Some p => look_at (monster_position winding_monster) (player_position p)
       | None => monster_rotation winding_monster
       end) /\
  (exists m' shot,
     Monster_update (H := sample_engine) GameConfig_init
       (sample_game (Some moved_player) (Some winding_monster)) 1
       winding_monster = Ok (m', [shot]) /\
     shot = MonsterProjectile_init GameConfig_init
              (vadd (monster_position winding_monster)
                    (vscale (forward (monster_rotation winding_monster))
                            (scale_x winding_monster / 2 + (1 # 10))%Q))
              (normalized
                 (vsub (mkVec3 3 (1 # 2) 0) (monster_position winding_monster))) /\
     direction shot
     = normalized
         (normalized
            (vsub (mkVec3 3 (1 # 2) 0) (monster_position winding_monster))) /\
     _is_winding_up_attack m' = false /\
     _attack_cooldown_timer m' = MONSTER_ATTACK_COOLDOWN GameConfig_init /\
     target_for_attack m' = None /\
     monster_position m' = monster_position winding_monster /\
     monster_rotation m' = monster_rotation winding_monster) /\
  (forall m' shots,
     Monster_update (H := sample_engine) GameConfig_init
       (sample_game (Some moved_player) (Some winding_monster)) (1 # 2)
       winding_monster = Ok (m', shots) ->
     winding_has_target m').
Proof.
  split; [|split].
  - apply (proj1 (windup_faces_player_and_fires_once (H := sample_engine)
                    GameConfig_init
                    (sample_game (Some moved_player) (Some winding_monster))
                    (1 # 2) winding_monster eq_refl eq_refl)).
    reflexivity.
  - apply (proj1 (proj2 (windup_faces_player_and_fires_once (H := sample_engine)
                    GameConfig_init
                    (sample_game (Some moved_player) (Some winding_monster))
                    1 winding_monster eq_refl eq_refl))).
    + discriminate.
    + reflexivity.
  - intros m' shots.
    apply (proj2 (proj2 (windup_faces_player_and_fires_once (H := sample_engine)
                    GameConfig_init
                    (sample_game (Some moved_player) (Some winding_monster))
                    (1 # 2) winding_monster eq_refl eq_refl))).
    intros _. eexists. reflexivity.
Defined.

(** C6 as stated fails: during the wind-up the monster turns to where the
    player is now, not to the stored target. *)
Lemma windup_turns_to_player_not_stored_target :
  _is_winding_up_attack winding_monster = true /\
  target_for_attack winding_monster = Some (mkVec3 3 (1 # 2) 0) /\
  (0 < _attack_windup_timer winding_monster - (1 # 2))%Q /\
  exists m',
    Monster_update (H := sample_engine) GameConfig_init
      (sample_game (Some moved_player) (Some winding_monster)) (1 # 2)
      winding_monster = Ok (m', []) /\
    monster_rotation m'
    = look_at (monster_position winding_monster) (player_position moved_player) /\
    monster_rotation m'
    <> look_at (monster_position winding_monster) (mkVec3 3 (1 # 2) 0).
Proof.
  split; [reflexivity|]. split; [reflexivity|]. split; [reflexivity|].
  eexists. split; [reflexivity|]. split; [reflexivity|].
  intros Heq. apply (f_equal vx) in Heq. vm_compute in Heq. discriminate.
Qed.

End MonsterOnSampleEngine.

(** A tick raises the wind-up flag only through [_start_attack_windup],
    which [update] calls only when the player is available and in range
    and the cooldown has run out. *)
Lemma windup_only_starts_on_player `{Engine} cfg game dt m m' shots :
  _is_winding_up_attack m = false ->
  Monster_update cfg game dt m = Ok (m', shots) ->
  _is_winding_up_attack m' = true ->
  current_state game = PLAYING /\
  exists p,
    available_player game = Some p /\
    (distance (monster_position m) (player_position p)
     < MONSTER_VISION_RANGE cfg)%Q /\
    (_attack_cooldown_timer m - dt <= 0)%Q /\
    target_for_attack m' = Some (player_position p) /\
    _attack_windup_timer m' = MONSTER_ATTACK_WINDUP_TIME cfg /\
    shots = [].
Proof.
  intros Hw. unfold Monster_update.
  destruct (GameState_eqb (current_state game) PLAYING) eqn:Est; cbn [negb].
  2:{ intros [= <- <-] Hw'. congruence. }
  assert (Hst : current_state game = PLAYING).
  { destruct (current_state game); (reflexivity || discriminate). }
  rewrite Hw. cbn [monster_position monster_with].
  destruct (available_player game) as [p|] eqn:Hp.
  - destruct (Qlt_bool (distance (monster_position m) (player_position p))
                (MONSTER_VISION_RANGE cfg)) eqn:Hd;
      destruct (Qle_bool (_attack_cooldown_timer m - dt) 0) eqn:Hc;
      cbn [andb].
    + intros [= <- <-] _. split; [assumption|]. exists p.
      apply Qlt_bool_true in Hd. apply Qle_bool_iff in Hc.
      unfold _start_attack_windup. rewrite Hp. cbn. auto 10.
    + unfold _chase_player. destruct (player game); [|discriminate].
      cbn. intros [= <- <-]. cbn. congruence.
    + unfold _patrol. destruct (MONSTER_PATROL_TYPE cfg).
      * cbn. destruct (target_position m); [|discriminate].
        cbn. intros [= <- <-]. cbn. congruence.
      * cbn. intros [= <- <-]. cbn. congruence.
    + unfold _patrol. destruct (MONSTER_PATROL_TYPE cfg).
      * cbn. destruct (target_position m); [|discriminate].
        cbn. intros [= <- <-]. cbn. congruence.
      * cbn. intros [= <- <-]. cbn. congruence.
  - cbn [andb]. unfold _patrol. destruct (MONSTER_PATROL_TYPE cfg).
    + cbn. destruct (target_position m); [|discriminate].
      cbn. intros [= <- <-]. cbn. congruence.
    + cbn. intros [= <- <-]. cbn. congruence.
Qed.

(** C7.  On a tick of a game being played where the monster is not winding
    up, the player is available and within vision range and the decremented
    cooldown is zero or less, the monster starts winding up: the wind-up
    timer is the configured wind-up time and the stored target is the
    player's current position; the monster neither moves nor fires, and
    the cooldown keeps its decremented value.  Conversely a tick starts a
    wind-up only in that situation: at capture time the player is always
    available, so the target stored by [update] is the player's position
    and never the forward-vector fallback of [_start_attack_windup]. *)
Theorem attack_windup_targets_player_position `{Engine} cfg game dt m :
  _is_winding_up_attack m = false ->
  (forall p,
     current_state game = PLAYING ->
     available_player game = Some p ->
     (distance (monster_position m) (player_position p)
      < MONSTER_VISION_RANGE cfg)%Q ->
     (_attack_cooldown_timer m - dt <= 0)%Q ->
     exists m',
       Monster_update cfg game dt m = Ok (m', []) /\
       _is_winding_up_attack m' = true /\
       _attack_windup_timer m' = MONSTER_ATTACK_WINDUP_TIME cfg /\
       target_for_attack m' = Some (player_position p) /\
       _attack_cooldown_timer m' = (_attack_cooldown_timer m - dt)%Q /\
       monster_position m' = monster_position m) /\
  (forall m' shots,
     Monster_update cfg game dt m = Ok (m', shots) ->
     _is_winding_up_attack m' = true ->
     current_state game = PLAYING /\
     exists p,
       available_player game = Some p /\
       (distance (monster_position m) (player_position p)
        < MONSTER_VISION_RANGE cfg)%Q /\
       (_attack_cooldown_timer m - dt <= 0)%Q /\
       target_for_attack m' = Some (player_position p) /\
       _attack_windup_timer m' = MONSTER_ATTACK_WINDUP_TIME cfg /\
       shots = []).
Proof.
  intros Hw. split.
  - intros p Hst Hp Hd Hc. now apply attack_windup_starts.
  - intros m' shots. now apply windup_only_starts_on_player.
Qed.

Section AimOnSampleEngine.
#[local] Existing Instance sample_engine.

Lemma attack_windup_targets_player_position_witness :
  (exists m',
     Monster_update (H := sample_engine) GameConfig_init
       (sample_game (Some moved_player) (Some idle_monster)) (1 # 2)
       idle_monster = Ok (m', []) /\
     _is_winding_up_attack m' = true /\
     _attack_windup_timer m' = MONSTER_ATTACK_WINDUP_TIME GameConfig_init /\
     target_for_attack m' = Some (player_position moved_player) /\
     _attack_cooldown_timer m'
     = (_attack_cooldown_timer idle_monster - (1 # 2))%Q /\
     monster_position m' = monster_position idle_monster) /\
  (forall m' shots,
     Monster_update (H := sample_engine) GameConfig_init
       (sample_game (Some moved_player) (Some idle_monster)) (1 # 2)
       idle_monster = Ok (m', shots) ->
     _is_winding_up_attack m' = true ->
     current_state (sample_game (Some moved_player) (Some idle_monster))
     = PLAYING /\
     exists p,
       available_player (sample_game (Some moved_player) (Some idle_monster))
       = Some p /\
       (distance (monster_position idle_monster) (player_position p)
        < MONSTER_VISION_RANGE GameConfig_init)%Q /\
       (_attack_cooldown_timer idle_monster - (1 # 2) <= 0)%Q /\
       target_for_attack m' = Some (player_position p) /\
       _attack_windup_timer m' = MONSTER_ATTACK_WINDUP_TIME GameConfig_init /\
       shots = []).
Proof.
  split.
  - apply (proj1 (attack_windup_targets_player_position (H := sample_engine)
                    GameConfig_init
                    (sample_game (Some moved_player) (Some idle_monster))
                    (1 # 2) idle_monster eq_refl) moved_player).
    + reflexivity.
    + reflexivity.
    + reflexivity.
    + discriminate.
  - apply (proj2 (attack_windup_targets_player_position (H := sample_engine)
                    GameConfig_init
                    (sample_game (Some moved_player) (Some idle_monster))
                    (1 # 2) idle_monster eq_refl)).
Defined.

(** The fallback branch of [_start_attack_windup], which [update] never
    takes, evaluated on a monster at (5, 3/4, 0) that looks along +z, with
    no player: the stored target is (0, 0, 10), the forward vector scaled by
    10 from the origin of the world.  It is not a point ahead of the
    monster's position, and a shot fired at it leaves sideways. *)
Lemma windup_without_player_aims_from_world_origin :
  available_player (sample_game None (Some idle_monster)) = None /\
  target_for_attack
    (_start_attack_windup (H := sample_engine) GameConfig_init
       (sample_game None (Some idle_monster)) idle_monster)
  = Some (vscale (forward (monster_rotation idle_monster)) 10) /\
  ~ ahead_of (monster_position idle_monster)
      (forward (monster_rotation idle_monster))
      (vscale (forward (monster_rotation idle_monster)) 10) /\
  exists shot,
    snd (_execute_attack (H := sample_engine) GameConfig_init
           (_start_attack_windup (H := sample_engine) GameConfig_init
              (sample_game None (Some idle_monster)) idle_monster))
    = [shot] /\
    (vx (direction shot) == - (5))%Q /\
    (vx (forward (monster_rotation idle_monster)) == 0)%Q.
Proof.
  split; [reflexivity|]. split; [reflexivity|]. split.
  - intros (k & Hx & _). cbn in Hx. lra.
  - eexists. split; [reflexivity|]. split; reflexivity.
Qed.
End AimOnSampleEngine.

(** * The claim about the game state machine *)

Section GameClaims.
Context `{Engine}.
Variable cfg : GameConfig.

Lemma GameState_eqb_eq a b : GameState_eqb a b = true <-> a = b.
Proof. destruct a, b; simpl; split; congruence. Qed.

Lemma set_game_state_state st game :
  current_state (set_game_state st game) = st.
Proof.
  unfold set_game_state.
  destruct (GameState_eqb (current_state game) st) eqn:E.
  - now apply GameState_eqb_eq.
  - destruct st; reflexivity.
Qed.

(** Entering Playing by [set_game_state] touches neither the grid nor the
    placement of the entities. *)
Lemma set_playing_keeps game :
  let game' := set_game_state PLAYING game in
  maze_grid (maze_generator game') = maze_grid (maze_generator game) /\
  option_map player_start_position (player game')
  = option_map player_start_position (player game) /\
  option_map player_position (player game')
  = option_map player_position (player game) /\
  option_map goal_position (goal game')
  = option_map goal_position (goal game) /\
  option_map monster_start_position (monster game')
  = option_map monster_start_position (monster game).
Proof.
  unfold set_game_state.
  destruct (GameState_eqb (current_state game) PLAYING); [auto 10|].
  cbn. destruct (player game), (goal game), (monster game); cbn; auto 10.
Qed.

Lemma take_damage_state amount game :
  current_state (take_damage cfg amount game) = current_state game \/
  current_state (take_damage cfg amount game) = LOSE.
Proof.
  unfold take_damage. destruct (player game) as [p|]; [|now left].
  destruct (negb (is_invulnerable p)); [|now left].
  destruct (current_health p - amount <=? 0).
  - right. apply set_game_state_state.
  - now left.
Qed.

Lemma start_game_regenerates fuel game r game' r' :
  start_game cfg fuel game r = Ok (game', r') ->
  current_state game' = PLAYING /\ regenerated cfg fuel game r game' r'.
Proof.
  unfold start_game. intros Hs.
  apply rbind_ok in Hs as ([mg r1] & Hgen & Hs).
  apply rbind_ok in Hs as (p & Hp & Hs).
  apply rbind_ok in Hs as (q & Hq & Hs).
  apply rbind_ok in Hs as ([c r2] & Hc & Hs).
  injection Hs as <- <-.
  split; [apply set_game_state_state|].
  match goal with
  | |- regenerated _ _ _ _ (set_game_state PLAYING ?g0) _ =>
      destruct (set_playing_keeps g0) as (Hk1 & Hk2 & Hk3 & Hk4 & Hk5);
      set (g1 := g0) in *
  end.
  exists mg, r1, p, q, c. do 4 (split; [assumption|]).
  split; [rewrite Hk1; reflexivity|].
  split; [|split].
  - destruct (player (set_game_state PLAYING g1)) as [pl|] eqn:Epl;
      [|discriminate Hk2].
    exists pl. split; [reflexivity|].
    cbn in Hk2, Hk3. injection Hk2 as Hk2. injection Hk3 as Hk3.
    rewrite Hk2, Hk3. destruct (player game); split; reflexivity.
  - destruct (goal (set_game_state PLAYING g1)) as [gl|] eqn:Egl;
      [|discriminate Hk4].
    exists gl. split; [reflexivity|].
    cbn in Hk4. injection Hk4 as Hk4. rewrite Hk4.
    destruct (goal game); split; reflexivity.
  - destruct (monster (set_game_state PLAYING g1)) as [mo|] eqn:Emo;
      [|discriminate Hk5].
    exists mo. split; [reflexivity|].
    cbn in Hk5. injection Hk5 as Hk5. rewrite Hk5.
    destruct (monster game); reflexivity.
Qed.

Lemma start_game_ok fuel game r :
  3 <= dimension (maze_generator game) ->
  Z.odd (dimension (maze_generator game)) = true ->
  (Z.to_nat (dimension (maze_generator game) * dimension (maze_generator game))
   <= fuel)%nat ->
  exists game' r', start_game cfg fuel game r = Ok (game', r').
Proof.
  intros HD Hodd Hfuel.
  destruct (generate_random_maze_ok cfg fuel (maze_generator game) r HD Hodd Hfuel)
    as (s & r1 & mg & r2 & _ & Hgen & Hdim & _ & _ & _ & _ & Hinv).
  rewrite <- Hdim in Hinv, HD.
  pose proof (ci_shape _ _ _ Hinv) as Hs.
  destruct (find_spawn_point_spec _ _ Hs) as (p & Hp & _).
  destruct (find_goal_point_spec _ _ Hs) as (q & Hq & _).
  destruct (monster_attempts_spec 100 _ _ r2 HD Hs) as (c & r3 & Hc & _).
  unfold start_game. rewrite Hgen. cbn [rbind].
  rewrite Hp, Hq. cbn [rbind]. unfold find_monster_spawn_point.
  rewrite Hc. cbn [rbind]. eauto.
Qed.

(** Entering Playing enables whatever entities exist and shows the HUD. *)
Lemma set_playing_enables game :
  current_state game <> PLAYING ->
  entities_enabled (set_game_state PLAYING game).
Proof.
  intros Hst. unfold set_game_state.
  destruct (GameState_eqb (current_state game) PLAYING) eqn:E.
  { apply GameState_eqb_eq in E. contradiction. }
  unfold entities_enabled. cbn.
  destruct (player game), (goal game), (monster game),
    (mesh_entity (maze_generator game)); cbn;
    repeat split; intros ? [= <-]; reflexivity.
Qed.

(** ** What holds in every state the game can reach *)

Lemma game_inv_ext game game' :
  game_inv game ->
  current_state game' = current_state game ->
  menu_enabled (ui_manager game') = menu_enabled (ui_manager game) ->
  pause_menu_enabled (ui_manager game')
  = pause_menu_enabled (ui_manager game) ->
  game_over_buttons_enabled (ui_manager game')
  = game_over_buttons_enabled (ui_manager game) ->
  option_map player_enabled (player game')
  = option_map player_enabled (player game) ->
  option_map goal_enabled (goal game')
  = option_map goal_enabled (goal game) ->
  option_map monster_enabled (monster game')
  = option_map monster_enabled (monster game) ->
  game_inv game'.
Proof.
  intros [H1 H2 H3 H4 H5] Hst Hm Hp Ho Hpl Hgl Hmo.
  assert (Hex : forall b, entities_exist b game -> entities_exist b game').
  { intros b (p & gl & m & Ep & Epe & Eg & Ege & Em & Eme).
    rewrite Ep in Hpl. rewrite Eg in Hgl. rewrite Em in Hmo.
    destruct (player game') as [p'|] eqn:Ep'; [|discriminate].
    destruct (goal game') as [gl'|] eqn:Eg'; [|discriminate].
    destruct (monster game') as [m'|] eqn:Em'; [|discriminate].
    cbn in Hpl, Hgl, Hmo. exists p', gl', m'.
    repeat split; congruence. }
  constructor; rewrite ?Hst, ?Hm, ?Hp, ?Ho; auto.
Qed.

Lemma set_game_state_inv st game :
  game_inv game ->
  (st = PLAYING -> current_state game <> PLAYING ->
   exists p gl m,
     player game = Some p /\ goal game = Some gl /\ monster game = Some m) ->
  (st = PAUSED -> current_state game <> PAUSED ->
   current_state game = PLAYING) ->
  game_inv (set_game_state st game).
Proof.
  intros Hinv Hplay Hpause. unfold set_game_state.
  destruct (GameState_eqb (current_state game) st) eqn:E; [assumption|].
  assert (Hne : current_state game <> st).
  { intros Heq. apply GameState_eqb_eq in Heq. congruence. }
  destruct st.
  - constructor; cbn; try reflexivity; discriminate.
  - destruct (Hplay eq_refl Hne) as (p & gl & m & Ep & Eg & Em).
    constructor; cbn; try reflexivity; try discriminate.
    intros _. rewrite Ep, Eg, Em. cbn.
    eexists _, _, _. repeat split; reflexivity.
  - pose proof (gi_playing _ Hinv (Hpause eq_refl Hne))
      as (p & gl & m & Ep & Epe & Eg & Ege & Em & Eme).
    constructor; cbn; try reflexivity; try discriminate.
    intros _. rewrite Ep, Eg, Em. cbn.
    eexists _, _, _. repeat split; (reflexivity || assumption).
  - constructor; cbn; try reflexivity; discriminate.
  - constructor; cbn; try reflexivity; discriminate.
Qed.

Lemma take_damage_inv amount game :
  game_inv game -> game_inv (take_damage cfg amount game).
Proof.
  intros Hinv. unfold take_damage.
  destruct (player game) as [p|] eqn:Ep; [|assumption].
  destruct (negb (is_invulnerable p)); [|assumption].
  destruct (current_health p - amount <=? 0).
  - apply set_game_state_inv; try discriminate.
    eapply game_inv_ext; [exact Hinv|..]; cbn; rewrite ?Ep; reflexivity.
  - eapply game_inv_ext; [exact Hinv|..]; cbn; rewrite ?Ep; reflexivity.
Qed.

Lemma start_game_inv fuel game r game' r' :
  game_inv game ->
  current_state game <> PLAYING -> current_state game <> PAUSED ->
  start_game cfg fuel game r = Ok (game', r') ->
  game_inv game' /\ entities_enabled game'.
Proof.
  intros Hinv Hn1 Hn2. unfold start_game. intros Hs.
  apply rbind_ok in Hs as ([mg r1] & Hgen & Hs).
  apply rbind_ok in Hs as (p & Hp & Hs).
  apply rbind_ok in Hs as (q & Hq & Hs).
  apply rbind_ok in Hs as ([c r2] & Hc & Hs).
  injection Hs as <- <-.
  split; [|apply set_playing_enables; exact Hn1].
  apply set_game_state_inv; try discriminate.
  - destruct Hinv as [H1 H2 H3 _ _].
    constructor; cbn; try contradiction;
      destruct (player game); cbn; assumption.
  - intros _ _. cbn. eexists _, _, _. repeat split; reflexivity.
Qed.

Lemma Monster_update_enabled game dt m m' shots :
  Monster_update cfg game dt m = Ok (m', shots) ->
  monster_enabled m' = monster_enabled m.
Proof.
  unfold Monster_update.
  destruct (negb (GameState_eqb (current_state game) PLAYING)).
  { now intros [= <- <-]. }
  destruct (_is_winding_up_attack m).
  - destruct (Qle_bool (_attack_windup_timer m - dt) 0).
    + now intros [= <- <-].
    + destruct (available_player game); now intros [= <- <-].
  - cbn [monster_position monster_with].
    destruct (_ && _).
    + now intros [= <- <-].
    + destruct (match available_player game with Some _ => _ | None => _ end).
      * unfold _chase_player. destruct (player game); [|discriminate].
        cbn. now intros [= <- <-].
      * unfold _patrol. cbn.
        destruct (MONSTER_PATROL_TYPE cfg).
        -- destruct (target_position m); [|discriminate].
           cbn. now intros [= <- <-].
        -- cbn. now intros [= <- <-].
Qed.

(** A delivered button click tells the state the game is in. *)
Lemma button_enabled_state game ev :
  game_inv game -> button_enabled (ui_manager game) ev = true ->
  match ev with
  | ClickStart | ClickExit => current_state game = MENU
  | ClickRestart | ClickBackToMenu =>
      current_state game = WIN \/ current_state game = LOSE
  | ClickResume | ClickPauseToMenu => current_state game = PAUSED
  | KeyEscape | GoalTriggered | ProjectileHit => True
  end.
Proof.
  intros [H1 H2 H3 _ _]. destruct ev; cbn; intros Hb; trivial;
    rewrite ?H1, ?H2, ?H3 in Hb;
    destruct (current_state game); cbn in Hb; auto; discriminate.
Qed.

Lemma game_step_inv fuel s game r game' r' :
  game_inv game ->
  game_step cfg fuel s game r = Ok (game', r') ->
  game_inv game'.
Proof.
  intros Hinv. destruct s as [ev|dt|dt]; cbn [game_step].
  - unfold deliver.
    destruct (button_enabled (ui_manager game) ev) eqn:Hb;
      [|now intros [= <- <-]].
    pose proof (button_enabled_state game ev Hinv Hb) as Hst.
    destruct ev; cbn [handle_event]; unfold restart_game, go_to_main_menu.
    + intros Hs. eapply start_game_inv; [exact Hinv| | |exact Hs]; congruence.
    + intros [= <- <-].
      eapply game_inv_ext; [exact Hinv|..]; reflexivity.
    + intros Hs.
      eapply start_game_inv; [exact Hinv| | |exact Hs];
        destruct Hst; congruence.
    + intros [= <- <-].
      apply set_game_state_inv; [assumption|discriminate..].
    + intros [= <- <-].
      apply set_game_state_inv; [assumption| |discriminate].
      intros _ _. destruct (gi_paused _ Hinv Hst)
        as (p & gl & m & Ep & _ & Eg & _ & Em & _). eauto 10.
    + intros [= <- <-].
      apply set_game_state_inv; [assumption|discriminate..].
    + intros [= <- <-]. unfold handle_escape.
      destruct (current_state game) eqn:Est.
      * eapply game_inv_ext; [exact Hinv|..]; reflexivity.
      * apply set_game_state_inv; [assumption|discriminate|auto].
      * apply set_game_state_inv; [assumption| |discriminate].
        intros _ _. destruct (gi_paused _ Hinv Est)
          as (p & gl & m & Ep & _ & Eg & _ & Em & _). eauto 10.
      * apply set_game_state_inv; [assumption|discriminate..].
      * apply set_game_state_inv; [assumption|discriminate..].
    + intros [= <- <-].
      apply set_game_state_inv; [assumption|discriminate..].
    + destruct (available_player game); intros [= <- <-];
        [now apply take_damage_inv|assumption].
  - intros [= <- <-]. unfold player_frame.
    destruct (player game) as [p|] eqn:Ep; [|assumption].
    destruct (player_enabled p) eqn:Epe; [|assumption].
    eapply game_inv_ext; [exact Hinv|..]; cbn; rewrite ?Ep; try reflexivity.
    cbn. unfold Player_update. now destruct (is_invulnerable p).
  - intros Hs. apply rbind_ok in Hs as (g1 & Hf & Hs). injection Hs as <- <-.
    unfold monster_frame in Hf.
    destruct (monster game) as [m|] eqn:Em; [|now injection Hf as <-].
    destruct (monster_enabled m) eqn:Eme; [|now injection Hf as <-].
    apply rbind_ok in Hf as ([m' shots] & Hu & Hf). injection Hf as <-.
    eapply game_inv_ext; [exact Hinv|..]; cbn; rewrite ?Em; try reflexivity.
    cbn. f_equal. eapply Monster_update_enabled; eassumption.
Qed.

Lemma run_game_inv fuel steps : forall game r game' r',
  game_inv game ->
  run_game cfg fuel steps game r = Ok (game', r') ->
  game_inv game'.
Proof.
  induction steps as [|s steps IH]; intros game r game' r' Hinv Hrun;
    cbn [run_game] in Hrun.
  - now injection Hrun as <- <-.
  - apply rbind_ok in Hrun as ([g1 r1] & Hstep & Hrun).
    eapply IH; [|exact Hrun]. eapply game_step_inv; eassumption.
Qed.

Lemma Game_init_inv : game_inv (Game_init cfg).
Proof. constructor; cbn; try reflexivity; discriminate. Qed.

(** C2, as the code has it.  Entering Playing through [start_game] (the
    Start and Restart buttons: Menu to Playing, Win or Lose to Playing)
    first regenerates the maze and re-derives the three spawn points, and
    [start_game] returns for every odd dimension D >= 3.  The only other
    way into Playing is resuming (the Resume button, or Escape while
    Paused), which calls [set_game_state(PLAYING)] directly: it re-enables
    the entities and keeps the maze, the random state and the placement of
    the entities.  In a game run by the engine from its initial state, where
    a click reaches a button only while that button is enabled, Playing is
    entered from Menu by Start, from Win or Lose by Restart, and otherwise
    only from Paused, where the goal and the monster were disabled. *)
Theorem entering_playing_regenerates_unless_resumed fuel :
  (forall ev game r,
     ev = ClickStart \/ ev = ClickRestart ->
     3 <= dimension (maze_generator game) ->
     Z.odd (dimension (maze_generator game)) = true ->
     (Z.to_nat (dimension (maze_generator game)
                * dimension (maze_generator game)) <= fuel)%nat ->
     exists game' r',
       handle_event cfg fuel ev game r = Ok (game', r') /\
       current_state game' = PLAYING /\
       regenerated cfg fuel game r game' r') /\
  (forall ev game r game' r',
     handle_event cfg fuel ev game r = Ok (game', r') ->
     current_state game <> PLAYING -> current_state game' = PLAYING ->
     ((ev = ClickStart \/ ev = ClickRestart) /\
      regenerated cfg fuel game r game' r' /\
      entities_enabled game') \/
     ((ev = ClickResume \/ (ev = KeyEscape /\ current_state game = PAUSED)) /\
      maze_kept game r game' r' /\
      entities_enabled game')) /\
  (forall steps r0 game r ev game' r',
     run_game cfg fuel steps (Game_init cfg) r0 = Ok (game, r) ->
     deliver cfg fuel ev game r = Ok (game', r') ->
     current_state game <> PLAYING -> current_state game' = PLAYING ->
     ((ev = ClickStart /\ current_state game = MENU \/
       ev = ClickRestart /\
       (current_state game = WIN \/ current_state game = LOSE)) /\
      regenerated cfg fuel game r game' r' /\
      entities_enabled game') \/
     (current_state game = PAUSED /\
      (ev = ClickResume \/ ev = KeyEscape) /\
      maze_kept game r game' r' /\
      entities_exist false game /\
      entities_exist true game' /\
      entities_enabled game')).
Proof.
  assert (HB : forall ev game r game' r',
     handle_event cfg fuel ev game r = Ok (game', r') ->
     current_state game <> PLAYING -> current_state game' = PLAYING ->
     ((ev = ClickStart \/ ev = ClickRestart) /\
      regenerated cfg fuel game r game' r' /\
      entities_enabled game') \/
     ((ev = ClickResume \/ (ev = KeyEscape /\ current_state game = PAUSED)) /\
      maze_kept game r game' r' /\
      entities_enabled game')).
  { intros ev game r game' r' Hev Hbefore Hafter.
    assert (Hstart : start_game cfg fuel game r = Ok (game', r') ->
              regenerated cfg fuel game r game' r' /\ entities_enabled game').
    { intros Hs. split; [now apply start_game_regenerates|].
      unfold start_game in Hs.
      apply rbind_ok in Hs as ([mg r1] & _ & Hs).
      apply rbind_ok in Hs as (p & _ & Hs).
      apply rbind_ok in Hs as (q & _ & Hs).
      apply rbind_ok in Hs as ([c r2] & _ & Hs).
      injection Hs as <- <-. apply set_playing_enables. exact Hbefore. }
    assert (Hresume : maze_kept game r (set_game_state PLAYING game) r /\
              entities_enabled (set_game_state PLAYING game)).
    { split; [|now apply set_playing_enables].
      destruct (set_playing_keeps game) as (Hk1 & Hk2 & _ & Hk4 & Hk5).
      unfold maze_kept. auto 10. }
    destruct ev; cbn [handle_event] in Hev.
    - left. split; [auto|]. now apply Hstart.
    - injection Hev as <- <-. cbn in Hafter. contradiction.
    - left. split; [auto|]. now apply Hstart.
    - injection Hev as <- <-. unfold go_to_main_menu in Hafter.
      rewrite set_game_state_state in Hafter. discriminate.
    - injection Hev as <- <-. right. split; [auto|]. exact Hresume.
    - injection Hev as <- <-. unfold go_to_main_menu in Hafter.
      rewrite set_game_state_state in Hafter. discriminate.
    - injection Hev as <- <-. unfold handle_escape in *.
      destruct (current_state game) eqn:Est; try contradiction;
        try (rewrite set_game_state_state in Hafter; discriminate).
      + cbn in Hafter. congruence.
      + right. split; [auto|]. exact Hresume.
    - injection Hev as <- <-.
      rewrite set_game_state_state in Hafter. discriminate.
    - destruct (available_player game).
      + injection Hev as <- <-.
        destruct (take_damage_state (MONSTER_ATTACK_DAMAGE cfg) game)
          as [Hs|Hs]; rewrite Hs in Hafter; [contradiction|discriminate].
      + injection Hev as <- <-. contradiction. }
  split; [|split].
  - intros ev game r Hev HD Hodd Hfuel.
    destruct (start_game_ok fuel game r HD Hodd Hfuel) as (game' & r' & Hs).
    exists game', r'.
    destruct (start_game_regenerates fuel game r game' r' Hs) as [Hst Hre].
    destruct Hev as [-> | ->]; cbn [handle_event]; unfold restart_game; auto.
  - exact HB.
  - intros steps r0 game r ev game' r' Hrun Hdel Hbefore Hafter.
    pose proof (run_game_inv fuel steps _ _ _ _ Game_init_inv Hrun) as Hinv.
    assert (Hinv' : game_inv game').
    { apply (game_step_inv fuel (Input ev) game r game' r' Hinv). exact Hdel. }
    unfold deliver in Hdel.
    destruct (button_enabled (ui_manager game) ev) eqn:Hb.
    2:{ injection Hdel as <- <-. contradiction. }
    pose proof (button_enabled_state game ev Hinv Hb) as Hst.
    destruct (HB ev game r game' r' Hdel Hbefore Hafter)
      as [([-> | ->] & Hre & Hen)|([-> | [-> Hp]] & Hk & Hen)].
    + left. auto.
    + left. auto.
    + right. split; [exact Hst|]. split; [auto|]. split; [exact Hk|].
      split; [now apply (gi_paused _ Hinv)|].
      split; [now apply (gi_playing _ Hinv')|exact Hen].
    + right. split; [exact Hp|]. split; [auto|]. split; [exact Hk|].
      split; [now apply (gi_paused _ Hinv)|].
      split; [now apply (gi_playing _ Hinv')|exact Hen].
Qed.
End GameClaims.

Section GameOnSampleEngine.
#[local] Existing Instance sample_engine.

Lemma entering_playing_regenerates_unless_resumed_witness :
  (exists game' r',
     handle_event small_config 25 ClickStart (Game_init small_config)
       [3%nat; 1%nat; 4%nat] = Ok (game', r') /\
     current_state game' = PLAYING /\
     regenerated small_config 25 (Game_init small_config)
       [3%nat; 1%nat; 4%nat] game' r') /\
  (((ClickResume = ClickStart \/ ClickResume = ClickRestart) /\
    regenerated small_config 25 paused_game [7%nat]
      (set_game_state PLAYING paused_game) [7%nat] /\
    entities_enabled (set_game_state PLAYING paused_game)) \/
   ((ClickResume = ClickResume \/
     (ClickResume = KeyEscape /\ current_state paused_game = PAUSED)) /\
    maze_kept paused_game [7%nat] (set_game_state PLAYING paused_game)
      [7%nat] /\
    entities_enabled (set_game_state PLAYING paused_game))) /\
  (((ClickResume = ClickStart /\ current_state paused_game = MENU \/
     ClickResume = ClickRestart /\
     (current_state paused_game = WIN \/ current_state paused_game = LOSE)) /\
    regenerated small_config 25 paused_game []
      (set_game_state PLAYING paused_game) [] /\
    entities_enabled (set_game_state PLAYING paused_game)) \/
   (current_state paused_game = PAUSED /\
    (ClickResume = ClickResume \/ ClickResume = KeyEscape) /\
    maze_kept paused_game [] (set_game_state PLAYING paused_game) [] /\
    entities_exist false paused_game /\
    entities_exist true (set_game_state PLAYING paused_game) /\
    entities_enabled (set_game_state PLAYING paused_game))).
Proof.
  pose proof (entering_playing_regenerates_unless_resumed small_config 25)
    as (HA & HB & HC).
  split; [|split].
  - apply HA; [now left|cbn; lia|reflexivity|cbn; lia].
  - apply (HB ClickResume paused_game [7%nat]);
      [reflexivity|vm_compute; discriminate|apply set_game_state_state].
  - apply (HC [Input ClickStart; Input KeyEscape]
              [3%nat; 1%nat; 4%nat; 1%nat; 5%nat] paused_game []
              ClickResume).
    + vm_compute. reflexivity.
    + vm_compute. reflexivity.
    + vm_compute. discriminate.
    + apply set_game_state_state.
Defined.

(** C2 as stated fails on the transition from Paused to Playing: resuming
    leaves the maze and the random state as they were, so neither the maze
    nor the spawn points are derived anew. *)
Lemma resume_does_not_regenerate :
  current_state paused_game = PAUSED /\
  handle_event small_config 25 ClickResume paused_game [7%nat]
  = Ok (set_game_state PLAYING paused_game, [7%nat]) /\
  current_state (set_game_state PLAYING paused_game) = PLAYING /\
  maze_grid (maze_generator (set_game_state PLAYING paused_game))
  = maze_grid (maze_generator paused_game) /\
  ~ regenerated small_config 25 paused_game [7%nat]
      (set_game_state PLAYING paused_game) [7%nat].
Proof.
  split; [vm_compute; reflexivity|]. split; [reflexivity|].
  split; [apply set_game_state_state|].
  split; [vm_compute; reflexivity|].
  intros (mg & r1 & p & q & c & Hgen & _ & _ & Hm & _).
  vm_compute in Hgen. injection Hgen as <- <-.
  vm_compute in Hm. discriminate.
Qed.
End GameOnSampleEngine.

(** * Further properties *)

(** ** The carving visits every room *)

Lemma swap_elem_of {A} (l : list A) i j x : x ∈ l -> x ∈ swap l i j.
Proof.
  intros Hx. unfold swap.
  destruct (l !! i) as [a|] eqn:Ei; [|assumption].
  destruct (l !! j) as [b|] eqn:Ej; [|assumption].
  apply list_elem_of_lookup in Hx as [k Hk].
  apply list_elem_of_lookup.
  pose proof (lookup_lt_Some _ _ _ Ei) as Hi.
  pose proof (lookup_lt_Some _ _ _ Ej) as Hj.
  destruct (decide (k = i)) as [->|Hki].
  - assert (x = a) as -> by congruence.
    destruct (decide (i = j)) as [->|Hij].
    + exists j. rewrite list_lookup_insert_eq by (rewrite length_insert; lia).
      congruence.
    + exists j. rewrite list_lookup_insert_ne by congruence.
      now rewrite list_lookup_insert_eq by lia.
  - destruct (decide (k = j)) as [->|Hkj].
    + exists i. rewrite list_lookup_insert_eq by (rewrite length_insert; lia).
      congruence.
    + exists k. rewrite !list_lookup_insert_ne by congruence. assumption.
Qed.

Lemma shuffle_from_elem_of {A} i : forall (l : list A) r x,
  x ∈ l -> x ∈ fst (shuffle_from i l r).
Proof.
  induction i as [|i IH]; intros l r x Hx; [assumption|].
  cbn [shuffle_from]. destruct (randbelow _ r) as [j r'].
  apply IH. now apply swap_elem_of.
Qed.

Lemma shuffle_In {A} (l : list A) r x : In x l -> In x (fst (shuffle l r)).
Proof.
  intros Hx. apply list_elem_of_In. apply shuffle_from_elem_of.
  now apply list_elem_of_In.
Qed.

Lemma room_closed_mono D g g' c :
  (forall a, is_path D g a = true -> is_path D g' a = true) ->
  room_closed D g c -> room_closed D g' c.
Proof. intros Hm Hc dx dy Hd Hx Hy. apply Hm. now apply Hc. Qed.

Lemma room_not_corridor D g x y c :
  shape D g -> 0 <= x < D -> 0 <= y < D ->
  room D c -> (Z.odd x = false \/ Z.odd y = false) ->
  is_path D (gset g x y 0) c = true -> is_path D g c = true.
Proof.
  intros Hs Hx Hy (_ & Hox & Hoy) Hpar Hp.
  rewrite is_path_gset in Hp by assumption.
  apply orb_true_iff in Hp as [Hp|Hp]; [assumption|].
  apply cell_eqb_eq in Hp. subst c. simpl in *.
  destruct Hpar; congruence.
Qed.

Section Spans.
Variables (D : Z) (s : Z * Z).

Lemma carve_loop_spans rec budget cx cy :
  carve_spec D s rec budget -> span_spec D s rec budget ->
  1 <= cx <= D - 2 -> 1 <= cy <= D - 2 ->
  Z.odd cx = true -> Z.odd cy = true ->
  forall ds g r g' r',
    Forall (fun d => In d directions) ds ->
    carve_inv D s g -> is_path D g (cx, cy) = true ->
    (length (cells D) < S budget + path_count D g)%nat ->
    carve_loop rec D cx cy ds g r = Ok (g', r') ->
    news_closed D g g' /\
    (forall dx dy, In (dx, dy) ds ->
       0 < cx + dx * 2 < D - 1 -> 0 < cy + dy * 2 < D - 1 ->
       is_path D g' (cx + dx * 2, cy + dy * 2) = true) /\
    (forall a, is_path D g a = true -> is_path D g' a = true).
Proof.
  intros Hrec Hspan Hcx Hcy Hox Hoy ds.
  induction ds as [|[dx dy] ds IH]; intros g r g' r' Hds Hinv Hcur Hfuel Hrun.
  - simpl in Hrun. injection Hrun as <- <-.
    split; [intros c _ Hp; now left|]. split; [intros dx dy []|auto].
  - inversion Hds as [|? ? Hd Hds']; subst. cbn [carve_loop] in Hrun.
    pose proof (ci_shape _ _ _ Hinv) as Hs.
    pose proof (in_directions _ _ Hd) as Hdd.
    assert (Hskip :
      (0 < cx + dx * 2 < D - 1 -> 0 < cy + dy * 2 < D - 1 ->
       is_path D g (cx + dx * 2, cy + dy * 2) = true) ->
      carve_loop rec D cx cy ds g r = Ok (g', r') ->
      news_closed D g g' /\
      (forall dx0 dy0, In (dx0, dy0) ((dx, dy) :: ds) ->
         0 < cx + dx0 * 2 < D - 1 -> 0 < cy + dy0 * 2 < D - 1 ->
         is_path D g' (cx + dx0 * 2, cy + dy0 * 2) = true) /\
      (forall a, is_path D g a = true -> is_path D g' a = true)).
    { intros Hhead Hrest.
      destruct (IH g r g' r' Hds' Hinv Hcur Hfuel Hrest) as (Hn & Hdirs & Hm).
      split; [assumption|]. split; [|assumption].
      intros dx0 dy0 [Heq|Hin] Hx0 Hy0; [|now apply Hdirs].
      injection Heq as <- <-. apply Hm. now apply Hhead. }
    destruct ((0 <? cx + dx * 2) && (cx + dx * 2 <? D - 1)
              && (0 <? cy + dy * 2) && (cy + dy * 2 <? D - 1)) eqn:Hb.
    + rewrite !andb_true_iff, !Z.ltb_lt in Hb.
      rewrite (grid_get_ok D) in Hrun by (assumption || lia).
      cbn [rbind] in Hrun.
      destruct (Z.eqb_spec (cellv g (cx + dx * 2) (cy + dy * 2)) 1) as [Hw|Hw].
      * apply (is_path_iff D g cx cy Hs) in Hcur as Hcur'.
        rewrite (grid_set_ok D) in Hrun by (assumption || lia).
        cbn [rbind] in Hrun.
        set (g1 := gset g (cx + dx) (cy + dy) 0) in *.
        assert (Hs1 : shape D g1) by (unfold g1; auto using gset_shape).
        assert (Hinv2 : carve_inv D s
                  (gset g1 (cx + dx * 2) (cy + dy * 2) 0)).
        { unfold g1. apply carve_step_inv; (assumption || lia). }
        assert (Hcnt2 : path_count D (gset g1 (cx + dx * 2) (cy + dy * 2) 0)
                        = S (S (path_count D g))).
        { unfold g1. apply (g2_path_count D s); (assumption || lia). }
        assert (Hm02 : forall a, is_path D g a = true ->
                  is_path D (gset g1 (cx + dx * 2) (cy + dy * 2) 0) a = true).
        { intros a Ha. unfold g1.
          apply (g2_mono D s g cx cy dx dy); (assumption || lia). }
        assert (Hox2 : Z.odd (cx + dx * 2) = true) by (parity; lia).
        assert (Hoy2 : Z.odd (cy + dy * 2) = true) by (parity; lia).
        destruct (Hrec g1 r (cx + dx * 2) (cy + dy * 2))
          as (g2 & r2 & Hcall & Hi2 & Hm2 & Hc2);
          try (assumption || lia).
        rewrite Hcall in Hrun. cbn [rbind] in Hrun.
        pose proof (Hspan g1 r _ _ g2 r2 Hs1 Hinv2 ltac:(lia) ltac:(lia)
                      Hox2 Hoy2 ltac:(lia) Hcall) as Hnew2.
        destruct (IH g2 r2 g' r' Hds' Hi2) as (Hn & Hdirs & Hm); try assumption.
        { apply Hm2, Hm02. apply is_path_iff; auto. }
        { lia. }
        split; [|split].
        -- intros c Hroom Hp.
           destruct (Hn c Hroom Hp) as [Hp2|Hcl]; [|now right].
           destruct (Hnew2 c Hroom Hp2) as [Hp1|Hcl].
           ++ left. unfold g1 in Hp1.
              apply (room_not_corridor D g (cx + dx) (cy + dy) c);
                try (assumption || lia).
              parity. lia.
           ++ right. now apply (room_closed_mono D g2).
        -- intros dx0 dy0 [Heq|Hin] Hx0 Hy0; [|now apply Hdirs].
           injection Heq as <- <-. apply Hm, Hm2.
           rewrite is_path_gset by (assumption || lia).
           rewrite cell_eqb_refl. apply orb_true_r.
        -- intros a Ha. apply Hm, Hm2, Hm02, Ha.
      * apply Hskip; [|assumption]. intros _ _.
        apply is_path_iff; [assumption|].
        split; [lia|]. split; [lia|].
        destruct (ci_bin _ _ _ Hinv (cx + dx * 2) (cy + dy * 2)); lia.
    + apply Hskip; [|assumption]. intros Hx0 Hy0.
      rewrite !andb_false_iff, !Z.ltb_ge in Hb. lia.
Qed.

Lemma carve_path_spans fuel : span_spec D s (_carve_path fuel D) fuel.
Proof.
  induction fuel as [|fuel IH];
    intros g r x y g' r' Hs Hinv Hx Hy Hox Hoy Hfuel Hrun; [discriminate|].
  cbn [_carve_path] in Hrun.
  rewrite (grid_set_ok D) in Hrun by (assumption || lia).
  cbn [rbind] in Hrun.
  destruct (shuffle directions r) as [dirs r1] eqn:Hsh.
  assert (Hdirs : Forall (fun d => In d directions) dirs).
  { change dirs with (fst (dirs, r1)). rewrite <- Hsh.
    apply shuffle_Forall. apply List.Forall_forall. auto. }
  assert (Hall : forall d, In d directions -> In d dirs).
  { intros d Hd. change dirs with (fst (dirs, r1)). rewrite <- Hsh.
    now apply shuffle_In. }
  assert (Hcur : is_path D (gset g x y 0) (x, y) = true).
  { rewrite is_path_gset by (assumption || lia).
    rewrite cell_eqb_refl. apply orb_true_r. }
  destruct (carve_loop_spans (_carve_path fuel D) fuel x y
              (carve_path_ok D s fuel) IH Hx Hy Hox Hoy
              dirs (gset g x y 0) r1 g' r' Hdirs Hinv Hcur ltac:(lia) Hrun)
    as (Hn & Hnb & Hm).
  intros c Hroom Hp. destruct (Hn c Hroom Hp) as [Hp1|Hcl]; [|now right].
  rewrite is_path_gset in Hp1 by (assumption || lia).
  apply orb_true_iff in Hp1 as [Hp1|Hp1]; [now left|].
  apply cell_eqb_eq in Hp1. subst c. right.
  intros dx dy Hd Hx0 Hy0. simpl in *. apply Hnb; auto.
Qed.
End Spans.

(** A set of rooms that holds one room and is closed under two-step moves
    holds every room. *)
Lemma closed_rooms_are_all_rooms D g sx sy :
  room D (sx, sy) -> is_path D g (sx, sy) = true ->
  (forall c, room D c -> is_path D g c = true -> room_closed D g c) ->
  forall c, room D c -> is_path D g c = true.
Proof.
  intros Hrs Hps Hclosed.
  assert (Hn : forall n : nat, forall x y, room D (x, y) ->
            Z.abs (x - sx) + Z.abs (y - sy) <= 2 * Z.of_nat n ->
            is_path D g (x, y) = true).
  { induction n as [|n IH]; intros x y Hr Hdist.
    - assert (x = sx) by lia. assert (y = sy) by lia. now subst.
    - destruct Hrs as ((Hsx & Hsy) & Hosx & Hosy).
      destruct Hr as ((Hx & Hy) & Hox & Hoy). simpl in *.
      destruct (Z.eq_dec x sx) as [->|Hne].
      + destruct (Z.eq_dec y sy) as [->|Hney]; [assumption|].
        assert (Hstep : exists dy, (dy = 1 \/ dy = -1) /\
                  Z.abs (y - dy * 2 - sy) + 2 = Z.abs (y - sy)).
        { destruct (Z.lt_ge_cases sy y); [exists 1|exists (-1)];
            (split; [auto|]); parity; lia. }
        destruct Hstep as (dy & Hdy & Hcloser).
        assert (Hprev : is_path D g (sx, y - dy * 2) = true).
        { apply IH; [|lia]. repeat split; simpl; try (parity; lia). }
        assert (Hrp : room D (sx, y - dy * 2)).
        { repeat split; simpl; try (parity; lia). }
        pose proof (Hclosed _ Hrp Hprev 0 dy) as Hc. simpl in Hc.
        replace (sx + 0 * 2) with sx in Hc by lia.
        replace (y - dy * 2 + dy * 2) with y in Hc by lia.
        apply Hc; [|lia|lia].
        unfold directions. simpl. destruct Hdy as [-> | ->]; auto.
      + assert (Hstep : exists dx, (dx = 1 \/ dx = -1) /\
                  Z.abs (x - dx * 2 - sx) + 2 = Z.abs (x - sx)).
        { destruct (Z.lt_ge_cases sx x); [exists 1|exists (-1)];
            (split; [auto|]); parity; lia. }
        destruct Hstep as (dx & Hdx & Hcloser).
        assert (Hprev : is_path D g (x - dx * 2, y) = true).
        { apply IH; [|lia]. repeat split; simpl; try (parity; lia). }
        assert (Hrp : room D (x - dx * 2, y)).
        { repeat split; simpl; try (parity; lia). }
        pose proof (Hclosed _ Hrp Hprev dx 0) as Hc. simpl in Hc.
        replace (y + 0 * 2) with y in Hc by lia.
        replace (x - dx * 2 + dx * 2) with x in Hc by lia.
        apply Hc; [|lia|lia].
        unfold directions. simpl. destruct Hdx as [-> | ->]; auto. }
  intros [x y] Hr. apply (Hn (Z.to_nat (Z.abs (x - sx) + Z.abs (y - sy))) x y Hr).
  lia.
Qed.

Lemma generate_random_maze_carve cfg fuel self r self' r' :
  generate_random_maze cfg fuel self r = Ok (self', r') ->
  exists sx sy r1,
    pick_start (dimension self) r = Ok ((sx, sy), r1) /\
    _carve_path fuel (dimension self) (all_walls (dimension self)) r1 sx sy
    = Ok (maze_grid self', r') /\
    dimension self' = dimension self /\
    cell_size self' = cell_size self /\
    wall_height self' = wall_height self /\
    path_height self' = path_height self /\
    _create_mesh_from_grid cfg
      (set_maze_grid
         (set_maze_grid (clear_maze self) (all_walls (dimension self)))
         (maze_grid self')) = Ok self'.
Proof.
  unfold generate_random_maze.
  cbn [dimension set_maze_grid clear_maze set_mesh_entity maze_grid].
  intros Hgen.
  apply rbind_ok in Hgen as ([[sx sy] r1] & Hpick & Hgen).
  apply rbind_ok in Hgen as ([g r2] & Hcarve & Hgen).
  apply rbind_ok in Hgen as (self2 & Hmesh & Hgen).
  injection Hgen as <- <-.
  pose proof Hmesh as Hmesh'. unfold _create_mesh_from_grid in Hmesh'.
  apply rbind_ok in Hmesh' as (m & _ & Hm). injection Hm as <-.
  exists sx, sy, r1. cbn. auto 10.
Qed.

Lemma generated_rooms_are_paths cfg fuel self r self' r' :
  3 <= dimension self -> Z.odd (dimension self) = true ->
  generate_random_maze cfg fuel self r = Ok (self', r') ->
  forall c, room (dimension self) c ->
    is_path (dimension self) (maze_grid self') c = true.
Proof.
  intros HD Hodd Hgen. set (D := dimension self) in *.
  set (big := Nat.max fuel (Z.to_nat (D * D))).
  apply (generate_random_maze_more_fuel cfg fuel big) in Hgen;
    [|unfold big; lia].
  destruct (generated_grid_inv cfg big self r self' r' HD Hodd Hgen)
    as (s & r1 & Hpick & _ & Hint & Hinv).
  destruct (generate_random_maze_carve _ _ _ _ _ _ Hgen)
    as (sx & sy & r1' & Hpick' & Hcarve & _).
  fold D in Hpick', Hcarve, Hpick, Hinv. rewrite Hpick in Hpick'.
  injection Hpick' as -> <-.
  destruct (pick_start_ok D r HD Hodd)
    as (sx' & sy' & r1'' & Hpick'' & Hsx & Hsy & Hox & Hoy).
  rewrite Hpick in Hpick''. injection Hpick'' as <- <- _.
  assert (Hnew : news_closed D (all_walls D) (maze_grid self')).
  { apply (carve_path_spans D (sx, sy) big (all_walls D) r1 sx sy
             (maze_grid self') r'); try assumption.
    - apply all_walls_shape.
    - now apply init_inv.
    - rewrite (path_count_gset D)
        by (try apply all_walls_shape; try apply all_walls_not_path; lia).
      rewrite length_cells by lia. unfold big. lia. }
  apply (closed_rooms_are_all_rooms D _ sx sy).
  - repeat split; simpl; assumption || lia.
  - apply (ci_start _ _ _ Hinv).
  - intros c Hr Hp. destruct (Hnew c Hr Hp) as [Hw|Hc]; [|assumption].
    rewrite all_walls_not_path in Hw. discriminate.
Qed.

(** X1.  Maze generation carves every room: in every grid generated for an
    odd dimension D >= 3, every interior cell with two odd coordinates is a
    Path cell, whatever the random draws were. *)
Theorem generated_maze_spans_every_room cfg fuel self r self' r' x y :
  3 <= dimension self -> Z.odd (dimension self) = true ->
  generate_random_maze cfg fuel self r = Ok (self', r') ->
  1 <= x <= dimension self - 2 -> 1 <= y <= dimension self - 2 ->
  Z.odd x = true -> Z.odd y = true ->
  is_path (dimension self) (maze_grid self') (x, y) = true.
Proof.
  intros HD Hodd Hgen Hx Hy Hox Hoy.
  apply (generated_rooms_are_paths cfg fuel self r self' r' HD Hodd Hgen).
  repeat split; simpl; assumption || lia.
Qed.

Lemma generated_maze_spans_every_room_witness :
  is_path 5 (maze_grid (fst generated_sample)) (3, 1) = true.
Proof.
  apply (generated_maze_spans_every_room GameConfig_init 25
           (TerrainMazeGenerator_init 5 1 1 0) [1%nat; 0%nat; 2%nat]
           (fst generated_sample) (snd generated_sample) 3 1).
  - simpl. lia.
  - reflexivity.
  - vm_compute. reflexivity.
  - simpl. lia.
  - simpl. lia.
  - reflexivity.
  - reflexivity.
Defined.

Lemma generated_corner_rooms cfg fuel self r self' r' :
  3 <= dimension self -> Z.odd (dimension self) = true ->
  generate_random_maze cfg fuel self r = Ok (self', r') ->
  shape (dimension self) (maze_grid self') /\
  is_path (dimension self) (maze_grid self') (1, 1) = true /\
  is_path (dimension self) (maze_grid self')
    (dimension self - 2, dimension self - 2) = true.
Proof.
  intros HD Hodd Hgen.
  destruct (generated_grid_inv cfg fuel self r self' r' HD Hodd Hgen)
    as (s & r1 & _ & _ & _ & Hinv).
  split; [apply Hinv|].
  split; apply (generated_rooms_are_paths cfg fuel self r self' r' HD Hodd Hgen);
    repeat split; simpl; try lia; parity; lia.
Qed.

(** X2.  On every generated maze the player spawn found by
    [find_spawn_point] is the corner room (1, 1) and the goal found by
    [find_goal_point] is the opposite corner room (D-2, D-2); the two are
    the same cell exactly when D = 3. *)
Theorem spawn_and_goal_are_opposite_corners cfg fuel self r self' r' :
  3 <= dimension self -> Z.odd (dimension self) = true ->
  generate_random_maze cfg fuel self r = Ok (self', r') ->
  find_spawn_point (dimension self) (maze_grid self') = Ok (1, 1) /\
  find_goal_point (dimension self) (maze_grid self')
  = Ok (dimension self - 2, dimension self - 2) /\
  ((1, 1) = (dimension self - 2, dimension self - 2) <-> dimension self = 3).
Proof.
  intros HD Hodd Hgen.
  destruct (generated_corner_rooms cfg fuel self r self' r' HD Hodd Hgen)
    as (Hs & Hp11 & Hpdd).
  destruct (find_spawn_point_spec _ _ Hs) as (p & Hp & Hfp).
  destruct (find_goal_point_spec _ _ Hs) as (q & Hq & Hfq).
  split; [|split].
  - rewrite Hp. f_equal.
    destruct Hfp as [((Hi1 & Hi2) & _ & Hmin)|(Hnone & _)].
    + specialize (Hmin (1, 1) ltac:(unfold interior; simpl; lia) Hp11).
      destruct p as [px py]. simpl in *. f_equal; lia.
    + rewrite Hnone in Hp11 by (unfold interior; simpl; lia). discriminate.
  - rewrite Hq. f_equal.
    destruct Hfq as [((Hi1 & Hi2) & _ & Hmin)|(Hnone & _)].
    + specialize (Hmin (dimension self - 2, dimension self - 2)
                    ltac:(unfold interior; simpl; lia) Hpdd).
      destruct q as [qx qy]. simpl in *. f_equal; lia.
    + rewrite Hnone in Hpdd by (unfold interior; simpl; lia). discriminate.
  - split; [intros [= H]; lia|intros ->; reflexivity].
Qed.

Lemma spawn_and_goal_are_opposite_corners_witness :
  find_spawn_point 5 (maze_grid (fst generated_sample)) = Ok (1, 1) /\
  find_goal_point 5 (maze_grid (fst generated_sample)) = Ok (5 - 2, 5 - 2) /\
  ((1, 1) = (5 - 2, 5 - 2) <-> 5 = 3).
Proof.
  apply (spawn_and_goal_are_opposite_corners GameConfig_init 25
           (TerrainMazeGenerator_init 5 1 1 0) [1%nat; 0%nat; 2%nat]
           (fst generated_sample) (snd generated_sample)).
  - simpl. lia.
  - reflexivity.
  - vm_compute. reflexivity.
Defined.

(** X3.  The fallback of [find_monster_spawn_point], the centre
    (D // 2, D // 2), is a Path cell of a generated maze exactly when
    D // 2 is odd. *)
Theorem monster_fallback_is_path_iff_half_odd cfg fuel self r self' r' :
  3 <= dimension self -> Z.odd (dimension self) = true ->
  generate_random_maze cfg fuel self r = Ok (self', r') ->
  is_path (dimension self) (maze_grid self')
    (dimension self / 2, dimension self / 2)
  = Z.odd (dimension self / 2).
Proof.
  intros HD Hodd Hgen.
  destruct (Z.odd (dimension self / 2)) eqn:Hhalf.
  - apply (generated_rooms_are_paths cfg fuel self r self' r' HD Hodd Hgen).
    repeat split; simpl; try lia; assumption.
  - destruct (generated_grid_inv cfg fuel self r self' r' HD Hodd Hgen)
      as (s & r1 & _ & _ & _ & Hinv).
    eapply even_even_not_path; eauto.
Qed.

Lemma monster_fallback_is_path_iff_half_odd_witness :
  is_path 5 (maze_grid (fst generated_sample)) (5 / 2, 5 / 2)
  = Z.odd (5 / 2).
Proof.
  apply (monster_fallback_is_path_iff_half_odd GameConfig_init 25
           (TerrainMazeGenerator_init 5 1 1 0) [1%nat; 0%nat; 2%nat]
           (fst generated_sample) (snd generated_sample)).
  - simpl. lia.
  - reflexivity.
  - vm_compute. reflexivity.
Defined.

(** ** The mesh *)









